(** * gphotos: the upload pipeline of [cmd/gphotos-uploader] and the
      [gphotos.Uploader] it drives

    The development has three parts.

    - The sequential layer embeds the Go functions as state-passing
      functions over a [World] that records every call the program makes
      to its surroundings (file system, HTTP client, Photos Library
      service) and answers them through the oracles of an [Env].
    - The concurrent layer (module [Pipeline]) is an interleaving
      small-step semantics of the goroutines started by [run]; its steps
      call the functions of the sequential layer.
    - Module [Startup] embeds what happens before the pipeline: [main],
      the check of the flags and the reading, fetching and saving of the
      OAuth token, over a log of the calls made. *)

From Stdlib Require Import ZArith Lia Permutation.
From stdpp Require Import base list strings.

Set Default Proof Using "Type".
Open Scope nat_scope.

(** ** Data model *)

(** [type UploadToken string] (uploader.go:16). *)
Definition UploadToken : Type := string.

(** Go [error] values built by the program.  [err == nil] is [None] of
    [option error]. *)
Inductive error : Type :=
| Canceled
    (* context.Canceled, the value of ctx.Err() once ctx is done *)
| External (msg : string)
    (* an error made outside the program: os, net/http, the remote API *)
| TooManyTokens (got limit : nat)
    (* fmt.Errorf("too many tokens, got %v, cannot handle more than %v") *)
| ErrorUploading (filename : string) (cause : error)
    (* errors.Wrapf(err, "error uploading %q", filename) *)
| FailedToUploadPhotos (cause : error).
    (* errors.Wrap(err, "failed to upload photos") *)

#[global] Instance error_eq_dec : EqDecision error.
Proof. solve_decision. Defined.

(** The strings sent on the [messages] channel. *)
Inductive message : Type :=
| Uploaded (filename : string)      (* fmt.Sprintf("uploaded %q", filename) *)
| UploadedBatch (photos : nat).     (* fmt.Sprintf("uploaded batch of %v photos", len(batch)) *)

#[global] Instance message_eq_dec : EqDecision message.
Proof. solve_decision. Defined.

(** [*http.Request] as far as [Upload] builds it. *)
Record Request : Type := mkRequest {
  Method : string;
  URL : string;
  Header : list (string * string);
  RequestBody : string
}.

(** [*http.Response]: the status code and what [ioutil.ReadAll(resp.Body)]
    gives. *)
Record Response : Type := mkResponse {
  StatusCode : Z;
  Body : string * option error
}.

(** [photoslibrary.SimpleMediaItem], [NewMediaItem] and
    [BatchCreateMediaItemsRequest], with the fields the program sets. *)
Record SimpleMediaItem : Type := mkSimpleMediaItem { UploadToken_ : string }.
Record NewMediaItem : Type := mkNewMediaItem { SimpleMediaItem_ : SimpleMediaItem }.
Record BatchCreateMediaItemsRequest : Type :=
  mkBatchCreateMediaItemsRequest { NewMediaItems : list NewMediaItem }.

(** What a [select] between a channel send and [<-ctx.Done()] did. *)
Inductive Selected : Type := CaseSend | CaseDone.

(** What the batcher goroutine observes and does, in order. *)
Inductive BatcherEvent : Type :=
| Received (uploadToken : UploadToken)
    (* the range loop of line 158 yields a token *)
| StreamClosed
    (* the range loop ends: uploadTokens is closed and drained *)
| Commit (batch : list UploadToken) (err : option error).
    (* retry.Do(func() error { return u.CreateMediaItems(batch) }), lines 142-144 *)

(** The surroundings of the program.  Every oracle takes the number of
    earlier calls of its kind, so an answer may change from one call to
    the next (a transient failure). *)
Record Env : Type := mkEnv {
  (* os.Open(filename): the file's bytes, or an error *)
  os_Open : nat -> string -> string * option error;
  (* filepath.Base *)
  filepath_Base : string -> string;
  (* the error of http.NewRequest(method, url, body), if any *)
  http_NewRequest_err : string -> string -> option error;
  (* u.client.Do(req) *)
  client_Do : nat -> Request -> Response * option error;
  (* u.service.MediaItems.BatchCreate(req).Do() *)
  BatchCreate_Do : nat -> BatchCreateMediaItemsRequest -> option error;
  (* how often retry.Do invokes its operation again after a failure *)
  retries : nat;
  (* sequential runs of one goroutine: which case each select takes *)
  selected : nat -> Selected
}.

(** The calls made so far, oldest first. *)
Record World : Type := mkWorld {
  opened : list string;                          (* os.Open *)
  posted : list (Request * (Response * option error));
                                                 (* u.client.Do(req) and its answer *)
  created : list (BatchCreateMediaItemsRequest * option error);
                                                 (* BatchCreate(req).Do() and its answer *)
  batcher_trace : list BatcherEvent;
  emitted : list string;                         (* sends on filenames *)
  sent : list message;                           (* sends on messages *)
  selects : nat                                  (* selects resolved by [selected] *)
}.

Definition empty_world : World :=
  mkWorld [] [] [] [] [] [] 0.

(** ** State passing *)

Definition M (A : Type) : Type := World -> A * World.

Definition ret {A} (a : A) : M A := fun w => (a, w).

Definition bind {A B} (m : M A) (k : A -> M B) : M B :=
  fun w => let (a, w') := m w in k a w'.

Notation "x <- m ;; k" := (bind m (fun x => k))
  (at level 100, m at next level, right associativity).

(** [MaxUploadTokensPerCreateMediaItemsCall = 50] (uploader.go:12-14). *)
Definition MaxUploadTokensPerCreateMediaItemsCall : nat := 50.

Section Program.

Variable env : Env.

(** The constant of uploader.go:13, kept abstract here so that the
    batcher can also be run with another batch size; [Uploader] below
    fixes it to 50. *)
Variable MaxTokens : nat.

(** *** Calls to the surroundings *)

Definition do_os_Open (filename : string) : M (string * option error) :=
  fun w =>
    (os_Open env (length (opened w)) filename,
     mkWorld (opened w ++ [filename]) (posted w) (created w)
             (batcher_trace w) (emitted w) (sent w) (selects w)).

Definition do_client_Do (req : Request) : M (Response * option error) :=
  fun w =>
    let answer := client_Do env (length (posted w)) req in
    (answer,
     mkWorld (opened w) (posted w ++ [(req, answer)]) (created w)
             (batcher_trace w) (emitted w) (sent w) (selects w)).

Definition do_BatchCreate (req : BatchCreateMediaItemsRequest) : M (option error) :=
  fun w =>
    let err := BatchCreate_Do env (length (created w)) req in
    (err,
     mkWorld (opened w) (posted w) (created w ++ [(req, err)])
             (batcher_trace w) (emitted w) (sent w) (selects w)).

Definition observe (ev : BatcherEvent) : M unit :=
  fun w =>
    (tt,
     mkWorld (opened w) (posted w) (created w)
             (batcher_trace w ++ [ev]) (emitted w) (sent w) (selects w)).

(** The send case of a select on [messages] was taken. *)
Definition send_message (msg : message) : World -> World :=
  fun w =>
    mkWorld (opened w) (posted w) (created w)
            (batcher_trace w) (emitted w) (sent w ++ [msg]) (selects w).

(** The send case of the select on [filenames] was taken. *)
Definition send_filename (filename : string) : World -> World :=
  fun w =>
    mkWorld (opened w) (posted w) (created w)
            (batcher_trace w) (emitted w ++ [filename]) (sent w) (selects w).

(** One select resolved by the oracle. *)
Definition next_selected : M Selected :=
  fun w =>
    (selected env (selects w),
     mkWorld (opened w) (posted w) (created w)
             (batcher_trace w) (emitted w) (sent w) (S (selects w))).

(** [select { case messages <- msg: case <-ctx.Done(): return ctx.Err() }]
    run on its own: [None] when the message was sent. *)
Definition select_messages (msg : message) : M (option error) :=
  c <- next_selected ;;
  match c with
  | CaseSend => fun w => (None, send_message msg w)
  | CaseDone => ret (Some Canceled)
  end.

(** *** The Retry Wrapper *)

(** Modelled from the spec: [retry.Do] of github.com/avast/retry-go,
    which is imported by the program and not part of its sources.  The
    spec (4.2): given a zero-argument fallible operation, invoke it; on
    failure, retry up to a bounded number of attempts; return the last
    error if all attempts are exhausted; any error is retryable.  The
    bound is the policy parameter [retries env]; the backoff delay is
    not modelled.  The operation also returns what it assigned to the
    variables it captures (the [uploadToken] of line 107). *)
Fixpoint retry_loop {A} (n : nat) (op : M (A * option error)) : M (A * option error) :=
  fun w =>
    let '((a, err), w') := op w in
    match err, n with
    | None, _ => ((a, None), w')
    | Some e, 0 => ((a, Some e), w')
    | Some e, S n' => retry_loop n' op w'
    end.

Definition retry_Do {A} (op : M (A * option error)) : M (A * option error) :=
  retry_loop (retries env) op.

(** *** uploader.go *)

Definition Header_Set (key value : string) (req : Request) : Request :=
  mkRequest (Method req) (URL req) (Header req ++ [(key, value)]) (RequestBody req).

(** [func (u *Uploader) Upload(filename string, r io.Reader) (UploadToken, error)]
    (uploader.go:34-56); [r] is given by the bytes it yields. *)
Definition Upload (filename : string) (r : string) : M (UploadToken * option error) :=
  match http_NewRequest_err env "POST"%string "https://photoslibrary.googleapis.com/v1/uploads"%string with
  | Some err => ret (""%string, Some err)
  | None =>
    let req := mkRequest "POST"%string "https://photoslibrary.googleapis.com/v1/uploads"%string [] r in
    let req := Header_Set "content-type"%string "application/octet-stream"%string req in
    let req := Header_Set "x-goog-upload-file-name"%string filename req in
    let req := Header_Set "x-goog-upload-protocol"%string "raw"%string req in
    r <- do_client_Do req ;;
    let '(resp, err) := r in
    match err with
    | Some err => ret (""%string, Some err)
    | None =>
      let '(rawToken, err) := Body resp in
      match err with
      | Some err => ret (""%string, Some err)
      | None => ret (rawToken, None)
      end
    end
  end.

(** The loop of uploader.go:63-70. *)
Definition newMediaItems_of (tokens : list UploadToken) : list NewMediaItem :=
  fold_left
    (fun newMediaItems token =>
       newMediaItems ++ [mkNewMediaItem (mkSimpleMediaItem token)])
    tokens [].

(** [func (u *Uploader) CreateMediaItems(tokens []UploadToken) error]
    (uploader.go:58-82). *)
Definition CreateMediaItems (tokens : list UploadToken) : M (option error) :=
  if MaxTokens <? length tokens then
    ret (Some (TooManyTokens (length tokens) MaxTokens))
  else
    let req := mkBatchCreateMediaItemsRequest (newMediaItems_of tokens) in
    err <- do_BatchCreate req ;;
    match err with
    | Some err => ret (Some err)
    | None => ret None
    end.

(** *** The functions and goroutine bodies of [run] *)

(** [func uploadFile(u *gphotos.Uploader, filename string) (gphotos.UploadToken, error)]
    (lines 223-231). *)
Definition uploadFile (filename : string) : M (UploadToken * option error) :=
  r <- do_os_Open filename ;;
  let '(f, err) := r in
  match err with
  | Some err => ret (""%string, Some err)
  | None => Upload (filepath_Base env filename) f
  end.

(** Lines 104-112: the retried upload of one file.  The closure given
    to [retry.Do] assigns [uploadToken] and returns the error. *)
Definition upload_with_retry (filename : string) : M (UploadToken * option error) :=
  r <- retry_Do (uploadFile filename) ;;
  let '(uploadToken, err) := r in
  match err with
  | Some err => ret (uploadToken, Some (ErrorUploading filename err))
  | None => ret (uploadToken, None)
  end.

(** The closure of lines 142-144; it captures nothing that it assigns. *)
Definition commit_attempt (batch : list UploadToken) : M (unit * option error) :=
  err <- CreateMediaItems batch ;; ret (tt, err).

(** Lines 142-147: the retried commit of one batch. *)
Definition commit_with_retry (batch : list UploadToken) : M (option error) :=
  r <- retry_Do (commit_attempt batch) ;;
  let err := snd r in
  _ <- observe (Commit batch err) ;;
  ret err.

(** The closure [uploadBatch] (lines 137-155). *)
Definition uploadBatch (batch : list UploadToken) : M (option error) :=
  if length batch =? 0 then ret None
  else
    err <- commit_with_retry batch ;;
    match err with
    | Some err => ret (Some err)
    | None => select_messages (UploadedBatch (length batch))
    end.

(** The batcher goroutine (lines 157-169) run over the tokens that
    [uploadTokens] delivers before it is closed. *)
Fixpoint batcher_range (currentBatch uploadTokens : list UploadToken) : M (option error) :=
  match uploadTokens with
  | uploadToken :: uploadTokens =>
    _ <- observe (Received uploadToken) ;;
    let currentBatch := currentBatch ++ [uploadToken] in
    if MaxTokens <=? length currentBatch then
      err <- uploadBatch currentBatch ;;
      match err with
      | Some err => ret (Some err)
      | None => batcher_range [] uploadTokens
      end
    else batcher_range currentBatch uploadTokens
  | [] =>
    _ <- observe StreamClosed ;;
    (* Upload final batch, if any *)
    uploadBatch currentBatch
  end.

Definition batcher (uploadTokens : list UploadToken) : M (option error) :=
  batcher_range [] uploadTokens.

End Program.

Lemma retry_loop_unfold {A} (n : nat) (op : M (A * option error)) (w : World) :
  retry_loop n op w =
  match op w with
  | ((a, None), w') => ((a, None), w')
  | ((a, Some e), w') =>
    match n with
    | 0 => ((a, Some e), w')
    | S n' => retry_loop n' op w'
    end
  end.
Proof. destruct n; simpl; destruct (op w) as [[a [e|]] w']; done. Qed.

(** ** The uploader (uploader.go) *)

(** The request that [Upload] hands to the HTTP client. *)
Definition upload_request (filename r : string) : Request :=
  mkRequest "POST" "https://photoslibrary.googleapis.com/v1/uploads"
            [("content-type", "application/octet-stream");
             ("x-goog-upload-file-name", filename);
             ("x-goog-upload-protocol", "raw")]%string
            r.

(** The upload token carried by a media item of a request. *)
Definition token_of (item : NewMediaItem) : UploadToken :=
  UploadToken_ (SimpleMediaItem_ item).

Lemma newMediaItems_of_map (tokens : list UploadToken) :
  newMediaItems_of tokens = map (fun token => mkNewMediaItem (mkSimpleMediaItem token)) tokens.
Proof.
  unfold newMediaItems_of.
  assert (G : forall acc,
             fold_left (fun newMediaItems token =>
                          newMediaItems ++ [mkNewMediaItem (mkSimpleMediaItem token)])
                       tokens acc
             = acc ++ map (fun token => mkNewMediaItem (mkSimpleMediaItem token)) tokens).
  { induction tokens as [|t ts IH]; intros acc; simpl.
    - by rewrite app_nil_r.
    - rewrite IH. by rewrite <- app_assoc. }
  apply G.
Qed.

Lemma token_of_newMediaItems (tokens : list UploadToken) :
  map token_of (newMediaItems_of tokens) = tokens.
Proof.
  rewrite newMediaItems_of_map, map_map. simpl.
  induction tokens as [|t ts IH]; simpl; [done | by rewrite IH].
Qed.

Lemma Upload_run env (filename r : string) (w : World) :
  Upload env filename r w =
  match http_NewRequest_err env "POST" "https://photoslibrary.googleapis.com/v1/uploads" with
  | Some err => (("", Some err), w)%string
  | None =>
    let w' := mkWorld (opened w)
                      (posted w ++ [(upload_request filename r,
                                     client_Do env (length (posted w))
                                               (upload_request filename r))])
                      (created w)
                      (batcher_trace w) (emitted w) (sent w) (selects w) in
    match client_Do env (length (posted w)) (upload_request filename r) with
    | (_, Some err) => (("", Some err), w')%string
    | (resp, None) =>
      match Body resp with
      | (_, Some err) => (("", Some err), w')%string
      | (rawToken, None) => ((rawToken, None), w')
      end
    end
  end.
Proof.
  unfold Upload. destruct (http_NewRequest_err _ _ _); [done|].
  unfold bind, do_client_Do, Header_Set, upload_request; simpl.
  destruct (client_Do _ _ _) as [resp [err|]]; [done|].
  destruct (Body resp) as [rawToken [err|]]; done.
Qed.

(** C10. Whenever [http.NewRequest], [u.client.Do] and [ioutil.ReadAll]
    all succeed, [Upload] returns the raw response body as the token with
    a nil error, whatever the status code of the response is; it has made
    exactly one HTTP call. *)
Theorem Upload_ignores_status_code env (filename r : string) (w : World)
        (status : Z) (rawToken : string) :
  http_NewRequest_err env "POST" "https://photoslibrary.googleapis.com/v1/uploads" = None ->
  client_Do env (length (posted w)) (upload_request filename r)
    = (mkResponse status (rawToken, None), None) ->
  fst (Upload env filename r w) = (rawToken, None)
  /\ posted (snd (Upload env filename r w))
     = posted w ++ [(upload_request filename r,
                     (mkResponse status (rawToken, None), None))].
Proof.
  intros Hnew Hdo. rewrite Upload_run, Hnew. simpl. rewrite Hdo. simpl. done.
Qed.

(** An environment in which the upload endpoint answers 500 with a body. *)
Definition env_status_500 : Env :=
  mkEnv (fun _ _ => ("bytes", None)) (fun p => p) (fun _ _ => None)
        (fun _ _ => (mkResponse 500 ("Internal Server Error", None), None))
        (fun _ _ => None) 0 (fun _ => CaseSend).

Lemma Upload_ignores_status_code_witness :
  fst (Upload env_status_500 "a.jpg" "bytes" empty_world) = ("Internal Server Error"%string, None)
  /\ posted (snd (Upload env_status_500 "a.jpg" "bytes" empty_world))
     = posted empty_world
              ++ [(upload_request "a.jpg" "bytes",
                   (mkResponse 500 ("Internal Server Error", None), None))].
Proof.
  apply (Upload_ignores_status_code env_status_500 "a.jpg" "bytes" empty_world 500
           "Internal Server Error"); reflexivity.
Defined.

Lemma CreateMediaItems_run env MaxTokens (tokens : list UploadToken) (w : World) :
  CreateMediaItems env MaxTokens tokens w =
  if MaxTokens <? length tokens then
    (Some (TooManyTokens (length tokens) MaxTokens), w)
  else
    let req := mkBatchCreateMediaItemsRequest (newMediaItems_of tokens) in
    let err := BatchCreate_Do env (length (created w)) req in
    (err, mkWorld (opened w) (posted w) (created w ++ [(req, err)])
                  (batcher_trace w) (emitted w) (sent w) (selects w)).
Proof.
  unfold CreateMediaItems. destruct (MaxTokens <? length tokens); [done|].
  unfold bind, do_BatchCreate; simpl.
  by destruct (BatchCreate_Do _ _ _).
Qed.

(** C4. With more than 50 tokens [CreateMediaItems] returns an error and
    leaves the world as it was (no remote call); with at most 50 it makes
    exactly one [BatchCreate] call, whose request holds one media item per
    token, in the order of the tokens, and returns that call's answer. *)
Theorem CreateMediaItems_limit env (tokens : list UploadToken) (w : World) :
  (MaxUploadTokensPerCreateMediaItemsCall < length tokens ->
   exists err,
     CreateMediaItems env MaxUploadTokensPerCreateMediaItemsCall tokens w = (Some err, w))
  /\ (length tokens <= MaxUploadTokensPerCreateMediaItemsCall ->
      exists req err w',
        CreateMediaItems env MaxUploadTokensPerCreateMediaItemsCall tokens w = (err, w')
        /\ created w' = created w ++ [(req, err)]
        /\ err = BatchCreate_Do env (length (created w)) req
        /\ length (NewMediaItems req) = length tokens
        /\ map token_of (NewMediaItems req) = tokens
        /\ opened w' = opened w /\ posted w' = posted w).
Proof.
  rewrite CreateMediaItems_run. split; intros H.
  - apply Nat.ltb_lt in H. rewrite H. eauto.
  - apply Nat.ltb_ge in H. rewrite H.
    eexists _, _, _. split; [reflexivity|].
    cbn [created opened posted NewMediaItems].
    repeat split; try reflexivity.
    + cbn [NewMediaItems]. by rewrite newMediaItems_of_map, length_map.
    + cbn [NewMediaItems]. apply token_of_newMediaItems.
Qed.

(** An environment in which every call succeeds. *)
Definition env_ok : Env :=
  mkEnv (fun _ _ => ("bytes", None)) (fun p => p) (fun _ _ => None)
        (fun _ _ => (mkResponse 200 ("token", None), None))
        (fun _ _ => None) 0 (fun _ => CaseSend).

Lemma CreateMediaItems_limit_witness :
  (exists err,
     CreateMediaItems env_ok MaxUploadTokensPerCreateMediaItemsCall (repeat "t"%string 51) empty_world
     = (Some err, empty_world))
  /\ (exists req err w',
        CreateMediaItems env_ok MaxUploadTokensPerCreateMediaItemsCall ["a"; "b"]%string empty_world
        = (err, w')
        /\ created w' = created empty_world ++ [(req, err)]
        /\ err = BatchCreate_Do env_ok (length (created empty_world)) req
        /\ length (NewMediaItems req) = length ["a"; "b"]%string
        /\ map token_of (NewMediaItems req) = ["a"; "b"]%string
        /\ opened w' = opened empty_world /\ posted w' = posted empty_world).
Proof.
  split.
  - apply (proj1 (CreateMediaItems_limit env_ok (repeat "t"%string 51) empty_world)).
    vm_compute. lia.
  - apply (proj2 (CreateMediaItems_limit env_ok ["a"; "b"]%string empty_world)).
    vm_compute. lia.
Defined.

(** ** The Retry Wrapper *)

(** [Retried op k w r w']: from [w], [op] was invoked [k] times in a row;
    each of the first [k - 1] invocations failed, and the last one
    returned [r] and left the world [w']. *)
Inductive Retried {A} (op : M (A * option error)) :
  nat -> World -> A * option error -> World -> Prop :=
| Retried_last w r w' :
    op w = (r, w') -> Retried op 1 w r w'
| Retried_again w a e w1 k r w' :
    op w = ((a, Some e), w1) -> Retried op k w1 r w' -> Retried op (S k) w r w'.

Lemma retry_loop_Retried {A} (op : M (A * option error)) (n : nat) (w : World) :
  exists k,
    1 <= k <= S n
    /\ Retried op k w (fst (retry_loop n op w)) (snd (retry_loop n op w))
    /\ (forall e, snd (fst (retry_loop n op w)) = Some e -> k = S n).
Proof.
  revert w. induction n as [|n IH]; intros w; rewrite retry_loop_unfold;
    destruct (op w) as [[a [e|]] w1] eqn:Hop; simpl.
  - exists 1. split; [lia|]. split; [by apply Retried_last | done].
  - exists 1. split; [lia|]. split; [by apply Retried_last | done].
  - destruct (IH w1) as (k & Hk & HR & Hex).
    exists (S k). split; [lia|]. split; [by eapply Retried_again|].
    intros e' He'. by rewrite (Hex e' He').
  - exists 1. split; [lia|]. split; [by apply Retried_last | done].
Qed.

(** Whatever each invocation of [op] preserves, the retried [op]
    preserves. *)
Lemma Retried_preserves {A} (op : M (A * option error)) (R : World -> World -> Prop) :
  (forall w r w', op w = (r, w') -> R w w') ->
  (forall w1 w2 w3, R w1 w2 -> R w2 w3 -> R w1 w3) ->
  forall k w r w', Retried op k w r w' -> R w w'.
Proof.
  intros Hop Htrans k w r w' H. induction H; eauto.
Qed.

(** C7. [retry.Do] invokes the operation at least once and at most
    [retries + 1] times, invoking it again after each failure; its result
    is the result of the last invocation, and it is an error only when all
    [retries + 1] attempts have failed.  The upload of a file (lines
    105-109) and the commit of a batch (lines 142-144) both go through
    this one wrapper with the same policy. *)
Theorem retry_Do_bounded_and_uniform env MaxTokens {A} (op : M (A * option error))
        (w : World) (filename : string) (batch : list UploadToken) :
  (exists k,
      1 <= k <= S (retries env)
      /\ Retried op k w (fst (retry_Do env op w)) (snd (retry_Do env op w))
      /\ (forall e, snd (fst (retry_Do env op w)) = Some e -> k = S (retries env)))
  /\ upload_with_retry env filename w
     = (let '((uploadToken, err), w') := retry_Do env (uploadFile env filename) w in
        match err with
        | Some err => ((uploadToken, Some (ErrorUploading filename err)), w')
        | None => ((uploadToken, None), w')
        end)
  /\ commit_with_retry env MaxTokens batch w
     = (let '((_, err), w') :=
            retry_Do env (commit_attempt env MaxTokens batch) w in
        (err, snd (observe (Commit batch err) w'))).
Proof.
  split; [apply retry_loop_Retried|]. split.
  - unfold upload_with_retry, bind.
    destruct (retry_Do env (uploadFile env filename) w) as [[uploadToken [err|]] w']; done.
  - unfold commit_with_retry, bind.
    destruct (retry_Do env _ w) as [[u err] w']; done.
Qed.

(** ** The batcher *)

(** The batches handed to the retried commit, in flush order. *)
Definition commit_of (ev : BatcherEvent) : option (list UploadToken) :=
  match ev with
  | Commit batch _ => Some batch
  | _ => None
  end.

Definition commits (w : World) : list (list UploadToken) :=
  omap commit_of (batcher_trace w).

(** The batches that the remote service accepted: the token lists of the
    [BatchCreate] calls that returned no error. *)
Definition accepted_of (call : BatchCreateMediaItemsRequest * option error) :
  option (list UploadToken) :=
  match snd call with
  | None => Some (map token_of (NewMediaItems (fst call)))
  | Some _ => None
  end.

Definition accepted (w : World) : list (list UploadToken) :=
  omap accepted_of (created w).

(** Every batch but the last is full, and the last one is not empty and
    not over-full. *)
Fixpoint well_batched (max : nat) (batches : list (list UploadToken)) : Prop :=
  match batches with
  | [] => True
  | batch :: rest =>
    match rest with
    | [] => 0 < length batch <= max
    | _ :: _ => length batch = max /\ well_batched max rest
    end
  end.

Lemma well_batched_cons max batch rest :
  length batch = max -> 0 < max -> well_batched max rest ->
  well_batched max (batch :: rest).
Proof. intros Hb Hmax Hrest. destruct rest; simpl; [lia | done]. Qed.

Lemma well_batched_bound max batches :
  well_batched max batches -> Forall (fun batch => 0 < length batch <= max) batches.
Proof.
  induction batches as [|batch rest IH]; intros H; [constructor|].
  destruct rest as [|batch' rest].
  - constructor; [exact H | constructor].
  - destruct H as [Hb Hrest]. specialize (IH Hrest).
    constructor; [|exact IH].
    inversion IH; subst. lia.
Qed.

Lemma well_batched_full max (batches : list (list UploadToken)) i batch :
  well_batched max batches ->
  batches !! i = Some batch -> S i < length batches -> length batch = max.
Proof.
  revert i. induction batches as [|b rest IH]; intros i H Hi Hlt; [done|].
  destruct rest as [|b' rest]; [simpl in Hlt; lia|].
  destruct H as [Hb Hrest].
  destruct i as [|i]; simpl in Hi.
  - by inversion Hi; subst.
  - apply (IH i Hrest Hi). simpl in *. lia.
Qed.

Section Batcher.

Variable env : Env.
Variable MaxTokens : nat.

(** An attempt touches only the log of remote calls. *)
Definition remote_only (w w' : World) : Prop :=
  opened w' = opened w /\ posted w' = posted w
  /\ batcher_trace w' = batcher_trace w /\ emitted w' = emitted w
  /\ sent w' = sent w /\ selects w' = selects w.

Lemma commit_attempt_effect batch w u err w' :
  commit_attempt env MaxTokens batch w = ((u, err), w') ->
  remote_only w w'
  /\ accepted w' = accepted w ++ match err with None => [batch] | Some _ => [] end.
Proof.
  unfold commit_attempt, bind. rewrite CreateMediaItems_run.
  destruct (MaxTokens <? length batch).
  - intros [= <- <- <-]. split; [done|]. by rewrite app_nil_r.
  - cbn zeta. intros [= <- <- <-]. split; [done|].
    unfold accepted; simpl. rewrite omap_app. f_equal.
    unfold accepted_of; simpl.
    destruct (BatchCreate_Do _ _ _); [done|].
    simpl. by rewrite token_of_newMediaItems.
Qed.

Lemma Retried_commit_effect batch :
  forall k w r w', Retried (commit_attempt env MaxTokens batch) k w r w' ->
  remote_only w w'
  /\ accepted w' = accepted w ++ match snd r with None => [batch] | Some _ => [] end.
Proof.
  intros k w r w' H.
  induction H as [w r w' Hop | w u e w1 k r w' Hop HR IH].
  - destruct r as [u err]. by apply commit_attempt_effect in Hop.
  - destruct IH as [Hframe IH].
    apply commit_attempt_effect in Hop as [Hframe1 Hacc1].
    rewrite app_nil_r in Hacc1. split.
    + unfold remote_only in *. intuition congruence.
    + by rewrite IH, Hacc1.
Qed.

Lemma commit_with_retry_effect batch w err w' :
  commit_with_retry env MaxTokens batch w = (err, w') ->
  batcher_trace w' = batcher_trace w ++ [Commit batch err]
  /\ opened w' = opened w /\ posted w' = posted w /\ emitted w' = emitted w
  /\ sent w' = sent w /\ selects w' = selects w
  /\ accepted w' = accepted w ++ match err with None => [batch] | Some _ => [] end.
Proof.
  unfold commit_with_retry, bind.
  destruct (retry_loop_Retried (commit_attempt env MaxTokens batch) (retries env) w)
    as (k & _ & HR & _).
  unfold retry_Do.
  destruct (retry_loop (retries env) (commit_attempt env MaxTokens batch) w) as [[u e] w1].
  simpl in HR. apply Retried_commit_effect in HR as [(?&?&?&?&?&?) Hacc].
  simpl in Hacc. unfold observe, ret. intros [= <- <-]. simpl.
  unfold accepted in *. simpl. rewrite Hacc.
  repeat split; congruence.
Qed.

Lemma select_messages_effect msg w err w' :
  select_messages env msg w = (err, w') ->
  batcher_trace w' = batcher_trace w /\ created w' = created w
  /\ opened w' = opened w /\ posted w' = posted w /\ emitted w' = emitted w
  /\ selects w' = S (selects w)
  /\ (err = None /\ selected env (selects w) = CaseSend /\ sent w' = sent w ++ [msg]
      \/ err = Some Canceled /\ selected env (selects w) = CaseDone /\ sent w' = sent w).
Proof.
  unfold select_messages, bind, next_selected.
  destruct (selected env (selects w)); intros [= <- <-]; simpl; tauto.
Qed.

(** What a flush does: nothing for an empty batch; otherwise one retried
    commit, followed on success by the select on [messages]. *)
Lemma uploadBatch_effect batch w err w' :
  uploadBatch env MaxTokens batch w = (err, w') ->
  opened w' = opened w /\ posted w' = posted w /\ emitted w' = emitted w
  /\ (batch = [] /\ err = None /\ w' = w
      \/ batch <> []
         /\ exists c,
             batcher_trace w' = batcher_trace w ++ [Commit batch c]
             /\ accepted w' = accepted w ++ match c with None => [batch] | Some _ => [] end
             /\ (err = None -> c = None /\ sent w' = sent w ++ [UploadedBatch (length batch)])
             /\ (c <> None -> err = c /\ sent w' = sent w)).
Proof.
  unfold uploadBatch. destruct batch as [|t batch]; simpl.
  { intros [= <- <-]. tauto. }
  unfold bind.
  destruct (commit_with_retry env MaxTokens (t :: batch) w) as [c w1] eqn:Hc.
  apply commit_with_retry_effect in Hc as (Htr & Ho & Hp & He & Hs & Hsel & Hacc).
  destruct c as [e|].
  - intros [= <- <-]. repeat split; try done. right. split; [done|].
    exists (Some e). repeat split; try done.
  - intros Hsel'. apply select_messages_effect in Hsel'
      as (Htr' & Hcr' & Ho' & Hp' & He' & _ & Hcase).
    repeat split; try congruence. right. split; [done|].
    exists None. unfold accepted in *. rewrite Hcr'.
    split; [congruence|]. split; [done|]. split; [|done].
    intros ->. split; [done|].
    destruct Hcase as [(_ & _ & ->) | (? & _)]; [|done].
    by rewrite Hs.
Qed.

End Batcher.

(** The world after the batcher has observed [evs]. *)
Definition observed (evs : list BatcherEvent) (w : World) : World :=
  mkWorld (opened w) (posted w) (created w)
          (batcher_trace w ++ evs) (emitted w) (sent w) (selects w).

Lemma observe_observed ev w : observe ev w = (tt, observed [ev] w).
Proof. reflexivity. Qed.

Lemma observed_nil w : observed [] w = w.
Proof. destruct w; unfold observed; simpl. by rewrite app_nil_r. Qed.

Lemma observed_app evs1 evs2 w :
  observed evs2 (observed evs1 w) = observed (evs1 ++ evs2) w.
Proof. unfold observed; simpl. by rewrite app_assoc. Qed.

Lemma commits_observed evs w :
  commits (observed evs w) = commits w ++ omap commit_of evs.
Proof. unfold commits, observed; simpl. apply omap_app. Qed.

Lemma accepted_observed evs w : accepted (observed evs w) = accepted w.
Proof. reflexivity. Qed.

Lemma omap_commit_of_Received (tokens : list UploadToken) :
  omap commit_of (map Received tokens) = [].
Proof. induction tokens as [|t ts IH]; [done | exact IH]. Qed.

Section BatcherLoop.

Variable env : Env.
Variable MaxTokens : nat.

Lemma batcher_range_cons currentBatch uploadToken uploadTokens w :
  batcher_range env MaxTokens currentBatch (uploadToken :: uploadTokens) w =
  if MaxTokens <=? length (currentBatch ++ [uploadToken]) then
    match uploadBatch env MaxTokens (currentBatch ++ [uploadToken])
                      (observed [Received uploadToken] w) with
    | (Some err, w') => (Some err, w')
    | (None, w') => batcher_range env MaxTokens [] uploadTokens w'
    end
  else
    batcher_range env MaxTokens (currentBatch ++ [uploadToken]) uploadTokens
                  (observed [Received uploadToken] w).
Proof.
  simpl. unfold bind at 1. rewrite observe_observed.
  destruct (MaxTokens <=? length (currentBatch ++ [uploadToken])); [|done].
  unfold bind.
  destruct (uploadBatch _ _ _ _) as [[err|] w']; done.
Qed.

Lemma batcher_range_nil currentBatch w :
  batcher_range env MaxTokens currentBatch [] w =
  uploadBatch env MaxTokens currentBatch (observed [StreamClosed] w).
Proof. reflexivity. Qed.

(** What a flush adds to the two commit logs. *)
Lemma uploadBatch_logs batch w err w' :
  uploadBatch env MaxTokens batch w = (err, w') ->
  exists c : option error,
    commits w' = commits w ++ match batch with [] => [] | _ => [batch] end
    /\ accepted w' = accepted w ++ match batch, c with
                                   | _ :: _, None => [batch]
                                   | _, _ => []
                                   end
    /\ (err = None -> c = None).
Proof.
  intros H. apply uploadBatch_effect in H as (_ & _ & _ & [(-> & -> & ->) | (Hne & c & Htr & Hacc & Hok & _)]).
  - exists None. by rewrite !app_nil_r.
  - exists c. destruct batch as [|t batch]; [done|].
    unfold commits. rewrite Htr, omap_app. simpl.
    repeat split; [done|]. intros Herr. by apply Hok.
Qed.

(** C1, for the loop started with any batch in progress. *)
Lemma batcher_range_commits_all uploadTokens :
  forall currentBatch w w',
    batcher_range env MaxTokens currentBatch uploadTokens w = (None, w') ->
    exists batches,
      commits w' = commits w ++ batches
      /\ accepted w' = accepted w ++ batches
      /\ concat batches = currentBatch ++ uploadTokens.
Proof.
  induction uploadTokens as [|t ts IH]; intros cur w w'.
  - rewrite batcher_range_nil. intros H.
    apply uploadBatch_logs in H as (c & Hc & Ha & Hok).
    rewrite (Hok eq_refl) in Ha. rewrite commits_observed in Hc.
    rewrite accepted_observed in Ha. simpl in Hc. rewrite app_nil_r in Hc.
    destruct cur as [|x cur].
    + exists []. by rewrite Hc, Ha.
    + exists [x :: cur]. rewrite Hc, Ha. simpl. by rewrite !app_nil_r.
  - rewrite batcher_range_cons.
    destruct (MaxTokens <=? length (cur ++ [t])).
    + destruct (uploadBatch _ _ _ _) as [[err|] w1] eqn:Hup; [done|].
      intros H. apply IH in H as (batches & Hc & Ha & Hcat).
      apply uploadBatch_logs in Hup as (c & Hc1 & Ha1 & Hok).
      rewrite (Hok eq_refl) in Ha1. rewrite commits_observed in Hc1.
      rewrite accepted_observed in Ha1. simpl in Hc1. rewrite app_nil_r in Hc1.
      destruct (cur ++ [t]) as [|x l] eqn:E; [by destruct cur|].
      exists ((x :: l) :: batches). rewrite Hc, Ha, Hc1, Ha1, <- !app_assoc.
      repeat split. change (concat ((x :: l) :: batches)) with ((x :: l) ++ concat batches).
      rewrite Hcat, <- E. simpl. by rewrite <- app_assoc.
    + intros H. apply IH in H as (batches & Hc & Ha & Hcat).
      exists batches. rewrite Hc, Ha, commits_observed, accepted_observed.
      simpl. rewrite app_nil_r. repeat split. by rewrite Hcat, <- app_assoc.
Qed.

(** C2, for the loop started with a batch in progress that is not full. *)
Lemma batcher_range_well_batched uploadTokens :
  forall currentBatch w err w',
    length currentBatch < MaxTokens ->
    batcher_range env MaxTokens currentBatch uploadTokens w = (err, w') ->
    exists batches, commits w' = commits w ++ batches /\ well_batched MaxTokens batches.
Proof.
  induction uploadTokens as [|t ts IH]; intros cur w err w' Hcur.
  - rewrite batcher_range_nil. intros H.
    apply uploadBatch_logs in H as (c & Hc & _).
    rewrite commits_observed in Hc. simpl in Hc. rewrite app_nil_r in Hc.
    eexists. split; [exact Hc|].
    destruct cur; simpl in *; [done | lia].
  - rewrite batcher_range_cons.
    destruct (MaxTokens <=? length (cur ++ [t])) eqn:Hfull.
    + apply Nat.leb_le in Hfull.
      assert (Hlen : length (cur ++ [t]) = MaxTokens).
      { rewrite length_app in *. simpl in *. lia. }
      destruct (uploadBatch _ _ _ _) as [[e|] w1] eqn:Hup;
        apply uploadBatch_logs in Hup as (c & Hc1 & _);
        rewrite commits_observed in Hc1; simpl in Hc1; rewrite app_nil_r in Hc1;
        (destruct (cur ++ [t]) as [|x l] eqn:E; [by destruct cur|]).
      * intros [= <- <-]. eexists. split; [exact Hc1|]. simpl in *. lia.
      * intros H. apply IH in H as (batches & Hc & Hwb); [|simpl in *; lia].
        exists ((x :: l) :: batches). split.
        { rewrite Hc, Hc1. by rewrite <- app_assoc. }
        apply well_batched_cons; [done | simpl in *; lia | done].
    + apply Nat.leb_gt in Hfull. intros H.
      apply IH in H as (batches & Hc & Hwb); [|done].
      exists batches. split; [|done].
      rewrite Hc, commits_observed. simpl. by rewrite app_nil_r.
Qed.

(** Fewer tokens than a full batch: the loop only collects, and the one
    flush is the final one, after the stream is seen closed. *)
Lemma batcher_range_short uploadTokens :
  forall currentBatch w,
    length currentBatch + length uploadTokens < MaxTokens ->
    batcher_range env MaxTokens currentBatch uploadTokens w =
    uploadBatch env MaxTokens (currentBatch ++ uploadTokens)
                (observed (map Received uploadTokens ++ [StreamClosed]) w).
Proof.
  induction uploadTokens as [|t ts IH]; intros cur w Hlen.
  - rewrite batcher_range_nil. by rewrite app_nil_r.
  - rewrite batcher_range_cons.
    assert (Hfull : (MaxTokens <=? length (cur ++ [t])) = false).
    { apply Nat.leb_gt. rewrite length_app. simpl in *. lia. }
    rewrite Hfull, IH.
    + rewrite observed_app. simpl. by rewrite <- app_assoc.
    + rewrite length_app. simpl in *. lia.
Qed.

(** Exactly a full batch: the flush happens inside the loop, on receipt
    of the last token; the stream is seen closed only afterwards, and
    the final flush finds an empty batch. *)
Lemma batcher_range_exact uploadTokens :
  forall currentBatch w,
    uploadTokens <> [] ->
    length currentBatch + length uploadTokens = MaxTokens ->
    batcher_range env MaxTokens currentBatch uploadTokens w =
    match uploadBatch env MaxTokens (currentBatch ++ uploadTokens)
                      (observed (map Received uploadTokens) w) with
    | (Some err, w') => (Some err, w')
    | (None, w') => (None, observed [StreamClosed] w')
    end.
Proof.
  induction uploadTokens as [|t ts IH]; intros cur w Hne Hlen; [done|].
  rewrite batcher_range_cons.
  destruct ts as [|t' ts].
  - assert (Hfull : (MaxTokens <=? length (cur ++ [t])) = true).
    { apply Nat.leb_le. rewrite length_app. simpl in *. lia. }
    rewrite Hfull. simpl map.
    destruct (uploadBatch _ _ _ _) as [[e|] w1]; [done|].
    by rewrite batcher_range_nil.
  - assert (Hfull : (MaxTokens <=? length (cur ++ [t])) = false).
    { apply Nat.leb_gt. rewrite length_app. simpl in *. lia. }
    rewrite Hfull, IH; [|done|rewrite length_app; simpl in *; lia].
    rewrite observed_app. simpl. by rewrite <- app_assoc.
Qed.

End BatcherLoop.

(** ** The batcher: the properties of a run over a finite token stream *)

(** C1. When the batcher returns nil, the batches it handed to the retried
    commit, concatenated in flush order, are exactly the tokens it
    received, in the order received; so are the batches that the remote
    service accepted.  Hence no token is lost and none is committed twice. *)
Theorem batcher_commits_each_token_once env MaxTokens
        (uploadTokens : list UploadToken) (w w' : World) :
  batcher env MaxTokens uploadTokens w = (None, w') ->
  exists batches,
    commits w' = commits w ++ batches
    /\ accepted w' = accepted w ++ batches
    /\ concat batches = uploadTokens
    /\ Permutation (concat batches) uploadTokens.
Proof.
  intros H. apply batcher_range_commits_all in H as (batches & Hc & Ha & Hcat).
  exists batches. simpl in Hcat. rewrite Hcat. repeat split; try done.
Qed.

Lemma batcher_commits_each_token_once_witness :
  exists batches,
    commits (snd (batcher env_ok MaxUploadTokensPerCreateMediaItemsCall
                          ["t1"; "t2"; "t3"]%string empty_world))
    = commits empty_world ++ batches
    /\ accepted (snd (batcher env_ok MaxUploadTokensPerCreateMediaItemsCall
                              ["t1"; "t2"; "t3"]%string empty_world))
       = accepted empty_world ++ batches
    /\ concat batches = ["t1"; "t2"; "t3"]%string
    /\ Permutation (concat batches) ["t1"; "t2"; "t3"]%string.
Proof.
  apply (batcher_commits_each_token_once env_ok MaxUploadTokensPerCreateMediaItemsCall
           ["t1"; "t2"; "t3"]%string empty_world).
  vm_compute. reflexivity.
Defined.

(** With a batch size of 2, a list of batches that is well batched and
    holds five tokens is made of batches of sizes 2, 2 and 1. *)
Lemma well_batched_2_of_5 (batches : list (list UploadToken)) :
  well_batched 2 batches -> length (concat batches) = 5 ->
  map length batches = [2; 2; 1].
Proof.
  intros Hwb Hlen.
  destruct batches as [|b1 [|b2 [|b3 [|b4 rest]]]]; simpl in *;
    rewrite ?length_app, ?app_nil_r in Hlen; simpl in *; try lia.
  destruct Hwb as (H1 & H2 & H3). repeat f_equal; lia.
Qed.

(** The number of batches of a well batched list: the number of tokens
    divided by the batch size, rounded up. *)
Lemma well_batched_count max (batches : list (list UploadToken)) :
  0 < max -> well_batched max batches ->
  length batches = (length (concat batches) + max - 1) / max.
Proof.
  intros Hmax. induction batches as [|batch rest IH]; intros Hwb.
  - simpl. symmetry. apply Nat.div_small. lia.
  - destruct rest as [|batch' rest].
    + simpl in *. rewrite app_nil_r.
      apply (Nat.div_unique _ _ 1 (length batch - 1)); lia.
    + destruct Hwb as [Hb Hrest]. specialize (IH Hrest).
      change (concat (batch :: batch' :: rest))
        with (batch ++ concat (batch' :: rest)).
      rewrite length_app, Hb.
      change (length (batch :: batch' :: rest)) with (1 + length (batch' :: rest)).
      rewrite IH.
      replace (max + length (concat (batch' :: rest)) + max - 1)
        with (1 * max + (length (concat (batch' :: rest)) + max - 1)) by lia.
      rewrite Nat.div_add_l by lia. done.
Qed.

(** C2. Whatever the batcher receives, and however the run ends, every
    batch handed to the commit holds at least one and at most [MaxTokens]
    tokens, and every batch but the last holds exactly [MaxTokens].  When
    the run returns nil the batches are the received tokens cut in flush
    order, every one of them was accepted by the remote service, and the
    number of commit calls is the number of tokens divided by [MaxTokens],
    rounded up; so with a batch size of 2 and five tokens exactly three
    commit calls occur, of sizes 2, 2 and 1 in flush order. *)
Theorem batches_full_except_last env MaxTokens
        (uploadTokens : list UploadToken) (w : World) (err : option error) (w' : World) :
  0 < MaxTokens ->
  batcher env MaxTokens uploadTokens w = (err, w') ->
  exists batches,
    commits w' = commits w ++ batches
    /\ Forall (fun batch => 0 < length batch <= MaxTokens) batches
    /\ (forall i batch,
           batches !! i = Some batch -> S i < length batches ->
           length batch = MaxTokens)
    /\ (err = None ->
        concat batches = uploadTokens
        /\ accepted w' = accepted w ++ batches
        /\ length batches = (length uploadTokens + MaxTokens - 1) / MaxTokens
        /\ (MaxTokens = 2 -> length uploadTokens = 5 ->
            length batches = 3 /\ map length batches = [2; 2; 1])).
Proof.
  intros Hmax H.
  pose proof H as H'.
  apply batcher_range_well_batched in H as (batches & Hc & Hwb); [|simpl; lia].
  exists batches. split; [done|]. split; [|split].
  - by apply well_batched_bound.
  - intros i batch. by apply well_batched_full.
  - intros ->.
    apply batcher_range_commits_all in H' as (batches' & Hc' & Ha & Hcat).
    rewrite Hc in Hc'. apply app_inv_head in Hc' as <-. simpl in Hcat.
    split; [done|]. split; [done|]. split.
    + rewrite <- Hcat. by apply well_batched_count.
    + intros -> Hlen.
      assert (Hsizes : map length batches = [2; 2; 1]).
      { apply well_batched_2_of_5; [done | by rewrite Hcat]. }
      split; [|done]. by rewrite <- (length_map length), Hsizes.
Qed.

(** Five tokens and a batch size of 2, with surroundings in which every
    call succeeds: the run returns nil, and three batches are committed
    and accepted. *)
Lemma batches_full_except_last_witness :
  fst (batcher env_ok 2 ["t1"; "t2"; "t3"; "t4"; "t5"]%string empty_world) = None
  /\ exists batches,
      commits (snd (batcher env_ok 2 ["t1"; "t2"; "t3"; "t4"; "t5"]%string empty_world))
      = commits empty_world ++ batches
      /\ Forall (fun batch => 0 < length batch <= 2) batches
      /\ (forall i batch,
             batches !! i = Some batch -> S i < length batches -> length batch = 2)
      /\ concat batches = ["t1"; "t2"; "t3"; "t4"; "t5"]%string
      /\ accepted (snd (batcher env_ok 2 ["t1"; "t2"; "t3"; "t4"; "t5"]%string empty_world))
         = accepted empty_world ++ batches
      /\ length batches = (length ["t1"; "t2"; "t3"; "t4"; "t5"]%string + 2 - 1) / 2
      /\ length batches = 3
      /\ map length batches = [2; 2; 1].
Proof.
  split; [vm_compute; reflexivity|].
  destruct (batches_full_except_last
              env_ok 2 ["t1"; "t2"; "t3"; "t4"; "t5"]%string empty_world None
              (snd (batcher env_ok 2 ["t1"; "t2"; "t3"; "t4"; "t5"]%string empty_world)))
    as (batches & Hc & Hbound & Hfull & Hnil).
  - lia.
  - vm_compute. reflexivity.
  - destruct (Hnil eq_refl) as (Hcat & Ha & Hcount & Hfive).
    destruct (Hfive eq_refl eq_refl) as (Hthree & Hsizes).
    exists batches. repeat split; assumption.
Defined.

(** The run of the witness, evaluated: three commits, in flush order. *)
Example batcher_2_of_5 :
  commits (snd (batcher env_ok 2 ["t1"; "t2"; "t3"; "t4"; "t5"]%string empty_world))
  = [["t1"; "t2"]; ["t3"; "t4"]; ["t5"]]%string.
Proof. reflexivity. Qed.

(** C6 as the code has it.  With [n] tokens, [0 < n <= MaxTokens], there
    is exactly one commit call and it holds all [n] tokens.  For
    [n < MaxTokens] it is the final flush, made after the range loop has
    seen the stream closed; for [n = MaxTokens] it is made inside the loop
    as soon as the last token is appended, before the stream is seen
    closed, and the final flush then finds an empty batch. *)
Theorem single_batch_one_commit env MaxTokens
        (uploadTokens : list UploadToken) (w : World) (err : option error) (w' : World) :
  0 < length uploadTokens <= MaxTokens ->
  batcher env MaxTokens uploadTokens w = (err, w') ->
  exists c : option error,
    commits w' = commits w ++ [uploadTokens]
    /\ (err = None -> c = None /\ accepted w' = accepted w ++ [uploadTokens])
    /\ (length uploadTokens < MaxTokens ->
        batcher_trace w'
        = batcher_trace w ++ map Received uploadTokens
                        ++ [StreamClosed; Commit uploadTokens c])
    /\ (length uploadTokens = MaxTokens ->
        exists rest,
          batcher_trace w'
          = batcher_trace w ++ map Received uploadTokens
                          ++ Commit uploadTokens c :: rest
          /\ (rest = [] \/ rest = [StreamClosed])
          /\ (err = None -> rest = [StreamClosed])).
Proof.
  intros [Hpos Hle] H. unfold batcher in H.
  assert (Hne : uploadTokens <> []) by (destruct uploadTokens; simpl in *; [lia | done]).
  destruct (decide (length uploadTokens = MaxTokens)) as [Heq | Hneq].
  - rewrite batcher_range_exact in H by (simpl; done). simpl in H.
    destruct (uploadBatch _ _ _ _) as [e w1] eqn:Hup.
    pose proof (uploadBatch_logs _ _ _ _ _ _ Hup) as (c' & Hc & _).
    apply uploadBatch_effect in Hup
      as (_ & _ & _ & [(-> & _) | (_ & c & Htr & Hacc & Hok & Hfail)]); [done|].
    rewrite commits_observed, omap_commit_of_Received, app_nil_r in Hc.
    rewrite accepted_observed in Hacc. simpl in Htr.
    destruct uploadTokens as [|t ts]; [done|].
    exists c. destruct e as [e|].
    + injection H as <- <-. split; [done|]. split; [done|].
      split; [intros; simpl in *; lia|].
      intros _. exists []. rewrite Htr, <- app_assoc. split; [done|]. split; [by left | done].
    + injection H as <- <-. destruct (Hok eq_refl) as [-> Hsent].
      split; [by rewrite commits_observed, Hc, app_nil_r|].
      split; [by rewrite accepted_observed|]. split; [intros; simpl in *; lia|].
      intros _. exists [StreamClosed]. simpl. rewrite Htr, <- !app_assoc.
      split; [done|]. split; [by right | done].
  - rewrite batcher_range_short in H by (simpl; lia). simpl in H.
    pose proof (uploadBatch_logs _ _ _ _ _ _ H) as (c' & Hc & _).
    apply uploadBatch_effect in H
      as (_ & _ & _ & [(-> & _) | (_ & c & Htr & Hacc & Hok & Hfail)]); [done|].
    rewrite commits_observed, omap_app, omap_commit_of_Received in Hc.
    simpl in Hc. rewrite app_nil_r in Hc.
    rewrite accepted_observed in Hacc. simpl in Htr.
    destruct uploadTokens as [|t ts]; [done|].
    exists c. split; [done|]. split; [|split; [|intros; simpl in *; lia]].
    + intros He. destruct (Hok He) as [-> _]. done.
    + intros _. rewrite Htr, <- !app_assoc. done.
Qed.

Lemma single_batch_one_commit_witness :
  exists c : option error,
    commits (snd (batcher env_ok 2 ["t1"; "t2"]%string empty_world))
    = commits empty_world ++ [["t1"; "t2"]%string]
    /\ (fst (batcher env_ok 2 ["t1"; "t2"]%string empty_world) = None ->
        c = None
        /\ accepted (snd (batcher env_ok 2 ["t1"; "t2"]%string empty_world))
           = accepted empty_world ++ [["t1"; "t2"]%string])
    /\ (length ["t1"; "t2"]%string < 2 ->
        batcher_trace (snd (batcher env_ok 2 ["t1"; "t2"]%string empty_world))
        = batcher_trace empty_world ++ map Received ["t1"; "t2"]%string
                        ++ [StreamClosed; Commit ["t1"; "t2"]%string c])
    /\ (length ["t1"; "t2"]%string = 2 ->
        exists rest,
          batcher_trace (snd (batcher env_ok 2 ["t1"; "t2"]%string empty_world))
          = batcher_trace empty_world ++ map Received ["t1"; "t2"]%string
                          ++ Commit ["t1"; "t2"]%string c :: rest
          /\ (rest = [] \/ rest = [StreamClosed])
          /\ (fst (batcher env_ok 2 ["t1"; "t2"]%string empty_world) = None ->
              rest = [StreamClosed])).
Proof.
  apply (single_batch_one_commit env_ok 2 ["t1"; "t2"]%string empty_world).
  - simpl. lia.
  - vm_compute. reflexivity.
Defined.

(** Fifty tokens: a stream of exactly the maximum batch size. *)
Definition fifty_tokens : list UploadToken := repeat "t"%string 50.

(** [true] when the trace has a [Commit] before any [StreamClosed]. *)
Fixpoint commits_before_close (trace : list BatcherEvent) : bool :=
  match trace with
  | [] => false
  | StreamClosed :: _ => false
  | Commit _ _ :: _ => true
  | Received _ :: trace => commits_before_close trace
  end.

(** C6 fails at the boundary.  With exactly 50 tokens and the constant of
    the code the run succeeds with one commit of all 50 tokens, and that
    commit is made before the range loop has seen the stream closed. *)
Lemma commit_at_maximum_precedes_close :
  length fifty_tokens = MaxUploadTokensPerCreateMediaItemsCall
  /\ fst (batcher env_ok MaxUploadTokensPerCreateMediaItemsCall fifty_tokens empty_world) = None
  /\ batcher_trace
       (snd (batcher env_ok MaxUploadTokensPerCreateMediaItemsCall fifty_tokens empty_world))
     = map Received fifty_tokens ++ [Commit fifty_tokens None; StreamClosed]
  /\ commits_before_close
       (batcher_trace
          (snd (batcher env_ok MaxUploadTokensPerCreateMediaItemsCall fifty_tokens empty_world)))
     = true.
Proof. vm_compute. repeat split. Qed.

(** ** The upload of one file *)

(** An upload touches only the logs of [os.Open] and of the HTTP client. *)
Definition upload_only (w w' : World) : Prop :=
  created w' = created w /\ batcher_trace w' = batcher_trace w
  /\ emitted w' = emitted w /\ sent w' = sent w /\ selects w' = selects w.

Lemma uploadFile_run env (filename : string) (w : World) :
  uploadFile env filename w =
  let w1 := mkWorld (opened w ++ [filename]) (posted w) (created w)
                    (batcher_trace w) (emitted w) (sent w) (selects w) in
  match os_Open env (length (opened w)) filename with
  | (_, Some err) => (("", Some err), w1)%string
  | (f, None) => Upload env (filepath_Base env filename) f w1
  end.
Proof.
  unfold uploadFile, bind, do_os_Open.
  by destruct (os_Open env (length (opened w)) filename) as [f [err|]].
Qed.

Lemma uploadFile_effect env filename w r w' :
  uploadFile env filename w = (r, w') ->
  upload_only w w' /\ opened w' = opened w ++ [filename].
Proof.
  rewrite uploadFile_run. cbn zeta.
  destruct (os_Open env (length (opened w)) filename) as [f [err|]].
  - by intros [= <- <-].
  - rewrite Upload_run.
    destruct (http_NewRequest_err _ _ _); [by intros [= <- <-]|].
    cbn zeta. destruct (client_Do _ _ _) as [resp [err|]]; [by intros [= <- <-]|].
    destruct (Body resp) as [rawToken [err|]]; by intros [= <- <-].
Qed.

Lemma upload_with_retry_effect env filename w r w' :
  upload_with_retry env filename w = (r, w') -> upload_only w w'.
Proof.
  unfold upload_with_retry, bind, retry_Do.
  destruct (retry_loop_Retried (uploadFile env filename) (retries env) w)
    as (k & _ & HR & _).
  destruct (retry_loop (retries env) (uploadFile env filename) w) as [[tok err] w1].
  simpl in HR.
  assert (Hframe : upload_only w w1).
  { revert HR. apply Retried_preserves.
    - intros w2 r2 w3 H. by apply uploadFile_effect in H as [H _].
    - unfold upload_only. intros w2 w3 w4 (?&?&?&?&?) (?&?&?&?&?).
      repeat split; congruence. }
  destruct err; by intros [= <- <-].
Qed.

(** A file that cannot be opened: every attempt of the retried upload
    calls [os.Open] again, none reaches the HTTP client, and the error of
    the last attempt is returned. *)
Lemma retry_loop_unreadable env filename (n : nat) :
  (forall k, snd (os_Open env k filename) <> None) ->
  forall w,
    retry_loop n (uploadFile env filename) w
    = ((""%string, snd (os_Open env (length (opened w) + n) filename)),
       mkWorld (opened w ++ repeat filename (S n)) (posted w) (created w)
               (batcher_trace w) (emitted w) (sent w) (selects w)).
Proof.
  intros Hfail. induction n as [|n IH]; intros w;
    rewrite retry_loop_unfold, uploadFile_run; cbn zeta;
    pose proof (Hfail (length (opened w))) as Hk;
    destruct (os_Open env (length (opened w)) filename) as [f [err|]] eqn:Hopen;
    try done.
  - rewrite Nat.add_0_r, Hopen. done.
  - rewrite IH. simpl. rewrite length_app. simpl.
    replace (length (opened w) + 1 + n) with (length (opened w) + S n) by lia.
    by rewrite <- app_assoc.
Qed.

(** The tokens returned by successful uploads: the bodies of the answers
    of [u.client.Do] that came without an error and could be read. *)
Definition uploaded_of (call : Request * (Response * option error)) : option UploadToken :=
  match call with
  | (_, (resp, None)) =>
    match Body resp with
    | (rawToken, None) => Some rawToken
    | _ => None
    end
  | _ => None
  end.

Definition uploaded (w : World) : list UploadToken :=
  omap uploaded_of (posted w).

Lemma uploadFile_uploaded env filename w uploadToken err w' :
  uploadFile env filename w = ((uploadToken, err), w') ->
  uploaded w' = uploaded w ++ match err with None => [uploadToken] | Some _ => [] end.
Proof.
  rewrite uploadFile_run. cbn zeta.
  destruct (os_Open env (length (opened w)) filename) as [f [e|]].
  - intros [= <- <- <-]. unfold uploaded. simpl. by rewrite app_nil_r.
  - rewrite Upload_run.
    destruct (http_NewRequest_err _ _ _).
    { intros [= <- <- <-]. unfold uploaded. simpl. by rewrite app_nil_r. }
    cbn zeta. simpl. destruct (client_Do _ _ _) as [resp [e|]] eqn:Hdo.
    { intros [= <- <- <-]. unfold uploaded. simpl. by rewrite omap_app. }
    destruct (Body resp) as [rawToken [e|]] eqn:Hbody;
      intros [= <- <- <-]; unfold uploaded; simpl; rewrite omap_app; simpl;
      by rewrite ?Hbody.
Qed.

Lemma Retried_uploadFile_uploaded env filename :
  forall k w r w', Retried (uploadFile env filename) k w r w' ->
  uploaded w' = uploaded w ++ match snd r with None => [fst r] | Some _ => [] end.
Proof.
  intros k w r w' H.
  induction H as [w r w' Hop | w a e w1 k r w' Hop HR IH].
  - destruct r as [tok err]. by apply uploadFile_uploaded in Hop.
  - apply uploadFile_uploaded in Hop. rewrite app_nil_r in Hop. by rewrite IH, Hop.
Qed.

(** A retried upload adds the token it returns, and nothing when it
    fails. *)
Lemma upload_with_retry_uploaded env filename w uploadToken err w' :
  upload_with_retry env filename w = ((uploadToken, err), w') ->
  uploaded w' = uploaded w ++ match err with None => [uploadToken] | Some _ => [] end.
Proof.
  unfold upload_with_retry, bind, retry_Do.
  destruct (retry_loop_Retried (uploadFile env filename) (retries env) w)
    as (k & _ & HR & _).
  destruct (retry_loop (retries env) (uploadFile env filename) w) as [[tok e] w1].
  apply Retried_uploadFile_uploaded in HR. simpl in HR.
  destruct e; intros [= <- <- <-]; done.
Qed.

(** ** What a single upload does *)

(** X16. [Upload] sends at most one request, the POST to the uploads
    endpoint with the three headers and the reader as body, and none when
    the request cannot be built.  Whenever it returns an error the token
    is the empty string and the error is, unchanged, the one of
    [http.NewRequest], of the client or of reading the body.  It touches
    nothing but the HTTP client. *)
Theorem Upload_fails_with_the_empty_token env (filename r : string) (w : World) :
  (posted (snd (Upload env filename r w)) = posted w
   \/ posted (snd (Upload env filename r w))
      = posted w ++ [(upload_request filename r,
                      client_Do env (length (posted w)) (upload_request filename r))])
  /\ (forall e,
         http_NewRequest_err env "POST" "https://photoslibrary.googleapis.com/v1/uploads"
         = Some e ->
         Upload env filename r w = ((""%string, Some e), w))
  /\ (forall e,
         snd (fst (Upload env filename r w)) = Some e ->
         fst (fst (Upload env filename r w)) = ""%string
         /\ (http_NewRequest_err env "POST" "https://photoslibrary.googleapis.com/v1/uploads"
             = Some e
             \/ snd (client_Do env (length (posted w)) (upload_request filename r)) = Some e
             \/ snd (Body (fst (client_Do env (length (posted w))
                                          (upload_request filename r)))) = Some e))
  /\ opened (snd (Upload env filename r w)) = opened w
  /\ created (snd (Upload env filename r w)) = created w
  /\ batcher_trace (snd (Upload env filename r w)) = batcher_trace w
  /\ emitted (snd (Upload env filename r w)) = emitted w
  /\ sent (snd (Upload env filename r w)) = sent w.
Proof.
  rewrite Upload_run.
  destruct (http_NewRequest_err env _ _) as [e0|] eqn:Hnew; [|cbn zeta].
  2: destruct (client_Do env _ _) as [resp [e1|]] eqn:Hdo.
  3: destruct (Body resp) as [rawToken [e2|]] eqn:Hbody.
  all: simpl; repeat split; try done; auto.
  all: intros; simplify_eq; rewrite ?Hbody; auto.
Qed.

(** X17. [uploadFile] opens the file once.  When [os.Open] fails it
    returns that error with the empty token and sends no request.  Any
    request it sends names the file by [filepath.Base] of its path and
    carries the bytes of the file: a path that has the same base name
    and the same content is uploaded by the very same request, with the
    same result, whatever its directory. *)
Theorem uploadFile_names_the_file_by_its_base env (filename : string) (w : World) :
  opened (snd (uploadFile env filename w)) = opened w ++ [filename]
  /\ (forall e,
         snd (os_Open env (length (opened w)) filename) = Some e ->
         fst (uploadFile env filename w) = (""%string, Some e)
         /\ posted (snd (uploadFile env filename w)) = posted w)
  /\ (forall call,
         In call (posted (snd (uploadFile env filename w))) ->
         In call (posted w)
         \/ fst call = upload_request (filepath_Base env filename)
                                      (fst (os_Open env (length (opened w)) filename)))
  /\ (forall other,
         filepath_Base env other = filepath_Base env filename ->
         os_Open env (length (opened w)) other = os_Open env (length (opened w)) filename ->
         fst (uploadFile env other w) = fst (uploadFile env filename w)
         /\ posted (snd (uploadFile env other w))
            = posted (snd (uploadFile env filename w))).
Proof.
  split; [|split; [|split]].
  - destruct (uploadFile env filename w) as [r w'] eqn:Hup.
    by apply uploadFile_effect in Hup as [_ Hup].
  - intros e He. rewrite uploadFile_run. cbn zeta.
    destruct (os_Open env (length (opened w)) filename) as [f [e'|]]; simpl in *;
      by simplify_eq.
  - intros call. rewrite uploadFile_run. cbn zeta.
    destruct (os_Open env (length (opened w)) filename) as [f [e'|]]; simpl; [by left|].
    rewrite Upload_run.
    destruct (http_NewRequest_err env _ _); simpl; [by left|].
    destruct (client_Do env _ _) as [resp [e1|]]; simpl.
    { rewrite in_app_iff. simpl. intros [H | [<- | []]]; auto. }
    destruct (Body resp) as [rawToken [e2|]]; simpl;
      rewrite in_app_iff; simpl; intros [H | [<- | []]]; auto.
  - intros other Hbase Hopen. rewrite !uploadFile_run. cbn zeta.
    rewrite Hopen, Hbase.
    destruct (os_Open env (length (opened w)) filename) as [f [e'|]]; simpl; [done|].
    rewrite !Upload_run.
    destruct (http_NewRequest_err env _ _); simpl; [done|].
    destruct (client_Do env _ _) as [resp [e1|]]; simpl; [done|].
    destruct (Body resp) as [rawToken [e2|]]; done.
Qed.


(** ** The pipeline of [run] (lines 74-181) as interleaved goroutines *)

Module Pipeline.

(** Where the goroutine of [run] stands. *)
Inductive MainPc : Type :=
| MGoSource                    (* line 80: g.Go of the Path Source *)
| MGoWorker (i : nat)          (* line 97: the loop, i workers started so far *)
| MGoCloser                    (* line 130 *)
| MGoBatcher                   (* line 136 *)
| MGoReporter                  (* line 172 *)
| MWait                        (* line 178: g.Wait() *)
| MReturned (err : option error).
                               (* run has returned; close(messages) of line 76 has run *)

(** The Path Source (lines 80-92). *)
Inductive SourcePc : Type :=
| SNotStarted
| SRange (args : list string)  (* at the select of line 84, these filenames left *)
| SReturned (err : option error).
                               (* returned; close(filenames) of line 81 has run *)

(** One uploading worker (lines 100-128). *)
Inductive WorkerPc : Type :=
| WRange                       (* line 103: receiving from filenames *)
| WUpload (filename : string)  (* lines 104-112 *)
| WSendToken (filename : string) (uploadToken : UploadToken)
                               (* the select of line 114 *)
| WSendMessage (filename : string)
                               (* the select of line 120 *)
| WReturned (err : option error).
                               (* returned; wg.Done() of line 101 has run *)

(** The goroutine of lines 130-133. *)
Inductive CloserPc : Type :=
| CNotStarted
| CWait                        (* line 131: wg.Wait() *)
| CClose                       (* line 132: close(uploadTokens) *)
| CDone.

(** The batcher (lines 136-170); [final] tells the call of [uploadBatch]
    at line 169 from the one at line 161. *)
Inductive BatcherPc : Type :=
| BNotStarted
| BRange (currentBatch : list UploadToken)
                               (* line 158: receiving from uploadTokens *)
| BFlush (batch : list UploadToken) (final : bool)
                               (* entering uploadBatch, line 138 *)
| BSendMessage (batch : list UploadToken) (final : bool)
                               (* the select of line 149 *)
| BReturned (err : option error).

(** The reporter (lines 172-176). *)
Inductive ReporterPc : Type :=
| RNotStarted
| RRange                       (* line 173: receiving from messages *)
| RPrint (msg : message)       (* line 174 *)
| RDone.

Record State : Type := mkState {
  world : World;
  main : MainPc;
  source : SourcePc;
  workers : list WorkerPc;
  closer : CloserPc;
  batcher_pc : BatcherPc;
  reporter : ReporterPc;
  filenames_closed : bool;          (* chan string, unbuffered *)
  uploadTokens : list UploadToken;  (* the buffer of the channel, oldest first *)
  uploadTokens_closed : bool;
  messages_closed : bool;           (* chan string, unbuffered *)
  ctx_done : bool;                  (* ctx.Done() is closed *)
  g_err : option error;             (* the first error given to the errgroup *)
  wg : nat;                         (* the counter of the sync.WaitGroup *)
  printed : list message;           (* fmt.Printf of line 174 *)
  panicked : bool                   (* a send on a closed channel happened *)
}.

Definition set_world (x : World) (s : State) : State :=
  mkState x (main s) (source s) (workers s) (closer s) (batcher_pc s) (reporter s)
          (filenames_closed s) (uploadTokens s) (uploadTokens_closed s)
          (messages_closed s) (ctx_done s) (g_err s) (wg s) (printed s) (panicked s).

Definition set_main (x : MainPc) (s : State) : State :=
  mkState (world s) x (source s) (workers s) (closer s) (batcher_pc s) (reporter s)
          (filenames_closed s) (uploadTokens s) (uploadTokens_closed s)
          (messages_closed s) (ctx_done s) (g_err s) (wg s) (printed s) (panicked s).

Definition set_source (x : SourcePc) (s : State) : State :=
  mkState (world s) (main s) x (workers s) (closer s) (batcher_pc s) (reporter s)
          (filenames_closed s) (uploadTokens s) (uploadTokens_closed s)
          (messages_closed s) (ctx_done s) (g_err s) (wg s) (printed s) (panicked s).

Definition set_workers (x : list WorkerPc) (s : State) : State :=
  mkState (world s) (main s) (source s) x (closer s) (batcher_pc s) (reporter s)
          (filenames_closed s) (uploadTokens s) (uploadTokens_closed s)
          (messages_closed s) (ctx_done s) (g_err s) (wg s) (printed s) (panicked s).

Definition set_closer (x : CloserPc) (s : State) : State :=
  mkState (world s) (main s) (source s) (workers s) x (batcher_pc s) (reporter s)
          (filenames_closed s) (uploadTokens s) (uploadTokens_closed s)
          (messages_closed s) (ctx_done s) (g_err s) (wg s) (printed s) (panicked s).

Definition set_batcher (x : BatcherPc) (s : State) : State :=
  mkState (world s) (main s) (source s) (workers s) (closer s) x (reporter s)
          (filenames_closed s) (uploadTokens s) (uploadTokens_closed s)
          (messages_closed s) (ctx_done s) (g_err s) (wg s) (printed s) (panicked s).

Definition set_reporter (x : ReporterPc) (s : State) : State :=
  mkState (world s) (main s) (source s) (workers s) (closer s) (batcher_pc s) x
          (filenames_closed s) (uploadTokens s) (uploadTokens_closed s)
          (messages_closed s) (ctx_done s) (g_err s) (wg s) (printed s) (panicked s).

Definition set_filenames_closed (x : bool) (s : State) : State :=
  mkState (world s) (main s) (source s) (workers s) (closer s) (batcher_pc s) (reporter s)
          x (uploadTokens s) (uploadTokens_closed s)
          (messages_closed s) (ctx_done s) (g_err s) (wg s) (printed s) (panicked s).

Definition set_uploadTokens (x : list UploadToken) (s : State) : State :=
  mkState (world s) (main s) (source s) (workers s) (closer s) (batcher_pc s) (reporter s)
          (filenames_closed s) x (uploadTokens_closed s)
          (messages_closed s) (ctx_done s) (g_err s) (wg s) (printed s) (panicked s).

Definition set_uploadTokens_closed (x : bool) (s : State) : State :=
  mkState (world s) (main s) (source s) (workers s) (closer s) (batcher_pc s) (reporter s)
          (filenames_closed s) (uploadTokens s) x
          (messages_closed s) (ctx_done s) (g_err s) (wg s) (printed s) (panicked s).

Definition set_messages_closed (x : bool) (s : State) : State :=
  mkState (world s) (main s) (source s) (workers s) (closer s) (batcher_pc s) (reporter s)
          (filenames_closed s) (uploadTokens s) (uploadTokens_closed s)
          x (ctx_done s) (g_err s) (wg s) (printed s) (panicked s).

Definition set_ctx_done (x : bool) (s : State) : State :=
  mkState (world s) (main s) (source s) (workers s) (closer s) (batcher_pc s) (reporter s)
          (filenames_closed s) (uploadTokens s) (uploadTokens_closed s)
          (messages_closed s) x (g_err s) (wg s) (printed s) (panicked s).

Definition set_g_err (x : option error) (s : State) : State :=
  mkState (world s) (main s) (source s) (workers s) (closer s) (batcher_pc s) (reporter s)
          (filenames_closed s) (uploadTokens s) (uploadTokens_closed s)
          (messages_closed s) (ctx_done s) x (wg s) (printed s) (panicked s).

Definition set_wg (x : nat) (s : State) : State :=
  mkState (world s) (main s) (source s) (workers s) (closer s) (batcher_pc s) (reporter s)
          (filenames_closed s) (uploadTokens s) (uploadTokens_closed s)
          (messages_closed s) (ctx_done s) (g_err s) x (printed s) (panicked s).

Definition set_printed (x : list message) (s : State) : State :=
  mkState (world s) (main s) (source s) (workers s) (closer s) (batcher_pc s) (reporter s)
          (filenames_closed s) (uploadTokens s) (uploadTokens_closed s)
          (messages_closed s) (ctx_done s) (g_err s) (wg s) x (panicked s).

Definition set_panicked (x : bool) (s : State) : State :=
  mkState (world s) (main s) (source s) (workers s) (closer s) (batcher_pc s) (reporter s)
          (filenames_closed s) (uploadTokens s) (uploadTokens_closed s)
          (messages_closed s) (ctx_done s) (g_err s) (wg s) (printed s) x.

(** What the scheduler picks: a goroutine and, at a select or a range,
    the case that fires. *)
Inductive Label : Type :=
| LMain
| LSourceSend (i : nat)        (* filenames <- filename, received by worker i *)
| LSourceDone                  (* <-ctx.Done() at line 86 *)
| LSourceReturn                (* the loop of line 83 is over *)
| LWorkerClosed (i : nat)      (* worker i finds filenames closed *)
| LWorkerUpload (i : nat)
| LWorkerSendToken (i : nat)   (* uploadTokens <- uploadToken *)
| LWorkerTokenDone (i : nat)   (* <-ctx.Done() at line 116 *)
| LWorkerSendMessage (i : nat) (* messages <- ..., received by the reporter *)
| LWorkerMessageDone (i : nat) (* <-ctx.Done() at line 122 *)
| LCloser
| LBatcherReceive
| LBatcherClosed               (* the batcher finds uploadTokens closed and drained *)
| LBatcherFlush
| LBatcherSendMessage
| LBatcherMessageDone          (* <-ctx.Done() at line 151 *)
| LReporterPrint
| LReporterClosed.

Definition is_MReturned (pc : MainPc) : bool :=
  match pc with MReturned _ => true | _ => false end.

Definition is_WReturned (pc : WorkerPc) : bool :=
  match pc with WReturned _ => true | _ => false end.

Definition is_SReturned (pc : SourcePc) : bool :=
  match pc with SReturned _ => true | _ => false end.

Definition is_BReturned (pc : BatcherPc) : bool :=
  match pc with BReturned _ => true | _ => false end.

(** Every goroutine started with [g.Go] has returned: what [g.Wait()]
    waits for. *)
Definition all_returned (s : State) : bool :=
  is_SReturned (source s) && forallb is_WReturned (workers s) && is_BReturned (batcher_pc s).

Section Steps.

Variable env : Env.

(** [flag.Args()] and the value of [-upload-concurrency]; lines 43-45
    have rejected a value that is not positive before the pipeline
    starts. *)
Variable args : list string.
Variable uploadConcurrency : nat.

Definition init : State :=
  mkState empty_world MGoSource SNotStarted [] CNotStarted BNotStarted RNotStarted
          false [] false false false None 0 [] false.

(** Modelled from the spec: the [errgroup.Group] of
    golang.org/x/sync/errgroup made at line 74, which is imported by the
    program and not part of its sources.  The spec (4.6): the first task
    to fail cancels the shared context, and the group returns that first
    error.  A goroutine started with [g.Go] has returned [err]. *)
Definition g_returned (err : option error) (s : State) : State :=
  match err, g_err s with
  | Some e, None => set_g_err (Some e) (set_ctx_done true s)
  | _, _ => s
  end.

(** Worker [i] returns [err]: the deferred [wg.Done()] of line 101 runs,
    and the errgroup sees [err].  [wg.Done()] on a zero counter panics. *)
Definition worker_returns (i : nat) (err : option error) (s : State) : State :=
  match wg s with
  | 0 => set_panicked true s
  | S n => g_returned err (set_wg n (set_workers (<[i := WReturned err]> (workers s)) s))
  end.

(** The batcher returns [err]. *)
Definition batcher_returns (err : option error) (s : State) : State :=
  g_returned err (set_batcher (BReturned err) s).

(** [uploadBatch] has returned nil: the batcher returns (line 169) or
    starts a new batch (line 164). *)
Definition flushed (final : bool) (s : State) : State :=
  if final then batcher_returns None s else set_batcher (BRange []) s.

Definition step_main (s : State) : option State :=
  match main s with
  | MGoSource => Some (set_source (SRange args) (set_main (MGoWorker 0) s))
  | MGoWorker i =>
    if i <? uploadConcurrency then
      (* wg.Add(1); g.Go(...) *)
      Some (set_workers (workers s ++ [WRange])
                        (set_wg (S (wg s)) (set_main (MGoWorker (S i)) s)))
    else Some (set_main MGoCloser s)
  | MGoCloser => Some (set_closer CWait (set_main MGoBatcher s))
  | MGoBatcher => Some (set_batcher (BRange []) (set_main MGoReporter s))
  | MGoReporter => Some (set_reporter RRange (set_main MWait s))
  | MWait =>
    (* g.Wait() returns once every goroutine of the group has returned; it
       cancels ctx; run returns and the deferred close(messages) runs *)
    if all_returned s then
      Some (set_messages_closed true
              (set_ctx_done true
                 (set_main (MReturned (option_map FailedToUploadPhotos (g_err s))) s)))
    else None
  | MReturned _ => None
  end.

Definition step_source (l : Label) (s : State) : option State :=
  match l, source s with
  | LSourceSend i, SRange (filename :: rest) =>
    match workers s !! i with
    | Some WRange =>
      Some (set_workers (<[i := WUpload filename]> (workers s))
              (set_source (SRange rest)
                 (set_world (send_filename filename (world s)) s)))
    | _ => None
    end
  | LSourceDone, SRange (_ :: _) =>
    if ctx_done s then
      Some (g_returned (Some Canceled)
              (set_filenames_closed true (set_source (SReturned (Some Canceled)) s)))
    else None
  | LSourceReturn, SRange [] =>
    Some (g_returned None (set_filenames_closed true (set_source (SReturned None) s)))
  | _, _ => None
  end.

Definition step_worker (l : Label) (i : nat) (s : State) : option State :=
  match l, workers s !! i with
  | LWorkerClosed _, Some WRange =>
    if filenames_closed s then Some (worker_returns i None s) else None
  | LWorkerUpload _, Some (WUpload filename) =>
    let '((uploadToken, err), w') := upload_with_retry env filename (world s) in
    match err with
    | Some e => Some (worker_returns i (Some e) (set_world w' s))
    | None =>
      Some (set_workers (<[i := WSendToken filename uploadToken]> (workers s))
                        (set_world w' s))
    end
  | LWorkerSendToken _, Some (WSendToken filename uploadToken) =>
    if uploadTokens_closed s then Some (set_panicked true s)
    else if length (uploadTokens s) <? MaxUploadTokensPerCreateMediaItemsCall then
      Some (set_workers (<[i := WSendMessage filename]> (workers s))
                        (set_uploadTokens (uploadTokens s ++ [uploadToken]) s))
    else None
  | LWorkerTokenDone _, Some (WSendToken _ _) =>
    if ctx_done s then Some (worker_returns i (Some Canceled) s) else None
  | LWorkerSendMessage _, Some (WSendMessage filename) =>
    if messages_closed s then Some (set_panicked true s)
    else
      match reporter s with
      | RRange =>
        Some (set_workers (<[i := WRange]> (workers s))
                (set_reporter (RPrint (Uploaded filename))
                   (set_world (send_message (Uploaded filename) (world s)) s)))
      | _ => None
      end
  | LWorkerMessageDone _, Some (WSendMessage _) =>
    if ctx_done s then Some (worker_returns i (Some Canceled) s) else None
  | _, _ => None
  end.

Definition step_closer (s : State) : option State :=
  match closer s with
  | CWait => if wg s =? 0 then Some (set_closer CClose s) else None
  | CClose =>
    (* closing a closed channel panics *)
    if uploadTokens_closed s then Some (set_panicked true s)
    else Some (set_uploadTokens_closed true (set_closer CDone s))
  | _ => None
  end.

Definition step_batcher (l : Label) (s : State) : option State :=
  match l, batcher_pc s with
  | LBatcherReceive, BRange currentBatch =>
    match uploadTokens s with
    | uploadToken :: rest =>
      let currentBatch := currentBatch ++ [uploadToken] in
      Some (set_batcher
              (if MaxUploadTokensPerCreateMediaItemsCall <=? length currentBatch
               then BFlush currentBatch false else BRange currentBatch)
              (set_uploadTokens rest
                 (set_world (snd (observe (Received uploadToken) (world s))) s)))
    | [] => None
    end
  | LBatcherClosed, BRange currentBatch =>
    match uploadTokens s with
    | [] =>
      if uploadTokens_closed s then
        Some (set_batcher (BFlush currentBatch true)
                (set_world (snd (observe StreamClosed (world s))) s))
      else None
    | _ :: _ => None
    end
  | LBatcherFlush, BFlush batch final =>
    if length batch =? 0 then Some (flushed final s)
    else
      let '(err, w') :=
          commit_with_retry env MaxUploadTokensPerCreateMediaItemsCall batch (world s) in
      match err with
      | Some e => Some (batcher_returns (Some e) (set_world w' s))
      | None => Some (set_batcher (BSendMessage batch final) (set_world w' s))
      end
  | LBatcherSendMessage, BSendMessage batch final =>
    if messages_closed s then Some (set_panicked true s)
    else
      match reporter s with
      | RRange =>
        Some (flushed final
                (set_reporter (RPrint (UploadedBatch (length batch)))
                   (set_world (send_message (UploadedBatch (length batch)) (world s)) s)))
      | _ => None
      end
  | LBatcherMessageDone, BSendMessage _ _ =>
    if ctx_done s then Some (batcher_returns (Some Canceled) s) else None
  | _, _ => None
  end.

Definition step_reporter (l : Label) (s : State) : option State :=
  match l, reporter s with
  | LReporterPrint, RPrint msg =>
    Some (set_reporter RRange (set_printed (printed s ++ [msg]) s))
  | LReporterClosed, RRange =>
    if messages_closed s then Some (set_reporter RDone s) else None
  | _, _ => None
  end.

(** One step of the pipeline; [None] when [l] cannot fire in [s].  After
    a panic nothing runs. *)
Definition step (l : Label) (s : State) : option State :=
  if panicked s then None
  else
    match l with
    | LMain => step_main s
    | LSourceSend _ | LSourceDone | LSourceReturn => step_source l s
    | LWorkerClosed i | LWorkerUpload i | LWorkerSendToken i | LWorkerTokenDone i
    | LWorkerSendMessage i | LWorkerMessageDone i => step_worker l i s
    | LCloser => step_closer s
    | LBatcherReceive | LBatcherClosed | LBatcherFlush | LBatcherSendMessage
    | LBatcherMessageDone => step_batcher l s
    | LReporterPrint | LReporterClosed => step_reporter l s
    end.

(** A schedule run from a state. *)
Fixpoint exec (schedule : list Label) (s : State) : option State :=
  match schedule with
  | [] => Some s
  | l :: schedule =>
    match step l s with
    | Some s' => exec schedule s'
    | None => None
    end
  end.

Inductive reachable : State -> Prop :=
| reachable_init : reachable init
| reachable_step s l s' : reachable s -> step l s = Some s' -> reachable s'.

(** *** Counting the workers that have not returned *)

Fixpoint running (pcs : list WorkerPc) : nat :=
  match pcs with
  | [] => 0
  | pc :: pcs => (if is_WReturned pc then 0 else 1) + running pcs
  end.

Lemma running_app pcs1 pcs2 : running (pcs1 ++ pcs2) = running pcs1 + running pcs2.
Proof. induction pcs1 as [|pc pcs1 IH]; simpl; [done | rewrite IH; lia]. Qed.

Lemma running_insert pcs i old new :
  pcs !! i = Some old ->
  running (<[i := new]> pcs) + (if is_WReturned old then 0 else 1)
  = running pcs + (if is_WReturned new then 0 else 1).
Proof.
  revert i. induction pcs as [|pc pcs IH]; intros i Hi; [done|].
  destruct i as [|i]; simpl in *.
  - injection Hi as ->. lia.
  - specialize (IH i Hi). lia.
Qed.

Lemma running_zero pcs : running pcs = 0 <-> forallb is_WReturned pcs = true.
Proof.
  induction pcs as [|pc pcs IH]; simpl; [done|].
  destruct (is_WReturned pc); simpl; [exact IH | split; [lia | done]].
Qed.

Lemma running_zero_lookup pcs i pc :
  running pcs = 0 -> pcs !! i = Some pc -> is_WReturned pc = true.
Proof.
  revert i. induction pcs as [|pc' pcs IH]; intros i H0 Hi; [done|].
  simpl in H0. destruct i as [|i]; simpl in Hi.
  - injection Hi as ->. destruct (is_WReturned pc); [done | lia].
  - apply (IH i); [lia | done].
Qed.

Lemma forallb_is_WReturned_lookup pcs i pc :
  forallb is_WReturned pcs = true -> pcs !! i = Some pc -> is_WReturned pc = true.
Proof. intros H. apply running_zero_lookup. by apply running_zero. Qed.

(** The errgroup touches only [ctx_done] and [g_err]. *)
Lemma g_returned_fields err s :
  world (g_returned err s) = world s /\ main (g_returned err s) = main s
  /\ source (g_returned err s) = source s /\ workers (g_returned err s) = workers s
  /\ closer (g_returned err s) = closer s /\ batcher_pc (g_returned err s) = batcher_pc s
  /\ reporter (g_returned err s) = reporter s
  /\ filenames_closed (g_returned err s) = filenames_closed s
  /\ uploadTokens (g_returned err s) = uploadTokens s
  /\ uploadTokens_closed (g_returned err s) = uploadTokens_closed s
  /\ messages_closed (g_returned err s) = messages_closed s
  /\ wg (g_returned err s) = wg s /\ printed (g_returned err s) = printed s
  /\ panicked (g_returned err s) = panicked s.
Proof. unfold g_returned. destruct err, (g_err s); done. Qed.

(** *** The join barrier *)

(** What holds in every state of a run.  The WaitGroup counts the workers
    that have not returned; the closer is started only after all
    [uploadConcurrency] workers were added; it passes [wg.Wait()] only
    when none is left; and [messages] is closed only after every
    goroutine of the group has returned. *)
Record Inv (s : State) : Prop := mkInv {
  inv_wg : wg s = running (workers s);
  inv_main :
    match main s with
    | MGoSource => workers s = [] /\ closer s = CNotStarted
    | MGoWorker i =>
      length (workers s) = i /\ i <= uploadConcurrency /\ closer s = CNotStarted
    | MGoCloser => length (workers s) = uploadConcurrency /\ closer s = CNotStarted
    | _ => length (workers s) = uploadConcurrency /\ closer s <> CNotStarted
    end;
  inv_closer :
    match closer s with
    | CClose | CDone => running (workers s) = 0
    | _ => True
    end;
  inv_closed : uploadTokens_closed s = true <-> closer s = CDone;
  inv_messages :
    messages_closed s = true -> is_MReturned (main s) = true /\ all_returned s = true;
  inv_panicked : panicked s = false
}.

Lemma Inv_init : Inv init.
Proof. by constructor. Qed.


Lemma running_pos pcs i pc :
  pcs !! i = Some pc -> is_WReturned pc = false -> 0 < running pcs.
Proof.
  intros Hi Hpc. destruct (running pcs) eqn:E; [|lia].
  rewrite (running_zero_lookup _ _ _ E Hi) in Hpc. done.
Qed.

Lemma all_returned_worker s i pc :
  all_returned s = true -> workers s !! i = Some pc -> is_WReturned pc = true.
Proof.
  unfold all_returned. intros H Hi.
  apply andb_true_iff in H as [H _]. apply andb_true_iff in H as [_ H].
  by apply (forallb_is_WReturned_lookup _ _ _ H Hi).
Qed.

Lemma all_returned_source s : all_returned s = true -> is_SReturned (source s) = true.
Proof.
  unfold all_returned. intros H.
  apply andb_true_iff in H as [H _]. by apply andb_true_iff in H as [H _].
Qed.

Lemma all_returned_batcher s : all_returned s = true -> is_BReturned (batcher_pc s) = true.
Proof. unfold all_returned. intros H. by apply andb_true_iff in H as [_ H]. Qed.

Ltac step_cases H :=
  repeat match type of H with
         | context [match ?x with _ => _ end] => destruct x eqn:?
         | context [if ?x then _ else _] => destruct x eqn:?
         end;
  simplify_eq.

Ltac unfold_step H :=
  unfold step in H;
  match type of H with
  | context [panicked ?s] => destruct (panicked s) eqn:?; [discriminate H|]
  end;
  unfold step_main, step_source, step_worker, step_closer, step_batcher,
         step_reporter, worker_returns, batcher_returns, flushed in H.

Ltac use_eqs :=
  repeat match goal with
         | H : ?x = _, H' : context [match ?x with _ => _ end] |- _ => rewrite H in H'
         end.

Ltac worker_facts :=
  try match goal with
      | Hl : workers ?s !! ?i = Some ?old |- _ =>
        pose proof (running_pos _ _ _ Hl eq_refl)
      end;
  repeat match goal with
         | Hl : workers ?s !! ?i = Some ?old |- context [<[?i := ?new]> (workers ?s)] =>
           lazymatch goal with
           | _ : running (<[i := new]> (workers s)) + _ = _ |- _ => fail
           | _ => pose proof (running_insert _ _ _ new Hl)
           end
         end.

Ltac returned_contra H :=
  first
    [ match goal with
      | Hl : workers ?s !! ?i = Some _ |- _ =>
        pose proof (all_returned_worker _ _ _ H Hl); discriminate
      end
    | match goal with
      | Hs : source ?s = _ |- _ =>
        let Hret := fresh in
        pose proof (all_returned_source _ H) as Hret; rewrite Hs in Hret; discriminate
      end
    | match goal with
      | Hs : batcher_pc ?s = _ |- _ =>
        let Hret := fresh in
        pose proof (all_returned_batcher _ H) as Hret; rewrite Hs in Hret; discriminate
      end ].


Arguments g_returned err s : simpl never.

Lemma g_returned_workers err s : workers (g_returned err s) = workers s.
Proof. apply g_returned_fields. Qed.
Lemma g_returned_main err s : main (g_returned err s) = main s.
Proof. apply g_returned_fields. Qed.
Lemma g_returned_source err s : source (g_returned err s) = source s.
Proof. apply g_returned_fields. Qed.
Lemma g_returned_closer err s : closer (g_returned err s) = closer s.
Proof. apply g_returned_fields. Qed.
Lemma g_returned_batcher_pc err s : batcher_pc (g_returned err s) = batcher_pc s.
Proof. apply g_returned_fields. Qed.
Lemma g_returned_reporter err s : reporter (g_returned err s) = reporter s.
Proof. apply g_returned_fields. Qed.
Lemma g_returned_world err s : world (g_returned err s) = world s.
Proof. apply g_returned_fields. Qed.
Lemma g_returned_filenames_closed err s :
  filenames_closed (g_returned err s) = filenames_closed s.
Proof. apply g_returned_fields. Qed.
Lemma g_returned_uploadTokens err s : uploadTokens (g_returned err s) = uploadTokens s.
Proof. apply g_returned_fields. Qed.
Lemma g_returned_uploadTokens_closed err s :
  uploadTokens_closed (g_returned err s) = uploadTokens_closed s.
Proof. apply g_returned_fields. Qed.
Lemma g_returned_messages_closed err s :
  messages_closed (g_returned err s) = messages_closed s.
Proof. apply g_returned_fields. Qed.
Lemma g_returned_wg err s : wg (g_returned err s) = wg s.
Proof. apply g_returned_fields. Qed.
Lemma g_returned_printed err s : printed (g_returned err s) = printed s.
Proof. apply g_returned_fields. Qed.
Lemma g_returned_panicked err s : panicked (g_returned err s) = panicked s.
Proof. apply g_returned_fields. Qed.
Lemma g_returned_all_returned err s : all_returned (g_returned err s) = all_returned s.
Proof.
  unfold all_returned.
  by rewrite g_returned_source, g_returned_workers, g_returned_batcher_pc.
Qed.

Create Rewrite HintDb pipeline.

Hint Rewrite g_returned_workers g_returned_main g_returned_source g_returned_closer
     g_returned_batcher_pc g_returned_reporter g_returned_world
     g_returned_filenames_closed g_returned_uploadTokens g_returned_uploadTokens_closed
     g_returned_messages_closed g_returned_wg g_returned_printed g_returned_panicked
     g_returned_all_returned : pipeline.

Ltac prep :=
  repeat match goal with
         | H : _ /\ _ |- _ => destruct H
         | H : _ <-> _ |- _ => destruct H
         | H : (_ <? _) = true |- _ => apply Nat.ltb_lt in H
         | H : (_ <? _) = false |- _ => apply Nat.ltb_ge in H
         | H : (_ =? _) = true |- _ => apply Nat.eqb_eq in H
         | H : (_ =? _) = false |- _ => apply Nat.eqb_neq in H
         | H : (_ <=? _) = true |- _ => apply Nat.leb_le in H
         | H : (_ <=? _) = false |- _ => apply Nat.leb_gt in H
         end.

Ltac pc_cases :=
  repeat match goal with
         | |- context [match main ?s with _ => _ end] => destruct (main s) eqn:?
         | |- context [match closer ?s with _ => _ end] => destruct (closer s) eqn:?
         | H : context [match closer ?s with _ => _ end] |- _ => destruct (closer s) eqn:?
         | H : context [match main ?s with _ => _ end] |- _ => destruct (main s) eqn:?
         end.

Ltac field_solve Hmsg :=
  autorewrite with pipeline; simpl in *;
  try (intros Hm; destruct (Hmsg Hm) as [Hret Hall];
       first [ returned_contra Hall
             | match goal with
               | Hs : main ?s = _ |- _ => rewrite Hs in Hret; discriminate Hret
               end
             | idtac ]);
  pc_cases; simplify_eq; prep;
  rewrite ?length_insert, ?length_app, ?running_app in *; simpl in *;
  try match goal with H : workers ?s = [] |- _ => rewrite H in * end; simpl in *;
  solve [ done | lia
        | intuition (try done; try lia; try congruence) ].

Lemma Inv_step s l s' : Inv s -> step l s = Some s' -> Inv s'.
Proof.
  intros Hinv Hstep. unfold_step Hstep.
  destruct l; step_cases Hstep.
  all: destruct Hinv as [Hwg Hmain Hcloser Hclosed Hmsg Hpanic].
  all: simpl in *; worker_facts.
  all: try match goal with
           | Hc : messages_closed ?s = true |- _ =>
             destruct (Hmsg Hc) as [? Hall]; returned_contra Hall
           end.
  all: constructor; field_solve Hmsg.
Qed.

Lemma reachable_Inv s : reachable s -> Inv s.
Proof. induction 1; [apply Inv_init | by eapply Inv_step]. Qed.

Lemma exec_reachable schedule : forall s s',
  reachable s -> exec schedule s = Some s' -> reachable s'.
Proof.
  induction schedule as [|l schedule IH]; intros s s' Hs; simpl.
  - by intros [= <-].
  - destruct (step l s) as [s1|] eqn:Hstep; [|done].
    apply IH. by eapply reachable_step.
Qed.

(** C9. In every state of every run: if [uploadTokens] is closed then all
    [uploadConcurrency] workers have been started and every one of them
    has returned; the closer passes [wg.Wait()] only with a zero counter,
    which counts the workers still running; no worker stands at the send
    of line 115 once the channel is closed; and no send on a closed
    channel has happened. *)
Theorem tokens_closed_after_workers_returned (s : State) :
  reachable s ->
  wg s = running (workers s)
  /\ (closer s = CClose \/ closer s = CDone -> wg s = 0)
  /\ (uploadTokens_closed s = true ->
      length (workers s) = uploadConcurrency
      /\ Forall (fun pc => is_WReturned pc = true) (workers s))
  /\ (forall i filename uploadToken,
         workers s !! i = Some (WSendToken filename uploadToken) ->
         uploadTokens_closed s = false)
  /\ panicked s = false.
Proof.
  intros Hs. apply reachable_Inv in Hs as [Hwg Hmain Hcloser Hclosed Hmsg Hpanic].
  assert (Hzero : closer s = CClose \/ closer s = CDone -> running (workers s) = 0).
  { intros [Hc | Hc]; by rewrite Hc in Hcloser. }
  split; [done|]. split; [by rewrite Hwg|]. split; [|split; [|done]].
  - intros Hc. apply Hclosed in Hc. split.
    + rewrite Hc in Hmain. destruct (main s); simpl in *; intuition congruence.
    + apply Forall_forall. intros pc Hpc.
      apply list_elem_of_lookup in Hpc as [i Hi].
      eapply running_zero_lookup; [|exact Hi]. apply Hzero. by right.
  - intros i filename uploadToken Hi.
    destruct (uploadTokens_closed s) eqn:Hc; [|done].
    assert (Hd : closer s = CDone) by (by apply Hclosed).
    pose proof (running_pos _ _ _ Hi eq_refl) as Hpos.
    rewrite Hzero in Hpos; [lia | by right].
Qed.

(** *** Which goroutines have been started *)

Definition started (s : State) : Prop :=
  match main s with
  | MGoSource =>
    source s = SNotStarted /\ batcher_pc s = BNotStarted /\ reporter s = RNotStarted
  | MGoWorker _ | MGoCloser | MGoBatcher =>
    source s <> SNotStarted /\ batcher_pc s = BNotStarted /\ reporter s = RNotStarted
  | MGoReporter =>
    source s <> SNotStarted /\ batcher_pc s <> BNotStarted /\ reporter s = RNotStarted
  | MWait | MReturned _ =>
    source s <> SNotStarted /\ batcher_pc s <> BNotStarted /\ reporter s <> RNotStarted
  end.

Lemma started_step s l s' : started s -> step l s = Some s' -> started s'.
Proof.
  unfold started. intros Hst Hstep. unfold_step Hstep.
  destruct l; step_cases Hstep.
  all: autorewrite with pipeline; simpl.
  all: try solve [ done | destruct (main s); simpl in *; intuition congruence ].
Qed.

Lemma reachable_started s : reachable s -> started s.
Proof. induction 1; [by simpl | by eapply started_step]. Qed.

(** *** The Path Source *)

Lemma g_returned_ctx_done err s :
  ctx_done s = true -> ctx_done (g_returned err s) = true.
Proof. unfold g_returned. by destruct err, (g_err s). Qed.

(** What the source has emitted, and what is left of [args]. *)
Definition source_inv (s : State) : Prop :=
  exists rest,
    emitted (world s) ++ rest = args
    /\ match source s with
       | SNotStarted => rest = args /\ filenames_closed s = false
       | SRange todo => rest = todo /\ filenames_closed s = false
       | SReturned None => rest = [] /\ filenames_closed s = true
       | SReturned (Some e) =>
         e = Canceled /\ rest <> [] /\ ctx_done s = true /\ filenames_closed s = true
       end.

Ltac world_facts :=
  repeat match goal with
         | H : upload_with_retry _ _ _ = _ |- _ =>
           apply upload_with_retry_effect in H; destruct H as (? & ? & ? & ? & ?)
         | H : commit_with_retry _ _ _ _ = _ |- _ =>
           apply commit_with_retry_effect in H; destruct H as (? & ? & ? & ? & ? & ? & ?)
         end.

Lemma source_inv_init : source_inv init.
Proof. exists args. by simpl. Qed.

Lemma source_inv_step s l s' :
  started s -> source_inv s -> step l s = Some s' -> source_inv s'.
Proof.
  unfold started. intros Hst (rest & Hargs & Hsrc) Hstep. unfold_step Hstep.
  destruct l; step_cases Hstep; world_facts.
  all: try match goal with
           | H : source _ = _ |- _ => rewrite H in Hsrc
           end.
  all: try match goal with
           | H : main _ = _ |- _ => rewrite H in Hst
           end.
  all: unfold source_inv; autorewrite with pipeline; simpl.
  all: try solve
           [ exists rest; split; [congruence|];
             match goal with
             | |- context [source ?s] => destruct (source s) as [| |[e'|]]
             | _ => idtac
             end; simpl in *;
             repeat match goal with H : _ /\ _ |- _ => destruct H end;
             repeat split; try done; try congruence;
             try (apply g_returned_ctx_done; simpl; done) ].
  - destruct Hst as (Hs & _). rewrite Hs in Hsrc. exists rest. intuition congruence.
  - destruct Hsrc as [-> Hc]. exists l. by rewrite <- app_assoc.
Qed.

Lemma reachable_source_inv s : reachable s -> source_inv s.
Proof.
  induction 1 as [|s l s' Hs IH Hstep]; [apply source_inv_init|].
  eapply source_inv_step; [|exact IH|exact Hstep]. by apply reachable_started.
Qed.

(** Only a send of the source adds to what was emitted, and it adds the
    head of what is left. *)
Lemma step_emitted s l s' :
  step l s = Some s' ->
  emitted (world s') = emitted (world s)
  \/ exists i filename rest,
      l = LSourceSend i /\ source s = SRange (filename :: rest)
      /\ source s' = SRange rest
      /\ emitted (world s') = emitted (world s) ++ [filename].
Proof.
  intros Hstep. unfold_step Hstep.
  destruct l; step_cases Hstep; world_facts.
  all: autorewrite with pipeline; simpl.
  all: try (left; congruence).
  right. by exists i, s0, l.
Qed.




(** *** Every run is finite *)

Definition rank_main (pc : MainPc) : nat :=
  match pc with
  | MGoSource => 2 * uploadConcurrency + 7
  | MGoWorker i => 2 * (uploadConcurrency - i) + 6
  | MGoCloser => 5
  | MGoBatcher => 4
  | MGoReporter => 3
  | MWait => 1
  | MReturned _ => 0
  end.

Definition rank_source (pc : SourcePc) : nat :=
  match pc with
  | SNotStarted => 1 + 10 * length args
  | SRange todo => 1 + 10 * length todo
  | SReturned _ => 0
  end.

Definition rank_worker (pc : WorkerPc) : nat :=
  match pc with
  | WRange => 1
  | WUpload _ => 10
  | WSendToken _ _ => 9
  | WSendMessage _ => 4
  | WReturned _ => 0
  end.

Fixpoint rank_workers (pcs : list WorkerPc) : nat :=
  match pcs with
  | [] => 0
  | pc :: pcs => rank_worker pc + rank_workers pcs
  end.

Definition rank_closer (pc : CloserPc) : nat :=
  match pc with
  | CNotStarted | CWait => 2
  | CClose => 1
  | CDone => 0
  end.

Definition rank_batcher (pc : BatcherPc) : nat :=
  match pc with
  | BNotStarted | BRange _ => 4
  | BFlush _ false => 7
  | BSendMessage _ false => 6
  | BFlush _ true => 3
  | BSendMessage _ true => 2
  | BReturned _ => 0
  end.

Definition rank_reporter (pc : ReporterPc) : nat :=
  match pc with
  | RNotStarted | RRange => 1
  | RPrint _ => 2
  | RDone => 0
  end.

(** A bound on the number of steps left. *)
Definition measure (s : State) : nat :=
  rank_main (main s) + rank_source (source s) + rank_workers (workers s)
  + 4 * length (uploadTokens s)
  + rank_closer (closer s) + rank_batcher (batcher_pc s) + rank_reporter (reporter s).

Lemma rank_workers_app pcs1 pcs2 :
  rank_workers (pcs1 ++ pcs2) = rank_workers pcs1 + rank_workers pcs2.
Proof. induction pcs1 as [|pc pcs1 IH]; simpl; [done | rewrite IH; lia]. Qed.

Lemma rank_workers_insert pcs i old new :
  pcs !! i = Some old ->
  rank_workers (<[i := new]> pcs) + rank_worker old = rank_workers pcs + rank_worker new.
Proof.
  revert i. induction pcs as [|pc pcs IH]; intros i Hi; [done|].
  destruct i as [|i]; simpl in *.
  - injection Hi as ->. lia.
  - specialize (IH i Hi). lia.
Qed.

Ltac rank_facts :=
  repeat match goal with
         | Hl : workers ?s !! ?i = Some ?old |- context [<[?i := ?new]> (workers ?s)] =>
           lazymatch goal with
           | _ : rank_workers (<[i := new]> (workers s)) + _ = _ |- _ => fail
           | _ => pose proof (rank_workers_insert _ _ _ new Hl)
           end
         end.

Ltac rewrite_pcs :=
  repeat match goal with
         | H : main ?s = _ |- context [main ?s] => rewrite H
         | H : source ?s = _ |- context [source ?s] => rewrite H
         | H : closer ?s = _ |- context [closer ?s] => rewrite H
         | H : batcher_pc ?s = _ |- context [batcher_pc ?s] => rewrite H
         | H : reporter ?s = _ |- context [reporter ?s] => rewrite H
         | H : uploadTokens ?s = _ |- context [uploadTokens ?s] => rewrite H
         end.

Lemma step_measure s l s' :
  Inv s -> started s -> step l s = Some s' -> measure s' < measure s.
Proof.
  unfold started. intros Hinv Hst Hstep. unfold_step Hstep.
  destruct l; step_cases Hstep.
  all: destruct Hinv as [Hwg Hmain Hcloser Hclosed Hmsg Hpanic].
  all: simpl in *; worker_facts; rank_facts.
  all: try match goal with
           | Hc : messages_closed ?s = true |- _ =>
             destruct (Hmsg Hc) as [? Hall]; returned_contra Hall
           end.
  all: try match goal with final : bool |- _ => destruct final end.
  all: unfold measure, batcher_returns; autorewrite with pipeline; use_eqs; prep;
    cbn [main source workers closer batcher_pc reporter uploadTokens
         set_world set_main set_source set_workers set_closer set_batcher
         set_reporter set_filenames_closed set_uploadTokens set_uploadTokens_closed
         set_messages_closed set_ctx_done set_g_err set_wg set_printed set_panicked
         rank_main rank_source rank_closer rank_batcher rank_reporter rank_worker
         is_WReturned] in *;
    rewrite_pcs;
    rewrite ?length_app, ?rank_workers_app in *;
    cbn [rank_main rank_source rank_closer rank_batcher rank_reporter
         rank_workers rank_worker length] in *.
  all: try lia.
  all: exfalso;
    match goal with
    | Hc : uploadTokens_closed ?s = true,
      Himp : uploadTokens_closed ?s = true -> closer ?s = CDone |- _ =>
      specialize (Himp Hc); first [congruence | rewrite Himp in Hcloser; lia]
    end.
Qed.

Lemma exec_measure schedule : forall s s',
  reachable s -> exec schedule s = Some s' -> measure s' + length schedule <= measure s.
Proof.
  induction schedule as [|l schedule IH]; intros s s' Hs; simpl.
  - intros [= <-]. lia.
  - destruct (step l s) as [s1|] eqn:Hstep; [|done]. intros Hexec.
    pose proof (step_measure _ _ _ (reachable_Inv _ Hs) (reachable_started _ Hs) Hstep).
    apply IH in Hexec; [lia | by eapply reachable_step].
Qed.

(** *** What never changes back *)

Lemma g_returned_g_err err s :
  g_err (g_returned err s) = match g_err s with Some e => Some e | None => err end.
Proof. unfold g_returned. destruct err, (g_err s) eqn:E; simpl; done. Qed.

Lemma g_returned_ctx_done_Some e s :
  (g_err s <> None -> ctx_done s = true) -> ctx_done (g_returned (Some e) s) = true.
Proof. unfold g_returned. destruct (g_err s); [|done]. intros H. by apply H. Qed.

Lemma g_returned_None s : g_returned None s = s.
Proof. done. Qed.

Hint Rewrite g_returned_None : pipeline.

(** A closed channel stays closed, a cancelled context stays cancelled,
    and the first error of the errgroup stays its error. *)
Lemma step_mono s l s' :
  step l s = Some s' ->
  (filenames_closed s = true -> filenames_closed s' = true)
  /\ (ctx_done s = true -> ctx_done s' = true)
  /\ (uploadTokens_closed s = true -> uploadTokens_closed s' = true)
  /\ (messages_closed s = true -> messages_closed s' = true)
  /\ (forall e, g_err s = Some e -> g_err s' = Some e).
Proof.
  intros Hstep. unfold_step Hstep.
  destruct l; step_cases Hstep.
  all: try match goal with final : bool |- _ => destruct final end.
  all: unfold batcher_returns; autorewrite with pipeline; simpl.
  all: repeat split; try done.
  all: try (intros ? Hg; rewrite g_returned_g_err; simpl; by rewrite Hg).
  all: try (intros Hc; apply g_returned_ctx_done; simpl; done).
Qed.

Lemma exec_g_err schedule : forall s s' e,
  exec schedule s = Some s' -> g_err s = Some e -> g_err s' = Some e.
Proof.
  induction schedule as [|l schedule IH]; intros s s' e; simpl.
  - by intros [= <-].
  - destruct (step l s) as [s1|] eqn:Hstep; [|done]. intros Hexec Hg.
    apply (IH _ _ _ Hexec). by apply (step_mono _ _ _ Hstep).
Qed.

(** *** How the goroutines have returned *)

Definition worker_ok (filenames_closed ctx_done : bool) (pc : WorkerPc) : Prop :=
  match pc with
  | WReturned None => filenames_closed = true
  | WReturned (Some _) => ctx_done = true
  | _ => True
  end.

(** A goroutine of the group returns an error only with the context
    cancelled (at the latest by its own return); a worker returns nil
    only after [filenames] is closed, the batcher only after
    [uploadTokens] is closed and drained, and the reporter only after
    [messages] is closed; [run] returns what the errgroup holds. *)
Record Returns (s : State) : Prop := mkReturns {
  ret_g_err : g_err s <> None -> ctx_done s = true;
  ret_workers : Forall (worker_ok (filenames_closed s) (ctx_done s)) (workers s);
  ret_batcher :
    match batcher_pc s with
    | BFlush _ true | BSendMessage _ true | BReturned None =>
      uploadTokens_closed s = true /\ uploadTokens s = []
    | BReturned (Some _) => ctx_done s = true
    | _ => True
    end;
  ret_reporter : reporter s = RDone -> messages_closed s = true;
  ret_main :
    match main s with
    | MReturned err =>
      err = option_map FailedToUploadPhotos (g_err s) /\ all_returned s = true
    | _ => True
    end
}.

Lemma Returns_init : Returns init.
Proof. constructor; simpl; try done. Qed.

Lemma worker_ok_mono fc cd fc' cd' pc :
  (fc = true -> fc' = true) -> (cd = true -> cd' = true) ->
  worker_ok fc cd pc -> worker_ok fc' cd' pc.
Proof. destruct pc as [| | | |[e|]]; simpl; auto. Qed.

Ltac setters :=
  cbn [world main source workers closer batcher_pc reporter filenames_closed
       uploadTokens uploadTokens_closed messages_closed ctx_done g_err wg printed
       panicked
       set_world set_main set_source set_workers set_closer set_batcher
       set_reporter set_filenames_closed set_uploadTokens set_uploadTokens_closed
       set_messages_closed set_ctx_done set_g_err set_wg set_printed set_panicked] in *.

Lemma Returns_step s l s' : Returns s -> step l s = Some s' -> Returns s'.
Proof.
  intros [Hg Hw Hb Hr Hm] Hstep.
  pose proof (step_mono _ _ _ Hstep) as (Hfc & Hcd & Htc & Hmc & Hge).
  assert (Hw' : Forall (worker_ok (filenames_closed s') (ctx_done s')) (workers s)).
  { eapply Forall_impl; [exact Hw|]. intros pc. by apply worker_ok_mono. }
  clear Hw Hfc Htc Hmc Hge.
  unfold_step Hstep.
  destruct l; step_cases Hstep.
  all: try match goal with final : bool |- _ => destruct final end.
  all: unfold batcher_returns in *; autorewrite with pipeline in *; setters.
  all: constructor; autorewrite with pipeline; setters.
  all: try done.
  all: try (intros _; apply g_returned_ctx_done_Some; setters; done).
  all: try (apply Forall_insert; [done|]; simpl; try done;
            apply g_returned_ctx_done_Some; setters; done).
  all: try (apply Forall_app; split; [done | by repeat constructor]).
  all: try match goal with
           | |- context [match main ?s with _ => _ end] =>
             destruct (main s) eqn:?; try done;
             destruct Hm as [-> Hall];
             first [ returned_contra Hall
                   | split; [done | unfold all_returned in *; setters; done] ]
           end.
  all: try match goal with
           | |- context [match batcher_pc ?s with _ => _ end] =>
             destruct (batcher_pc s) as [| |? [|]|? [|]|[?|]]; simpl in *;
             try done;
             try (apply g_returned_ctx_done; setters; done);
             try (destruct Hb; split; congruence)
           end.
  all: apply g_returned_ctx_done_Some; setters; done.
Qed.

Lemma reachable_Returns s : reachable s -> Returns s.
Proof.
  induction 1 as [|s l s' Hs IH Hstep]; [apply Returns_init|].
  by eapply Returns_step.
Qed.

(** *** No run gets stuck *)

Lemma forallb_is_WReturned_false pcs :
  forallb is_WReturned pcs = false ->
  exists i pc, pcs !! i = Some pc /\ is_WReturned pc = false.
Proof.
  induction pcs as [|pc pcs IH]; simpl; [done|].
  destruct (is_WReturned pc) eqn:Hpc; simpl.
  - intros H. destruct (IH H) as (i & pc' & Hi & Hpc'). by exists (S i), pc'.
  - intros _. by exists 0, pc.
Qed.

(** Some goroutine can take a step as long as [run] has not returned.
    With no worker at all a source that has filenames to send would wait
    for ever, which is why [run] insists on a positive
    [uploadConcurrency] (lines 43-45). *)
Lemma progress s :
  0 < uploadConcurrency \/ args = [] ->
  reachable s -> is_MReturned (main s) = false ->
  exists l, is_Some (step l s).
Proof.
  intros Hpos Hs Hrun.
  pose proof (reachable_Inv _ Hs) as [Hwg Hmain Hcloser Hclosed Hmsg Hpanic].
  pose proof (reachable_started _ Hs) as Hst. unfold started in Hst.
  pose proof (reachable_source_inv _ Hs) as (rest & Hargs & Hsrc).
  pose proof (reachable_Returns _ Hs) as [Hg Hw Hb Hr _].
  assert (Hmc : messages_closed s = false).
  { destruct (messages_closed s); [|done].
    destruct Hmsg as [Hm _]; [done|]. by rewrite Hm in Hrun. }
  unfold step. rewrite Hpanic.
  destruct (main s) eqn:Hm; try done;
    try (exists LMain; unfold step_main; rewrite Hm; by eauto).
  { exists LMain. unfold step_main. rewrite Hm. destruct (i <? uploadConcurrency); eauto. }
  destruct Hst as (Hst_s & Hst_b & Hst_r). destruct Hmain as [Hlen Hst_c].
  destruct (all_returned s) eqn:Hall.
  { exists LMain. unfold step_main. rewrite Hm, Hall. eauto. }
  destruct (reporter s) eqn:Hrep; try done.
  2:{ exists LReporterPrint. unfold step_reporter. rewrite Hrep. eauto. }
  2:{ by rewrite Hr in Hmc. }
  destruct (batcher_pc s) as [|cur|batch final|batch final|berr] eqn:Hbat; try done.
  2:{ exists LBatcherFlush. unfold step_batcher. rewrite Hbat.
      destruct (length batch =? 0); [eauto|].
      destruct (commit_with_retry _ _ _ _) as [[e|] w']; eauto. }
  2:{ exists LBatcherSendMessage. unfold step_batcher. rewrite Hbat, Hmc, Hrep. eauto. }
  all: destruct (closer s) eqn:Hclo; try done.
  all: try (exists LCloser; unfold step_closer; rewrite Hclo;
            destruct (uploadTokens_closed s); by eauto).
  all: try (destruct (wg s =? 0) eqn:Hwg0;
            [exists LCloser; unfold step_closer; rewrite Hclo, Hwg0; by eauto|];
            apply Nat.eqb_neq in Hwg0).
  all: destruct (source s) as [|[|filename todo]|serr] eqn:Hsource; try done.
  all: try (exists LSourceReturn; unfold step_source; rewrite Hsource; by eauto).
  all: destruct (forallb is_WReturned (workers s)) eqn:Hfa.
  (* a worker that has not returned *)
  all: try (apply forallb_is_WReturned_false in Hfa as (i & pc & Hi & Hpc);
            destruct pc as [|f|f t|f|werr]; try done).
  all: try (exists (LWorkerUpload i); unfold step_worker; rewrite Hi;
            destruct (upload_with_retry _ _ _) as [[tok [e|]] w']; by eauto).
  all: try (exists (LWorkerSendMessage i); unfold step_worker;
            rewrite Hi, Hmc, Hrep; by eauto).
  all: try (exists (LSourceSend i); unfold step_source; rewrite Hsource, Hi; by eauto).
  all: try (exists (LWorkerClosed i); unfold step_worker; rewrite Hi;
            destruct serr; [destruct Hsrc as (_ & _ & _ & ->) | destruct Hsrc as (_ & ->)];
            by eauto).
  (* a worker at the send of its token *)
  all: try (pose proof (running_pos _ _ _ Hi eq_refl) as Hrunning;
            destruct (uploadTokens_closed s) eqn:Htc;
            [ exfalso; destruct Hclosed as [Hclosed _]; specialize (Hclosed eq_refl);
              first [ discriminate Hclosed | lia ] |];
            destruct (length (uploadTokens s) <? MaxUploadTokensPerCreateMediaItemsCall)
                     eqn:Hfull;
            [ exists (LWorkerSendToken i); unfold step_worker;
              rewrite Hi, Htc, Hfull; by eauto |]).
  all: try (destruct (uploadTokens s) as [|t' buffer] eqn:Hbuf; [discriminate Hfull|];
            exists LBatcherReceive; unfold step_batcher; rewrite Hbat, Hbuf; by eauto).
  all: try (destruct berr as [e|]; [|destruct Hb as [Hb _]; discriminate Hb];
            exists (LWorkerTokenDone i); unfold step_worker; rewrite Hi, Hb; by eauto).
  (* every worker has returned *)
  all: pose proof (proj2 (running_zero _) Hfa) as Hzero.
  all: try lia.
  all: try (exfalso; unfold all_returned in Hall; rewrite Hsource, Hfa, Hbat in Hall;
            discriminate Hall).
  all: try (assert (Hctx : ctx_done s = true);
            [ destruct Hpos as [Hpos | ->];
              [ destruct (workers s) as [|pc0 pcs] eqn:Hws; simpl in Hlen; [lia|];
                simpl in Hfa; apply andb_true_iff in Hfa as [Hpc0 _];
                destruct pc0 as [| | | |[e|]]; try done;
                apply Forall_cons in Hw as [Hw _]; simpl in Hw;
                [done | destruct Hsrc; congruence]
              | apply app_eq_nil in Hargs as [_ ->]; by destruct Hsrc ]
            | exists LSourceDone; unfold step_source; rewrite Hsource, Hctx; by eauto ]).
  assert (Htc : uploadTokens_closed s = true) by (by apply Hclosed).
  destruct (uploadTokens s) as [|t' buffer] eqn:Hbuf.
  - exists LBatcherClosed. unfold step_batcher. rewrite Hbat, Hbuf, Htc. eauto.
  - exists LBatcherReceive. unfold step_batcher. rewrite Hbat, Hbuf. eauto.
Qed.

(** From every state of a run a schedule leads to the return of [run]. *)
Lemma run_returns s :
  0 < uploadConcurrency \/ args = [] ->
  reachable s ->
  exists schedule s', exec schedule s = Some s' /\ is_MReturned (main s') = true.
Proof.
  intros Hpos. remember (measure s) as n eqn:Hn. revert s Hn.
  induction n as [n IH] using lt_wf_ind. intros s -> Hs.
  destruct (is_MReturned (main s)) eqn:Hret.
  - by exists [], s.
  - destruct (progress s Hpos Hs Hret) as (l & s1 & Hstep).
    pose proof (step_measure _ _ _ (reachable_Inv _ Hs) (reachable_started _ Hs) Hstep) as Hlt.
    destruct (IH _ Hlt s1 eq_refl) as (schedule & s' & Hexec & Hret');
      [by eapply reachable_step|].
    exists (l :: schedule), s'. simpl. by rewrite Hstep.
Qed.

(** *** A run without files *)

Definition idle_worker (pc : WorkerPc) : Prop := pc = WRange \/ pc = WReturned None.

(** With no file to upload nothing is uploaded, nothing is committed and
    nothing fails. *)
Record Quiet (s : State) : Prop := mkQuiet {
  quiet_opened : opened (world s) = [];
  quiet_posted : posted (world s) = [];
  quiet_created : created (world s) = [];
  quiet_commits : commits (world s) = [];
  quiet_g_err : g_err s = None;
  quiet_workers : Forall idle_worker (workers s);
  quiet_uploadTokens : uploadTokens s = [];
  quiet_source :
    match source s with
    | SRange (_ :: _) | SReturned (Some _) => False
    | _ => True
    end;
  quiet_batcher :
    match batcher_pc s with
    | BNotStarted | BRange [] | BFlush [] true | BReturned None => True
    | _ => False
    end
}.

Lemma Quiet_init : Quiet init.
Proof. by constructor. Qed.

Lemma Quiet_step s l s' :
  args = [] -> started s -> Quiet s -> step l s = Some s' -> Quiet s'.
Proof.
  unfold started. intros Hargs Hst [Ho Hp Hc Hcm Hg Hw Hu Hsrc Hb] Hstep.
  unfold_step Hstep.
  destruct l; step_cases Hstep.
  all: try match goal with
           | Hi : workers _ !! _ = Some _ |- _ =>
             pose proof (Forall_lookup_1 _ _ _ _ Hw Hi) as [? | ?]; try discriminate
           end.
  all: try match goal with final : bool |- _ => destruct final end.
  all: try done.
  all: unfold batcher_returns in *; autorewrite with pipeline in *; setters.
  all: try match goal with H : batcher_pc _ = _ |- _ => rewrite H in Hb end.
  all: try match goal with H : source _ = _ |- _ => rewrite H in Hsrc end.
  all: try done.
  all: try (destruct currentBatch; done).
  all: try (destruct batch; done).
  all: constructor; autorewrite with pipeline; setters; try done.
  - apply Forall_app. split; [done|]. constructor; [by left | constructor].
  - apply Forall_insert; [done | by right].
  - rewrite observe_observed. simpl. rewrite commits_observed, Hcm. done.
Qed.

Lemma reachable_Quiet s : args = [] -> reachable s -> Quiet s.
Proof.
  intros Hargs. induction 1 as [|s l s' Hs IH Hstep]; [apply Quiet_init|].
  eapply Quiet_step; [done | | exact IH | exact Hstep]. by apply reachable_started.
Qed.

(** *** A file that cannot be opened *)

(** C3 as the code has it.  [os.Open] is called inside the operation that
    [retry.Do] retries, so a file that cannot be opened is opened again on
    every attempt, [retries + 1] times in all, and no upload request is
    sent.  Only then does the worker return the error of the last attempt
    wrapped as "error uploading <filename>"; the errgroup cancels the
    context, and unless another goroutine failed before, [run] returns
    this error wrapped as "failed to upload photos".  The run does come to
    its end. *)
Theorem failed_open_is_retried_then_aborts (s : State) (i : nat) (filename : string) :
  reachable s ->
  workers s !! i = Some (WUpload filename) ->
  (forall k, snd (os_Open env k filename) <> None) ->
  exists s' e,
    step (LWorkerUpload i) s = Some s'
    /\ snd (os_Open env (length (opened (world s)) + retries env) filename) = Some e
    /\ opened (world s') = opened (world s) ++ repeat filename (S (retries env))
    /\ posted (world s') = posted (world s)
    /\ workers s' !! i = Some (WReturned (Some (ErrorUploading filename e)))
    /\ ctx_done s' = true
    /\ g_err s' = Some (default (ErrorUploading filename e) (g_err s))
    /\ (forall schedule s'' err,
           exec schedule s' = Some s'' -> main s'' = MReturned err ->
           err = Some (FailedToUploadPhotos (default (ErrorUploading filename e) (g_err s))))
    /\ (exists schedule s'',
           exec schedule s' = Some s'' /\ is_MReturned (main s'') = true).
Proof.
  intros Hs Hi Hfail.
  pose proof (reachable_Inv _ Hs) as [Hwg Hmain _ _ _ Hpanic].
  pose proof (reachable_Returns _ Hs) as [Hg _ _ _ _].
  pose proof (running_pos _ _ _ Hi eq_refl) as Hrunning.
  pose proof (lookup_lt_Some _ _ _ Hi) as Hlt.
  assert (Hpos : 0 < uploadConcurrency).
  { destruct (main s); destruct Hmain as [Hlen Hrest]; try lia.
    rewrite Hlen in Hlt. simpl in Hlt. lia. }
  destruct (snd (os_Open env (length (opened (world s)) + retries env) filename))
    as [e|] eqn:He; [|by apply Hfail in He].
  assert (Hstep : step (LWorkerUpload i) s
                  = Some (worker_returns i (Some (ErrorUploading filename e))
                            (set_world
                               (mkWorld (opened (world s) ++ repeat filename (S (retries env)))
                                        (posted (world s)) (created (world s))
                                        (batcher_trace (world s)) (emitted (world s))
                                        (sent (world s)) (selects (world s))) s))).
  { unfold step, step_worker. rewrite Hpanic, Hi.
    unfold upload_with_retry, bind, retry_Do.
    rewrite (retry_loop_unreadable env filename (retries env) Hfail), He. done. }
  eexists _, e. split; [exact Hstep|]. split; [done|].
  assert (Hs' : reachable (worker_returns i (Some (ErrorUploading filename e))
                            (set_world
                               (mkWorld (opened (world s) ++ repeat filename (S (retries env)))
                                        (posted (world s)) (created (world s))
                                        (batcher_trace (world s)) (emitted (world s))
                                        (sent (world s)) (selects (world s))) s)))
    by (by eapply reachable_step).
  revert Hs'. unfold worker_returns. setters.
  destruct (wg s) as [|n] eqn:Hn; [lia|]. intros Hs'.
  assert (Herr : g_err (g_returned (Some (ErrorUploading filename e))
                          (set_wg n
                             (set_workers
                                (<[i:=WReturned (Some (ErrorUploading filename e))]> (workers s))
                                (set_world
                                   (mkWorld (opened (world s) ++ repeat filename (S (retries env)))
                                            (posted (world s)) (created (world s))
                                            (batcher_trace (world s)) (emitted (world s))
                                            (sent (world s)) (selects (world s))) s))))
                 = Some (default (ErrorUploading filename e) (g_err s))).
  { rewrite g_returned_g_err. setters. by destruct (g_err s). }
  autorewrite with pipeline. setters.
  split; [done|]. split; [done|].
  split; [by apply list_lookup_insert_eq|].
  split; [by apply g_returned_ctx_done_Some|].
  split; [exact Herr|]. split.
  - intros schedule s'' err Hexec Hret.
    pose proof (exec_g_err _ _ _ _ Hexec Herr) as Hg''.
    pose proof (reachable_Returns _ (exec_reachable _ _ _ Hs' Hexec)) as [_ _ _ _ Hm].
    rewrite Hret in Hm. destruct Hm as [-> _]. by rewrite Hg''.
  - apply run_returns; [by left | done].
Qed.

(** *** The batcher inside the pipeline *)

Definition received_of (ev : BatcherEvent) : option UploadToken :=
  match ev with
  | Received uploadToken => Some uploadToken
  | _ => None
  end.

(** The tokens the batcher has taken from [uploadTokens], in order. *)
Definition received (w : World) : list UploadToken :=
  omap received_of (batcher_trace w).

(** The batch in progress. *)
Definition pending (pc : BatcherPc) : list UploadToken :=
  match pc with
  | BRange currentBatch => currentBatch
  | BFlush batch _ => batch
  | _ => []
  end.

Definition full (batch : list UploadToken) : Prop :=
  length batch = MaxUploadTokensPerCreateMediaItemsCall.

(** Every received token is in a committed batch or in the batch in
    progress, once; batches committed inside the loop are full; and unless
    a commit has failed, the remote service has accepted what was
    committed. *)
Record Batching (s : State) : Prop := mkBatching {
  bat_received :
    received (world s) = concat (commits (world s)) ++ pending (batcher_pc s);
  bat_shape :
    match batcher_pc s with
    | BNotStarted => commits (world s) = []
    | BRange currentBatch =>
      Forall full (commits (world s))
      /\ length currentBatch < MaxUploadTokensPerCreateMediaItemsCall
    | BFlush batch false => Forall full (commits (world s)) /\ full batch
    | BSendMessage _ false => Forall full (commits (world s))
    | BFlush batch true =>
      Forall full (commits (world s))
      /\ length batch < MaxUploadTokensPerCreateMediaItemsCall
    | BSendMessage _ true | BReturned _ =>
      well_batched MaxUploadTokensPerCreateMediaItemsCall (commits (world s))
    end;
  bat_accepted :
    match batcher_pc s with
    | BReturned (Some _) => True
    | _ => accepted (world s) = commits (world s)
    end
}.

Lemma Forall_full_well_batched batches :
  Forall full batches -> well_batched MaxUploadTokensPerCreateMediaItemsCall batches.
Proof.
  induction 1 as [|batch batches Hb _ IH]; [done|].
  apply well_batched_cons; [done | unfold MaxUploadTokensPerCreateMediaItemsCall; lia | done].
Qed.

Lemma well_batched_snoc batches batch :
  Forall full batches ->
  0 < length batch <= MaxUploadTokensPerCreateMediaItemsCall ->
  well_batched MaxUploadTokensPerCreateMediaItemsCall (batches ++ [batch]).
Proof.
  induction 1 as [|b batches Hb _ IH]; intros Hlen; [done|].
  simpl. apply well_batched_cons;
    [done | unfold MaxUploadTokensPerCreateMediaItemsCall; lia | by apply IH].
Qed.

Lemma Batching_init : Batching init.
Proof. by constructor. Qed.

Lemma Batching_step s l s' :
  started s -> Batching s -> step l s = Some s' -> Batching s'.
Proof.
  unfold started. intros Hst [Hrec Hshape Hacc] Hstep. unfold_step Hstep.
  destruct l; step_cases Hstep.
  all: try match goal with final : bool |- _ => destruct final end.
  all: unfold batcher_returns in *; autorewrite with pipeline in *.
  all: try match goal with
           | H : upload_with_retry _ _ _ = _ |- _ =>
             apply upload_with_retry_effect in H; destruct H as (Hcr & Htr & _)
           end.
  all: try match goal with
           | H : commit_with_retry _ _ _ _ = _ |- _ =>
             apply commit_with_retry_effect in H;
               destruct H as (Htr & _ & _ & _ & _ & _ & Hacc')
           end.
  all: try (destruct Hst as (_ & Hb & _)).
  all: prep.
  all: constructor; autorewrite with pipeline; setters;
    unfold received, commits, accepted, full in *; setters;
    try match goal with H : batcher_pc _ = _ |- _ => rewrite H in * end;
    rewrite ?Hcr, ?Htr; try done.
  all: simpl in *; rewrite ?omap_app, ?concat_app; simpl; rewrite ?app_nil_r in *;
    try done.
  all: try (rewrite Hrec; simpl; by rewrite ?app_nil_r, <- ?app_assoc).
  all: try (rewrite ?length_app in *; simpl in *; split; [done | lia]).
  all: try (split; [done | unfold MaxUploadTokensPerCreateMediaItemsCall; simpl; lia]).
  all: try (by apply Forall_full_well_batched).
  all: try (apply well_batched_snoc; [done | unfold full in *; lia]).
  all: try (apply Forall_app; split; [done | by repeat constructor]).
  all: try (unfold accepted in *; by rewrite Hacc', Hacc).
  - rewrite Hshape. split; [constructor | unfold MaxUploadTokensPerCreateMediaItemsCall; lia].
  - destruct batch; [|done]. by rewrite app_nil_r in Hrec.
  - destruct batch; [|done]. by rewrite app_nil_r in Hrec.
Qed.

Lemma reachable_Batching s : reachable s -> Batching s.
Proof.
  induction 1 as [|s l s' Hs IH Hstep]; [apply Batching_init|].
  eapply Batching_step; [|exact IH|exact Hstep]. by apply reachable_started.
Qed.

(** *** Where the uploaded tokens are *)

Definition held_of (pc : WorkerPc) : list UploadToken :=
  match pc with
  | WSendToken _ uploadToken => [uploadToken]
  | _ => []
  end.

(** The tokens that workers hold at the send of line 115. *)
Fixpoint held (pcs : list WorkerPc) : list UploadToken :=
  match pcs with
  | [] => []
  | pc :: pcs => held_of pc ++ held pcs
  end.

Lemma held_app pcs1 pcs2 : held (pcs1 ++ pcs2) = held pcs1 ++ held pcs2.
Proof. induction pcs1 as [|pc pcs1 IH]; simpl; [done | by rewrite IH, app_assoc]. Qed.

Lemma Permutation_swap_ends {A} (a b c : list A) :
  Permutation (a ++ b ++ c) (c ++ b ++ a).
Proof.
  rewrite Permutation_app_comm, <- app_assoc, !app_assoc.
  apply Permutation_app_tail, Permutation_app_comm.
Qed.

Lemma held_insert pcs i old new :
  pcs !! i = Some old ->
  Permutation (held (<[i := new]> pcs) ++ held_of old) (held pcs ++ held_of new).
Proof.
  revert i. induction pcs as [|pc pcs IH]; intros i Hi; [done|].
  destruct i as [|i]; simpl in *.
  - injection Hi as ->. rewrite <- !app_assoc. apply Permutation_swap_ends.
  - rewrite <- !app_assoc. apply Permutation_app_head. by apply IH.
Qed.

Lemma held_returned pcs : forallb is_WReturned pcs = true -> held pcs = [].
Proof.
  induction pcs as [|pc pcs IH]; simpl; [done|].
  intros H. apply andb_true_iff in H as [Hpc H]. rewrite (IH H).
  by destruct pc.
Qed.

(** As long as no goroutine has failed, every token returned by a
    successful upload is with the batcher, in the channel, or with the
    worker that is about to send it, exactly once. *)
Definition conserved (s : State) : Prop :=
  g_err s = None ->
  Permutation (uploaded (world s))
              (received (world s) ++ uploadTokens s ++ held (workers s)).

Lemma conserved_init : conserved init.
Proof. intros _. done. Qed.

Lemma g_returned_Some_g_err e s : g_err (g_returned (Some e) s) <> None.
Proof. rewrite g_returned_g_err. by destruct (g_err s). Qed.

Lemma conserved_step s l s' : conserved s -> step l s = Some s' -> conserved s'.
Proof.
  intros Hc Hstep Hg'.
  assert (Hg : g_err s = None).
  { destruct (g_err s) as [e|] eqn:Hg; [|done].
    pose proof (step_mono _ _ _ Hstep) as (_ & _ & _ & _ & Hmono).
    by rewrite (Hmono e Hg) in Hg'. }
  specialize (Hc Hg). clear Hg. revert Hg'. unfold_step Hstep.
  destruct l; step_cases Hstep.
  all: try match goal with final : bool |- _ => destruct final end.
  all: unfold batcher_returns in *.
  all: try (intros Hg'; by apply g_returned_Some_g_err in Hg').
  all: intros _.
  all: try match goal with
           | H : upload_with_retry _ _ _ = _ |- _ =>
             pose proof (upload_with_retry_uploaded _ _ _ _ _ _ H) as Hup;
               apply upload_with_retry_effect in H; destruct H as (_ & Htr & _)
           end.
  all: try match goal with
           | H : commit_with_retry _ _ _ _ = _ |- _ =>
             apply commit_with_retry_effect in H;
               destruct H as (Htr & _ & Hpo & _)
           end.
  all: try match goal with
           | Hi : workers _ !! _ = Some _ |- context [<[_ := ?new]> _] =>
             pose proof (held_insert _ _ _ new Hi) as Hheld; simpl in Hheld;
               rewrite ?app_nil_r in Hheld
           end.
  all: autorewrite with pipeline; setters; unfold uploaded, received in *; setters;
    simpl; rewrite ?Hup, ?Htr, ?Hpo, ?omap_app, ?held_app; simpl; rewrite ?app_nil_r.
  all: try exact Hc.
  all: try (rewrite Hheld; exact Hc).
  all: try (rewrite Hheld, Hc; by rewrite <- !app_assoc).
  all: try match goal with
           | H : uploadTokens _ = _ |- _ => rewrite ?H in *
           end.
  all: try exact Hc.
  all: try (rewrite Hc, <- app_assoc; done).
  rewrite Hc, <- Hheld, <- !app_assoc.
  do 2 apply Permutation_app_head. apply Permutation_app_comm.
Qed.

Lemma reachable_conserved s : reachable s -> conserved s.
Proof. induction 1; [apply conserved_init | by eapply conserved_step]. Qed.

(** The batcher fails only with the errgroup holding an error. *)
Definition batcher_failed (s : State) : Prop :=
  match batcher_pc s with
  | BReturned (Some _) => g_err s <> None
  | _ => True
  end.

Lemma batcher_failed_step s l s' :
  batcher_failed s -> step l s = Some s' -> batcher_failed s'.
Proof.
  unfold batcher_failed. intros Hf Hstep.
  pose proof (step_mono _ _ _ Hstep) as (_ & _ & _ & _ & Hmono).
  revert Hmono. unfold_step Hstep.
  destruct l; step_cases Hstep.
  all: try match goal with final : bool |- _ => destruct final end.
  all: unfold batcher_returns in *; autorewrite with pipeline; setters.
  all: try done.
  all: try (intros _; apply g_returned_Some_g_err).
  all: intros Hmono;
    try match goal with H : batcher_pc _ = _ |- _ => rewrite H in * end;
    try done.
  all: destruct (batcher_pc s) as [| | | |[failure|]]; try done.
  all: destruct (g_err s) as [first|] eqn:Hg; [|done].
  all: by rewrite (Hmono first eq_refl).
Qed.

Lemma reachable_batcher_failed s : reachable s -> batcher_failed s.
Proof. induction 1; [done | by eapply batcher_failed_step]. Qed.

(** X1. A run that returns nil has committed exactly what was uploaded: the
    tokens returned by successful uploads are, as a multiset, the tokens
    of the batches that the remote service accepted; these are all the
    batches handed to the commit, every one full except possibly the
    last; and no token is left in the channel. *)
Theorem successful_run_commits_the_uploads (s : State) :
  reachable s -> main s = MReturned None ->
  Permutation (uploaded (world s)) (concat (accepted (world s)))
  /\ accepted (world s) = commits (world s)
  /\ well_batched MaxUploadTokensPerCreateMediaItemsCall (commits (world s))
  /\ received (world s) = concat (commits (world s))
  /\ uploadTokens s = []
  /\ g_err s = None.
Proof.
  intros Hs Hm.
  pose proof (reachable_Returns _ Hs) as [_ _ Hb _ Hmain].
  pose proof (reachable_Batching _ Hs) as [Hrec Hshape Hacc].
  pose proof (reachable_batcher_failed _ Hs) as Hfail.
  pose proof (reachable_conserved _ Hs) as Hcons.
  rewrite Hm in Hmain. destruct Hmain as [Hg Hall].
  assert (Hnone : g_err s = None) by (by destruct (g_err s)).
  specialize (Hcons Hnone).
  unfold all_returned in Hall.
  apply andb_true_iff in Hall as [Hall Hbat]. apply andb_true_iff in Hall as [_ Hws].
  rewrite (held_returned _ Hws) in Hcons.
  unfold batcher_failed in Hfail.
  destruct (batcher_pc s) as [| | | |[e|]]; try done.
  destruct Hb as [_ Hbuf]. simpl in Hrec. rewrite app_nil_r in Hrec.
  rewrite Hbuf, !app_nil_r, Hrec in Hcons.
  rewrite Hacc. done.
Qed.

(** X2. No schedule of the pipeline is longer than a bound that is linear in
    the number of workers and of files. *)
Theorem every_run_is_finite (schedule : list Label) (s : State) :
  exec schedule init = Some s ->
  length schedule <= 2 * uploadConcurrency + 10 * length args + 15.
Proof.
  intros Hexec.
  pose proof (exec_measure schedule init s reachable_init Hexec) as H.
  unfold measure in H. simpl in H. lia.
Qed.

(** X3. With at least one worker the pipeline is never stuck before [run]
    returns, and from every state some schedule leads to that return. *)
Theorem run_is_never_stuck (s : State) :
  0 < uploadConcurrency -> reachable s ->
  (is_MReturned (main s) = false -> exists l, is_Some (step l s))
  /\ (exists schedule s', exec schedule s = Some s' /\ is_MReturned (main s') = true).
Proof.
  intros Hpos Hs. split.
  - apply progress; [by left | done].
  - apply run_returns; [by left | done].
Qed.

(** X4. What [run] returns is the first error given to the errgroup, wrapped,
    or nil when there was none; by then every goroutine of the group has
    returned, and [messages] is closed only then. *)
Theorem run_returns_the_first_error (s : State) (err : option error) :
  reachable s -> main s = MReturned err ->
  err = option_map FailedToUploadPhotos (g_err s)
  /\ all_returned s = true
  /\ panicked s = false.
Proof.
  intros Hs Hm.
  pose proof (reachable_Returns _ Hs) as [_ _ _ _ Hmain].
  pose proof (reachable_Inv _ Hs) as [_ _ _ _ _ Hpanic].
  rewrite Hm in Hmain. by destruct Hmain.
Qed.


(** *** The tokens in every run, failing or not *)

(** Every token that is with the batcher, in the channel or with a worker
    was returned by a successful upload, and no more often. *)
Definition accounted (s : State) : Prop :=
  submseteq (received (world s) ++ uploadTokens s ++ held (workers s))
            (uploaded (world s)).

Lemma accounted_init : accounted init.
Proof. unfold accounted. done. Qed.

Lemma accounted_step s l s' : accounted s -> step l s = Some s' -> accounted s'.
Proof.
  unfold accounted. intros Hc Hstep. unfold_step Hstep.
  destruct l; step_cases Hstep.
  all: try match goal with final : bool |- _ => destruct final end.
  all: unfold batcher_returns in *.
  all: try match goal with
           | H : upload_with_retry _ _ _ = _ |- _ =>
             pose proof (upload_with_retry_uploaded _ _ _ _ _ _ H) as Hup;
               apply upload_with_retry_effect in H; destruct H as (_ & Htr & _)
           end.
  all: try match goal with
           | H : commit_with_retry _ _ _ _ = _ |- _ =>
             apply commit_with_retry_effect in H;
               destruct H as (Htr & _ & Hpo & _)
           end.
  all: try match goal with
           | Hi : workers _ !! _ = Some _ |- context [<[_ := ?new]> _] =>
             pose proof (held_insert _ _ _ new Hi) as Hheld; simpl in Hheld;
               rewrite ?app_nil_r in Hheld
           end.
  all: autorewrite with pipeline; setters; unfold uploaded, received in *; setters;
    simpl; rewrite ?Hup, ?Htr, ?Hpo, ?omap_app, ?held_app; simpl; rewrite ?app_nil_r.
  all: try exact Hc.
  all: try (rewrite Hheld; exact Hc).
  all: try match goal with
           | H : uploadTokens _ = _ |- _ => rewrite ?H in *
           end.
  all: try exact Hc.
  all: try (rewrite <- app_assoc; exact Hc).
  - (* the upload of a file succeeded *)
    rewrite Hheld, !app_assoc. apply submseteq_app; [|done].
    by rewrite <- !app_assoc.
  - (* a token enters the channel *)
    etrans; [|exact Hc]. rewrite <- Hheld, <- !app_assoc.
    apply submseteq_app; [done|]. apply submseteq_app; [done|].
    apply Permutation_submseteq, Permutation_app_comm.
  - (* a worker is cancelled with its token in hand *)
    etrans; [|exact Hc]. rewrite <- Hheld, !app_assoc.
    apply submseteq_inserts_r. done.
Qed.

Lemma reachable_accounted s : reachable s -> accounted s.
Proof. induction 1; [apply accounted_init | by eapply accounted_step]. Qed.

(** At most one commit fails, the last one, and the batcher returns its
    error. *)
Definition one_failure (s : State) : Prop :=
  exists failed,
    commits (world s) = accepted (world s) ++ failed
    /\ length failed <= 1
    /\ (failed <> [] -> exists e, batcher_pc s = BReturned (Some e)).

Lemma one_failure_init : one_failure init.
Proof. exists []. repeat split; [simpl; lia | done]. Qed.

Lemma one_failure_step s l s' :
  started s -> one_failure s -> step l s = Some s' -> one_failure s'.
Proof.
  unfold started. intros Hst (failed & Hco & Hlen & Hfail) Hstep. unfold_step Hstep.
  destruct l; step_cases Hstep.
  all: try match goal with final : bool |- _ => destruct final end.
  all: unfold batcher_returns in *.
  all: try match goal with
           | H : upload_with_retry _ _ _ = _ |- _ =>
             apply upload_with_retry_effect in H; destruct H as (Hcr & Htr & _)
           end.
  all: try match goal with
           | H : commit_with_retry _ _ _ _ = _ |- _ =>
             apply commit_with_retry_effect in H;
               destruct H as (Htr & _ & _ & _ & _ & _ & Hacc')
           end.
  all: try (assert (failed = []) as ->
             by (destruct failed; [done|];
                 destruct Hfail as [e' He']; [done|];
                 first [ congruence | destruct Hst as (_ & Hb & _); congruence ])).
  all: unfold one_failure; autorewrite with pipeline; setters;
    unfold commits, accepted in *; setters; simpl;
    rewrite ?Hcr, ?Htr, ?omap_app; simpl; rewrite ?app_nil_r in *.
  all: try (exists failed; repeat split; try done;
            intros Hne; destruct (Hfail Hne) as [e' He']; exists e'; congruence).
  all: try (exists []; rewrite ?app_nil_r in *; repeat split;
            [congruence | simpl; lia | done]).
  all: unfold accepted in Hacc'; rewrite Hacc', ?app_nil_r, Hco.
  all: first [ exists [batch]; repeat split; [simpl; lia | by eauto]
             | exists []; rewrite app_nil_r; repeat split; [simpl; lia | done] ].
Qed.

Lemma reachable_one_failure s : reachable s -> one_failure s.
Proof.
  induction 1 as [|s l s' Hs IH Hstep]; [apply one_failure_init|].
  eapply one_failure_step; [|exact IH|exact Hstep]. by apply reachable_started.
Qed.

(** X5. In every state of every run, failing or not, the tokens of the
    batches handed to the commit are tokens that successful uploads
    returned, none more often than it was returned; the batches the
    remote service accepted are all the committed ones but possibly the
    last, whose failure ends the batcher. *)
Theorem committed_tokens_were_uploaded (s : State) :
  reachable s ->
  submseteq (concat (commits (world s))) (uploaded (world s))
  /\ submseteq (concat (accepted (world s))) (uploaded (world s))
  /\ exists failed,
      commits (world s) = accepted (world s) ++ failed
      /\ length failed <= 1
      /\ (failed <> [] -> exists e, batcher_pc s = BReturned (Some e)).
Proof.
  intros Hs.
  pose proof (reachable_accounted _ Hs) as Hacc. unfold accounted in Hacc.
  pose proof (reachable_Batching _ Hs) as [Hrec _ _].
  pose proof (reachable_one_failure _ Hs) as (failed & Hco & Hlen & Hfail).
  assert (Hcommits : submseteq (concat (commits (world s))) (uploaded (world s))).
  { etrans; [|exact Hacc]. rewrite Hrec, <- app_assoc. by apply submseteq_inserts_r. }
  split; [done|]. split; [|by exists failed].
  etrans; [|exact Hcommits]. rewrite Hco, concat_app. by apply submseteq_inserts_r.
Qed.

(** *** The calls to the remote service *)

(** The request that [CreateMediaItems] builds for a batch. *)
Definition request_of (batch : list UploadToken) : BatchCreateMediaItemsRequest :=
  mkBatchCreateMediaItemsRequest (newMediaItems_of batch).

(** A logged call made for [batch] and answered by the service. *)
Definition call_for (batch : list UploadToken)
           (call : BatchCreateMediaItemsRequest * option error) : Prop :=
  fst call = request_of batch
  /\ exists n, snd call = BatchCreate_Do env n (request_of batch).

Lemma commit_attempt_created MaxTokens batch w u err w' :
  length batch <= MaxTokens ->
  commit_attempt env MaxTokens batch w = ((u, err), w') ->
  created w' = created w ++ [(request_of batch, err)]
  /\ err = BatchCreate_Do env (length (created w)) (request_of batch).
Proof.
  intros Hlen. unfold commit_attempt, bind. rewrite CreateMediaItems_run.
  apply Nat.ltb_ge in Hlen. rewrite Hlen. cbn zeta.
  by intros [= <- <- <-].
Qed.

Lemma Retried_commit_created MaxTokens batch :
  length batch <= MaxTokens ->
  forall k w r w', Retried (commit_attempt env MaxTokens batch) k w r w' ->
  exists calls,
    created w' = created w ++ calls /\ length calls = k
    /\ Forall (call_for batch) calls
    /\ exists n, snd r = BatchCreate_Do env n (request_of batch).
Proof.
  intros Hlen k w r w' H.
  induction H as [w r w' Hop | w u e w1 k r w' Hop HR IH].
  - destruct r as [u err].
    apply commit_attempt_created in Hop as [Hcr Herr]; [|done].
    exists [(request_of batch, err)]. repeat split; try done.
    + repeat constructor; simpl; eauto.
    + simpl. eauto.
  - destruct IH as (calls & Hcr & Hk & Hcalls & Hlast).
    apply commit_attempt_created in Hop as [Hcr1 Herr1]; [|done].
    exists ((request_of batch, Some e) :: calls). repeat split.
    + rewrite Hcr, Hcr1, <- app_assoc. done.
    + simpl. by rewrite Hk.
    + constructor; [|done]. split; simpl; eauto.
    + done.
Qed.

(** A retried commit of a batch within the limit makes between one and
    [retries + 1] calls, all with the request for this batch, and returns
    an answer of the service. *)
Lemma commit_with_retry_created MaxTokens batch w err w' :
  length batch <= MaxTokens ->
  commit_with_retry env MaxTokens batch w = (err, w') ->
  exists calls,
    created w' = created w ++ calls
    /\ 1 <= length calls <= S (retries env)
    /\ Forall (call_for batch) calls
    /\ exists n, err = BatchCreate_Do env n (request_of batch).
Proof.
  intros Hlen. unfold commit_with_retry, bind.
  destruct (retry_loop_Retried (commit_attempt env MaxTokens batch) (retries env) w)
    as (k & Hk & HR & _).
  unfold retry_Do.
  destruct (retry_loop (retries env) (commit_attempt env MaxTokens batch) w) as [[u e] w1].
  simpl in HR. apply Retried_commit_created in HR as (calls & Hcr & Hlk & Hcalls & Hlast);
    [|done].
  simpl in Hlast. unfold observe, ret. intros [= <- <-]. simpl.
  exists calls. repeat split; try done; lia.
Qed.

(** A logged call that carries one of [batches], within the limit. *)
Definition within_limit (batches : list (list UploadToken))
           (call : BatchCreateMediaItemsRequest * option error) : Prop :=
  exists batch,
    In batch batches
    /\ 0 < length batch <= MaxUploadTokensPerCreateMediaItemsCall
    /\ call_for batch call.

Lemma within_limit_app batches more call :
  within_limit batches call -> within_limit (batches ++ more) call.
Proof.
  intros (batch & Hin & H). exists batch. split; [|done].
  apply in_app_iff. by left.
Qed.

(** Every call to the service carries a committed batch, which is within
    the limit; a commit costs at most [retries + 1] calls; and the error
    of a failed commit is an answer of the service. *)
Record Remote (s : State) : Prop := mkRemote {
  rem_calls : Forall (within_limit (commits (world s))) (created (world s));
  rem_count : length (created (world s)) <= S (retries env) * length (commits (world s));
  rem_errors :
    forall batch e,
      In (Commit batch (Some e)) (batcher_trace (world s)) ->
      exists n, BatchCreate_Do env n (request_of batch) = Some e
}.

Lemma Remote_init : Remote init.
Proof. constructor; simpl; [constructor | lia | done]. Qed.

Lemma Remote_step s l s' :
  Batching s -> Remote s -> step l s = Some s' -> Remote s'.
Proof.
  intros [_ Hshape _] [Hcalls Hcount Herrors] Hstep. unfold_step Hstep.
  destruct l; step_cases Hstep.
  all: try match goal with final : bool |- _ => destruct final end.
  all: unfold batcher_returns in *.
  all: try match goal with
           | H : upload_with_retry _ _ _ = _ |- _ =>
             apply upload_with_retry_effect in H; destruct H as (Hcr & Htr & _)
           end.
  all: prep.
  all: try match goal with
           | H : commit_with_retry _ _ _ _ = _ |- _ =>
             pose proof H as Heff;
             apply commit_with_retry_effect in Heff; destruct Heff as (Htr & _);
             apply commit_with_retry_created in H;
               [ destruct H as (calls & Hcr & Hk & Hfor & n & Hn)
               | unfold full, MaxUploadTokensPerCreateMediaItemsCall in *; lia ]
           end.
  all: constructor; autorewrite with pipeline; setters;
    unfold commits in *; setters; simpl;
    rewrite ?Hcr, ?Htr, ?omap_app; simpl; rewrite ?app_nil_r; try done.
  all: try (intros batch' e'; rewrite in_app_iff; simpl;
            intros [Hin | [Heq | []]]; [by apply Herrors | done]).
  all: try (apply Forall_app; split;
            [ eapply Forall_impl; [exact Hcalls|]; intros call; apply within_limit_app
            | eapply Forall_impl; [exact Hfor|];
              intros call Hcall; exists batch;
              split; [apply in_app_iff; right; by left|]; split; [|done];
              unfold full, MaxUploadTokensPerCreateMediaItemsCall in *; lia ]).
  all: try (rewrite !length_app; simpl; nia).
  all: intros batch' e'; rewrite in_app_iff; simpl;
    intros [Hin | [Heq | []]]; [by apply Herrors|];
    injection Heq as <- <-; by exists n.
Qed.

Lemma reachable_Remote s : reachable s -> Remote s.
Proof.
  induction 1 as [|s l s' Hs IH Hstep]; [apply Remote_init|].
  eapply Remote_step; [|exact IH|exact Hstep]. by apply reachable_Batching.
Qed.

(** X6. In every state of every run each request sent to the remote
    service carries the tokens of a batch handed to the commit, in their
    order, at least one and at most 50; a commit costs at most
    [retries + 1] requests; and the error of a failed commit is an answer
    of the service to the request for that batch, which is within the
    limit, so that the too-many-tokens error of [CreateMediaItems] never
    arises. *)
Theorem remote_requests_stay_within_the_limit (s : State) :
  reachable s ->
  Forall (fun call =>
            0 < length (NewMediaItems (fst call)) <= MaxUploadTokensPerCreateMediaItemsCall
            /\ In (map token_of (NewMediaItems (fst call))) (commits (world s))
            /\ exists n, snd call = BatchCreate_Do env n (fst call))
         (created (world s))
  /\ length (created (world s)) <= S (retries env) * length (commits (world s))
  /\ forall batch e,
      In (Commit batch (Some e)) (batcher_trace (world s)) ->
      length batch <= MaxUploadTokensPerCreateMediaItemsCall
      /\ exists n, BatchCreate_Do env n (request_of batch) = Some e.
Proof.
  intros Hs. pose proof (reachable_Remote _ Hs) as [Hcalls Hcount Herrors].
  split; [|split; [done|]].
  - eapply Forall_impl; [exact Hcalls|].
    intros [req answer] (batch & Hin & Hlen & Hreq & n & Hn). cbn [fst snd] in *. subst req.
    unfold request_of. cbn [NewMediaItems]. rewrite token_of_newMediaItems. split.
    + by rewrite newMediaItems_of_map, length_map.
    + split; [done | by exists n].
  - intros batch e Hin. split; [|by apply Herrors].
    pose proof (reachable_Batching _ Hs) as [Hrec Hshape _].
    assert (Hb : In batch (commits (world s))).
    { unfold commits. apply list_elem_of_In, list_elem_of_omap.
      exists (Commit batch (Some e)). split; [by apply list_elem_of_In | done]. }
    assert (Hall : Forall (fun b => 0 < length b <= MaxUploadTokensPerCreateMediaItemsCall)
                          (commits (world s))).
    { destruct (batcher_pc s) as [|cur|b [|]|b [|]|r];
        first [ apply well_batched_bound; exact Hshape
              | rewrite Hshape; constructor
              | apply well_batched_bound, Forall_full_well_batched; apply Hshape
              | apply well_batched_bound, Forall_full_well_batched; exact Hshape ]. }
    rewrite Forall_forall in Hall. apply list_elem_of_In in Hb.
    apply Hall in Hb. lia.
Qed.

(** *** The messages and the files *)

(** What the workers hold, gathered over all of them. *)
Definition gathered {A} (f : WorkerPc -> list A) (pcs : list WorkerPc) : list A :=
  concat (map f pcs).

Lemma gathered_app {A} (f : WorkerPc -> list A) pcs1 pcs2 :
  gathered f (pcs1 ++ pcs2) = gathered f pcs1 ++ gathered f pcs2.
Proof. unfold gathered. by rewrite map_app, concat_app. Qed.

Lemma gathered_insert {A} (f : WorkerPc -> list A) pcs i old new :
  pcs !! i = Some old ->
  Permutation (gathered f (<[i := new]> pcs) ++ f old) (gathered f pcs ++ f new).
Proof.
  unfold gathered. revert i. induction pcs as [|pc pcs IH]; intros i Hi; [done|].
  destruct i as [|i]; simpl in *.
  - injection Hi as ->. rewrite <- !app_assoc. apply Permutation_swap_ends.
  - rewrite <- !app_assoc. apply Permutation_app_head. by apply IH.
Qed.

Lemma gathered_returned {A} (f : WorkerPc -> list A) pcs :
  (forall err, f (WReturned err) = []) ->
  forallb is_WReturned pcs = true -> gathered f pcs = [].
Proof.
  intros Hf. unfold gathered. induction pcs as [|pc pcs IH]; simpl; [done|].
  intros H. apply andb_true_iff in H as [Hpc H]. rewrite (IH H).
  destruct pc; try done. by rewrite Hf.
Qed.

(** The message that the reporter has received and not yet printed. *)
Definition in_flight (pc : ReporterPc) : list message :=
  match pc with
  | RPrint msg => [msg]
  | _ => []
  end.

Definition file_of (msg : message) : option string :=
  match msg with
  | Uploaded filename => Some filename
  | UploadedBatch _ => None
  end.

Definition photos_of (msg : message) : option nat :=
  match msg with
  | Uploaded _ => None
  | UploadedBatch photos => Some photos
  end.

(** The file a worker is busy with. *)
Definition working_of (pc : WorkerPc) : list string :=
  match pc with
  | WUpload filename | WSendToken filename _ | WSendMessage filename => [filename]
  | _ => []
  end.

(** The file a worker has not uploaded yet. *)
Definition uploading_of (pc : WorkerPc) : list string :=
  match pc with
  | WUpload filename => [filename]
  | _ => []
  end.

(** The message the batcher is about to send. *)
Definition announced (pc : BatcherPc) : list nat :=
  match pc with
  | BSendMessage batch _ => [length batch]
  | _ => []
  end.

(** The reporter prints the messages in the order in which they were
    sent, and has at most one in hand. *)
Definition reported (s : State) : Prop :=
  sent (world s) = printed s ++ in_flight (reporter s).

Lemma reported_step s l s' :
  started s -> reported s -> step l s = Some s' -> reported s'.
Proof.
  unfold started, reported. intros Hst Hrep Hstep. unfold_step Hstep.
  destruct l; step_cases Hstep.
  all: try match goal with final : bool |- _ => destruct final end.
  all: unfold batcher_returns in *.
  all: try match goal with
           | H : upload_with_retry _ _ _ = _ |- _ =>
             apply upload_with_retry_effect in H; destruct H as (_ & _ & _ & Hse & _)
           end.
  all: try match goal with
           | H : commit_with_retry _ _ _ _ = _ |- _ =>
             apply commit_with_retry_effect in H;
               destruct H as (_ & _ & _ & _ & Hse & _)
           end.
  all: autorewrite with pipeline; setters; simpl; rewrite ?Hse.
  all: try match goal with H : reporter _ = _ |- _ => rewrite H in Hrep end.
  all: simpl in *; rewrite ?app_nil_r in *; try done.
  all: try (by rewrite Hrep).
  all: try (rewrite Hrep, <- app_assoc; done).
  destruct Hst as (_ & _ & Hr). rewrite Hr in Hrep. simpl in Hrep.
  by rewrite app_nil_r in Hrep.
Qed.

Lemma reachable_reported s : reachable s -> reported s.
Proof.
  induction 1 as [|s l s' Hs IH Hstep]; [done|].
  eapply reported_step; [|exact IH|exact Hstep]. by apply reachable_started.
Qed.

(** Every file that was reported or is with a worker was sent by the
    source, once for each time; and as long as no goroutine has failed,
    these are all the files the source has sent. *)
Record Files (s : State) : Prop := mkFiles {
  files_sent :
    submseteq (omap file_of (sent (world s)) ++ gathered working_of (workers s))
              (emitted (world s));
  files_all :
    g_err s = None ->
    Permutation (emitted (world s))
                (omap file_of (sent (world s)) ++ gathered working_of (workers s))
}.

Lemma Files_init : Files init.
Proof. constructor; simpl; try done. Qed.

Lemma step_g_err_None s l s' : step l s = Some s' -> g_err s' = None -> g_err s = None.
Proof.
  intros Hstep Hg'. destruct (g_err s) as [e|] eqn:Hg; [|done].
  pose proof (step_mono _ _ _ Hstep) as (_ & _ & _ & _ & Hmono).
  by rewrite (Hmono e Hg) in Hg'.
Qed.

Lemma Files_step s l s' : Files s -> step l s = Some s' -> Files s'.
Proof.
  intros [Hsent Hall] Hstep.
  pose proof (step_g_err_None _ _ _ Hstep) as Hg.
  unfold_step Hstep.
  destruct l; step_cases Hstep.
  all: try match goal with final : bool |- _ => destruct final end.
  all: unfold batcher_returns in *.
  all: try match goal with
           | H : upload_with_retry _ _ _ = _ |- _ =>
             apply upload_with_retry_effect in H; destruct H as (_ & _ & Hem & Hse & _)
           end.
  all: try match goal with
           | H : commit_with_retry _ _ _ _ = _ |- _ =>
             apply commit_with_retry_effect in H;
               destruct H as (_ & _ & _ & Hem & Hse & _)
           end.
  all: try match goal with
           | Hi : workers _ !! _ = Some _ |- context [<[_ := ?new]> _] =>
             pose proof (gathered_insert working_of _ _ _ new Hi) as Hwork;
               simpl in Hwork; rewrite ?app_nil_r in Hwork;
               try apply Permutation_app_inv_r in Hwork
           end.
  all: autorewrite with pipeline in *; setters.
  all: constructor; autorewrite with pipeline; setters; simpl;
    rewrite ?Hem, ?Hse, ?omap_app, ?gathered_app; simpl; rewrite ?app_nil_r.
  all: try done.
  all: try (intros Hg'; by apply g_returned_Some_g_err in Hg').
  all: try (rewrite Hwork; done).
  all: try (etrans; [|exact Hsent]; rewrite <- Hwork, app_assoc;
            by apply submseteq_inserts_r).
  - rewrite Hwork, app_assoc. by apply submseteq_app.
  - intros Hnone. rewrite Hwork, app_assoc. apply Permutation_app_tail. by apply Hall.
  - etrans; [|exact Hsent]. rewrite <- Hwork.
    apply Permutation_submseteq. solve_Permutation.
  - intros Hnone. rewrite (Hall Hnone), <- Hwork. solve_Permutation.
Qed.

Lemma reachable_Files s : reachable s -> Files s.
Proof. induction 1; [apply Files_init | by eapply Files_step]. Qed.

(** A worker asks for at most one token per file it was given, and as
    long as no goroutine has failed every file given to a worker has its
    token or is being uploaded. *)
Record Tokens (s : State) : Prop := mkTokens {
  tokens_bound :
    length (uploaded (world s)) + length (gathered uploading_of (workers s))
    <= length (emitted (world s));
  tokens_all :
    g_err s = None ->
    length (uploaded (world s)) + length (gathered uploading_of (workers s))
    = length (emitted (world s))
}.

Lemma Tokens_init : Tokens init.
Proof. constructor; simpl; try done. Qed.

Lemma Tokens_step s l s' : Tokens s -> step l s = Some s' -> Tokens s'.
Proof.
  intros [Hbound Hall] Hstep.
  pose proof (step_g_err_None _ _ _ Hstep) as Hg.
  unfold_step Hstep.
  destruct l; step_cases Hstep.
  all: try match goal with final : bool |- _ => destruct final end.
  all: unfold batcher_returns in *.
  all: try match goal with
           | H : upload_with_retry _ _ _ = _ |- _ =>
             pose proof (upload_with_retry_uploaded _ _ _ _ _ _ H) as Hup;
             apply upload_with_retry_effect in H; destruct H as (_ & _ & Hem & _)
           end.
  all: try match goal with
           | H : commit_with_retry _ _ _ _ = _ |- _ =>
             apply commit_with_retry_effect in H;
               destruct H as (_ & _ & Hpo & Hem & _)
           end.
  all: try match goal with
           | Hi : workers _ !! _ = Some _ |- context [<[_ := ?new]> _] =>
             pose proof (Permutation_length
                           (gathered_insert uploading_of _ _ _ new Hi)) as Hwork;
               rewrite !length_app in Hwork; simpl in Hwork
           end.
  all: autorewrite with pipeline in *; setters.
  all: constructor; autorewrite with pipeline; setters; unfold uploaded in *; simpl;
    rewrite ?Hem, ?Hup, ?Hpo, ?gathered_app, ?length_app; simpl.
  all: try done.
  all: try (intros Hg'; by apply g_returned_Some_g_err in Hg').
  all: try lia.
  all: intros Hnone; specialize (Hall (Hg Hnone)); lia.
Qed.

Lemma reachable_Tokens s : reachable s -> Tokens s.
Proof. induction 1; [apply Tokens_init | by eapply Tokens_step]. Qed.

(** The batch messages sent, and the one the batcher is about to send,
    are the sizes of the accepted batches, in order; a batcher that has
    failed or was cancelled may have left the last one unsent. *)
Definition announcing (s : State) : Prop :=
  match batcher_pc s with
  | BReturned (Some _) =>
    prefix (omap photos_of (sent (world s))) (map length (accepted (world s)))
  | pc =>
    map length (accepted (world s)) = omap photos_of (sent (world s)) ++ announced pc
  end.

Lemma announcing_step s l s' :
  started s -> announcing s -> step l s = Some s' -> announcing s'.
Proof.
  unfold started, announcing. intros Hst Han Hstep. unfold_step Hstep.
  destruct l; step_cases Hstep.
  all: try match goal with final : bool |- _ => destruct final end.
  all: unfold batcher_returns in *.
  all: try match goal with
           | H : upload_with_retry _ _ _ = _ |- _ =>
             apply upload_with_retry_effect in H; destruct H as (Hcr & _ & _ & Hse & _)
           end.
  all: try match goal with
           | H : commit_with_retry _ _ _ _ = _ |- _ =>
             apply commit_with_retry_effect in H;
               destruct H as (_ & _ & _ & _ & Hse & _ & Hacc)
           end.
  all: autorewrite with pipeline in *; setters.
  all: autorewrite with pipeline; setters; unfold accepted in *; simpl;
    rewrite ?Hcr, ?Hse, ?Hacc, ?omap_app, ?map_app; simpl; rewrite ?app_nil_r.
  all: try match goal with H : batcher_pc _ = _ |- _ => rewrite ?H in Han |- * end.
  all: simpl in *; rewrite ?app_nil_r in *.
  all: try done.
  all: try (by rewrite Han).
  all: try (rewrite Han; by apply prefix_app_r).
  all: try (destruct Hst as (_ & Hb & _); by rewrite Hb in Han).
  all: match goal with H : batcher_pc _ = _ |- _ => by rewrite H end.
Qed.

Lemma reachable_announcing s : reachable s -> announcing s.
Proof.
  induction 1 as [|s l s' Hs IH Hstep]; [done|].
  eapply announcing_step; [|exact IH|exact Hstep]. by apply reachable_started.
Qed.

(** *** The files that are opened *)

Lemma uploadFile_posted filename w r w' :
  uploadFile env filename w = (r, w') ->
  length (posted w') <= S (length (posted w)).
Proof.
  rewrite uploadFile_run. cbn zeta.
  destruct (os_Open env (length (opened w)) filename) as [f [err|]].
  - intros [= <- <-]. simpl. lia.
  - rewrite Upload_run.
    destruct (http_NewRequest_err _ _ _); [intros [= <- <-]; simpl; lia|].
    cbn zeta. destruct (client_Do _ _ _) as [resp [err|]].
    { intros [= <- <-]. simpl. rewrite length_app. simpl. lia. }
    destruct (Body resp) as [rawToken [err|]]; intros [= <- <-]; simpl;
      rewrite length_app; simpl; lia.
Qed.

Lemma Retried_uploadFile_opened filename :
  forall k w r w', Retried (uploadFile env filename) k w r w' ->
  opened w' = opened w ++ repeat filename k
  /\ length (posted w') <= length (posted w) + k.
Proof.
  intros k w r w' H.
  induction H as [w r w' Hop | w a e w1 k r w' Hop HR [IHo IHp]].
  - pose proof (uploadFile_posted _ _ _ _ Hop).
    apply uploadFile_effect in Hop as [_ Hop]. split; [done | lia].
  - pose proof (uploadFile_posted _ _ _ _ Hop).
    apply uploadFile_effect in Hop as [_ Hop].
    split; [|lia]. rewrite IHo, Hop, <- app_assoc. done.
Qed.

(** A retried upload opens its file once for every attempt, and nothing
    else; every attempt sends at most one request. *)
Lemma upload_with_retry_opened filename w r w' :
  upload_with_retry env filename w = (r, w') ->
  exists k,
    1 <= k <= S (retries env)
    /\ opened w' = opened w ++ repeat filename k
    /\ length (posted w') <= length (posted w) + k.
Proof.
  unfold upload_with_retry, bind, retry_Do.
  destruct (retry_loop_Retried (uploadFile env filename) (retries env) w)
    as (k & Hk & HR & _).
  destruct (retry_loop (retries env) (uploadFile env filename) w) as [[tok e] w1].
  apply Retried_uploadFile_opened in HR. simpl in HR.
  destruct e; intros [= <- <-]; by exists k.
Qed.

(** Only files sent by the source are opened; a file given to a worker
    has been opened or is about to be; and the opens and the requests are
    bounded by the attempts the retry policy allows. *)
Record Opens (s : State) : Prop := mkOpens {
  opens_emitted : forall filename, In filename (opened (world s)) -> In filename (emitted (world s));
  opens_started :
    forall filename,
      In filename (emitted (world s)) ->
      In filename (opened (world s)) \/ In filename (gathered uploading_of (workers s));
  opens_bound :
    length (opened (world s))
    + S (retries env) * length (gathered uploading_of (workers s))
    <= S (retries env) * length (emitted (world s));
  opens_posted : length (posted (world s)) <= length (opened (world s))
}.

Lemma Opens_init : Opens init.
Proof. constructor; simpl; try done; lia. Qed.

Lemma In_gathered_insert {A} (f : WorkerPc -> list A) pcs i old new x :
  pcs !! i = Some old ->
  In x (gathered f pcs) -> In x (gathered f (<[i := new]> pcs)) \/ In x (f old).
Proof.
  intros Hi Hin.
  pose proof (gathered_insert f _ _ _ new Hi) as Hperm.
  assert (Hx : In x (gathered f (<[i := new]> pcs) ++ f old)).
  { eapply Permutation_in; [symmetry; exact Hperm|]. apply in_app_iff. by left. }
  by apply in_app_iff in Hx.
Qed.

Lemma In_gathered_insert_new {A} (f : WorkerPc -> list A) pcs i old new x :
  pcs !! i = Some old ->
  In x (gathered f pcs) \/ In x (f new) ->
  f old = [] ->
  In x (gathered f (<[i := new]> pcs)).
Proof.
  intros Hi Hin Hold.
  pose proof (gathered_insert f _ _ _ new Hi) as Hperm.
  rewrite Hold, app_nil_r in Hperm.
  eapply Permutation_in; [symmetry; exact Hperm|]. by apply in_app_iff.
Qed.

Lemma In_gathered_lookup {A} (f : WorkerPc -> list A) pcs i pc x :
  pcs !! i = Some pc -> In x (f pc) -> In x (gathered f pcs).
Proof.
  unfold gathered. revert i. induction pcs as [|pc' pcs IH]; intros i Hi Hx; [done|].
  simpl. apply in_app_iff. destruct i as [|i]; simpl in Hi.
  - injection Hi as ->. by left.
  - right. by eapply IH.
Qed.

(** A file that a worker is busy with was sent by the source. *)
Lemma Files_working s i pc filename :
  Files s -> workers s !! i = Some pc -> In filename (working_of pc) ->
  In filename (emitted (world s)).
Proof.
  intros [Hsent _] Hi Hf. apply list_elem_of_In.
  eapply elem_of_submseteq; [|exact Hsent].
  apply list_elem_of_In, in_app_iff. right. by eapply In_gathered_lookup.
Qed.

Lemma In_repeat_pos {A} (x : A) k : 1 <= k -> In x (repeat x k).
Proof. destruct k; [lia|]. intros _. by left. Qed.

Lemma Opens_step s l s' :
  Inv s -> Files s -> Opens s -> step l s = Some s' -> Opens s'.
Proof.
  intros [Hwg _ _ _ _ _] Hfiles [Hem Hst Hbound Hpo] Hstep.
  unfold_step Hstep.
  destruct l; step_cases Hstep.
  all: try match goal with final : bool |- _ => destruct final end.
  all: unfold batcher_returns in *.
  all: try match goal with
           | H : upload_with_retry _ ?filename _ = _, Hi : workers _ !! _ = Some _ |- _ =>
             pose proof (upload_with_retry_opened _ _ _ _ H) as (k & Hk & Hop' & Hpo');
             pose proof (In_repeat_pos filename k (proj1 Hk)) as Hrep;
             pose proof (Files_working _ _ _ filename Hfiles Hi (or_introl eq_refl)) as Hfile;
             apply upload_with_retry_effect in H; destruct H as (_ & _ & Hem' & _)
           end.
  all: try match goal with
           | H : commit_with_retry _ _ _ _ = _ |- _ =>
             apply commit_with_retry_effect in H;
               destruct H as (_ & Hop' & Hpo' & Hem' & _)
           end.
  all: try match goal with
           | Hi : workers _ !! _ = Some _ |- context [<[_ := ?new]> _] =>
             pose proof (Permutation_length
                           (gathered_insert uploading_of _ _ _ new Hi)) as Hwork;
               rewrite !length_app in Hwork; simpl in Hwork;
             pose proof (fun x => In_gathered_insert uploading_of _ _ _ new x Hi) as Hin;
             pose proof (fun x => In_gathered_insert_new uploading_of _ _ _ new x Hi) as Hnew;
             simpl in Hin, Hnew
           end.
  all: autorewrite with pipeline in *; setters.
  all: try match goal with
           | Hzero : wg _ = 0, Hi : workers _ !! _ = Some _ |- _ =>
             exfalso; pose proof (running_pos _ _ _ Hi eq_refl); lia
           end.
  all: constructor; autorewrite with pipeline; setters; simpl;
    rewrite ?Hem', ?Hop', ?Hpo', ?gathered_app, ?length_app, ?repeat_length; simpl;
    rewrite ?app_nil_r.
  all: try done.
  all: try nia.
  all: intros x; specialize (Hem x); specialize (Hst x);
    try specialize (Hin x); try specialize (Hnew x);
    rewrite ?in_app_iff in *; simpl; intros Hx;
    repeat match goal with
           | H : In ?y (repeat ?z _) |- _ =>
             tryif unify y z then fail else apply repeat_spec in H
           | H : _ \/ _ |- _ => destruct H
           end;
    subst; intuition (subst; tauto).
Qed.

Lemma reachable_Opens s : reachable s -> Opens s.
Proof.
  induction 1 as [|s l s' Hs IH Hstep]; [apply Opens_init|].
  eapply Opens_step; [| |exact IH|exact Hstep];
    [by apply reachable_Inv | by apply reachable_Files].
Qed.

(** *** Where the error of a run comes from *)

(** An error with which the surroundings answered an upload. *)
Definition upload_failure (e : error) : Prop :=
  (exists n filename, snd (os_Open env n filename) = Some e)
  \/ (exists method url, http_NewRequest_err env method url = Some e)
  \/ (exists n req, snd (client_Do env n req) = Some e)
  \/ (exists n req, snd (Body (fst (client_Do env n req))) = Some e).

Lemma uploadFile_error filename w uploadToken e w' :
  uploadFile env filename w = ((uploadToken, Some e), w') -> upload_failure e.
Proof.
  rewrite uploadFile_run. cbn zeta. unfold upload_failure.
  destruct (os_Open env (length (opened w)) filename) as [f [err|]] eqn:Hopen.
  - intros [= <- <- <-]. left. exists (length (opened w)), filename. by rewrite Hopen.
  - rewrite Upload_run.
    destruct (http_NewRequest_err _ _ _) eqn:Hnew.
    { intros [= <- <- <-]. right. left. eauto. }
    cbn zeta. simpl.
    destruct (client_Do _ _ _) as [resp [err|]] eqn:Hdo.
    { intros [= <- <- <-]. right. right. left. eexists _, _. by rewrite Hdo. }
    destruct (Body resp) as [rawToken [err|]] eqn:Hbody; intros [= <- <- <-].
    right. right. right. eexists _, _. rewrite Hdo. simpl. by rewrite Hbody.
Qed.

Lemma Retried_uploadFile_error filename :
  forall k w r w', Retried (uploadFile env filename) k w r w' ->
  forall e, snd r = Some e -> upload_failure e.
Proof.
  intros k w r w' H. induction H as [w [tok err] w' Hop | w a e w1 k r w' Hop HR IH].
  - simpl. intros e ->. by eapply uploadFile_error.
  - done.
Qed.

(** A retried upload fails with the error of its last attempt, annotated
    with the file's name. *)
Lemma upload_with_retry_error filename w uploadToken e w' :
  upload_with_retry env filename w = ((uploadToken, Some e), w') ->
  exists cause, e = ErrorUploading filename cause /\ upload_failure cause.
Proof.
  unfold upload_with_retry, bind, retry_Do.
  destruct (retry_loop_Retried (uploadFile env filename) (retries env) w)
    as (k & _ & HR & _).
  destruct (retry_loop (retries env) (uploadFile env filename) w) as [[tok err] w1].
  pose proof (Retried_uploadFile_error _ _ _ _ _ HR) as Herr. simpl in Herr.
  destruct err as [cause|]; intros [= <- <- <-].
  exists cause. split; [done | by apply Herr].
Qed.

(** What the first error of a run can be: the failure of the upload of
    one of [files], or the answer of the service to the request for a
    batch. *)
Definition root_cause (files : list string) (e : error) : Prop :=
  (exists filename cause,
      e = ErrorUploading filename cause /\ In filename files /\ upload_failure cause)
  \/ (exists n batch, BatchCreate_Do env n (request_of batch) = Some e).

Lemma root_cause_mono files files' e :
  (forall filename, In filename files -> In filename files') ->
  root_cause files e -> root_cause files' e.
Proof.
  intros Hsub [(filename & cause & -> & Hin & Hc) | H]; [left | by right].
  exists filename, cause. auto.
Qed.

(** The context is cancelled only by the first error of the group or by
    the return of [g.Wait()]; and the first error has a root cause. *)
Record Cause (s : State) : Prop := mkCause {
  cause_ctx : ctx_done s = true -> g_err s <> None \/ messages_closed s = true;
  cause_err : forall e, g_err s = Some e -> root_cause (emitted (world s)) e
}.

Lemma Cause_init : Cause init.
Proof. by constructor. Qed.

Lemma step_emitted_In s l s' filename :
  step l s = Some s' -> In filename (emitted (world s)) -> In filename (emitted (world s')).
Proof.
  intros Hstep Hin.
  destruct (step_emitted _ _ _ Hstep) as [-> | (i & f & rest & _ & _ & _ & ->)]; [done|].
  apply in_app_iff. by left.
Qed.

Lemma Cause_step s l s' :
  Inv s -> Files s -> Batching s -> Cause s -> step l s = Some s' -> Cause s'.
Proof.
  intros [_ _ _ _ Hmsg _] Hfiles [_ Hshape _] [Hctx Herr] Hstep.
  destruct (g_err s) as [e0|] eqn:Hg0.
  { (* the group already holds its first error *)
    pose proof (step_mono _ _ _ Hstep) as (_ & _ & _ & _ & Hge).
    constructor.
    - intros _. left. by rewrite (Hge e0 Hg0).
    - intros e'. rewrite (Hge e0 Hg0). intros [= <-].
      eapply root_cause_mono; [|by apply Herr].
      intros filename. by apply step_emitted_In with (l := l). }
  assert (Hcancel : ctx_done s = true -> all_returned s = true).
  { intros Hc. destruct (Hctx Hc) as [Hg | Hm]; [done | by apply Hmsg]. }
  clear Herr.
  unfold_step Hstep.
  destruct l; step_cases Hstep.
  all: try match goal with final : bool |- _ => destruct final end.
  all: unfold batcher_returns in *.
  all: try (pose proof (Hcancel eq_refl) as Hall; returned_contra Hall).
  all: try match goal with
           | H : upload_with_retry _ ?filename _ = (_, Some _, _),
             Hi : workers _ !! _ = Some _ |- _ =>
             pose proof (upload_with_retry_error _ _ _ _ _ H) as (cause & -> & Hcause);
             pose proof (Files_working _ _ _ filename Hfiles Hi (or_introl eq_refl)) as Hfile
           end.
  all: try match goal with
           | H : upload_with_retry _ _ _ = _ |- _ =>
             apply upload_with_retry_effect in H; destruct H as (_ & _ & Hem' & _)
           end.
  all: prep.
  all: try match goal with
           | H : commit_with_retry _ _ _ _ = (Some _, _) |- _ =>
             pose proof H as Hcommit;
             apply commit_with_retry_created in Hcommit;
               [ destruct Hcommit as (_ & _ & _ & _ & n & Hn)
               | unfold full, MaxUploadTokensPerCreateMediaItemsCall in *; lia ]
           end.
  all: try match goal with
           | H : commit_with_retry _ _ _ _ = _ |- _ =>
             apply commit_with_retry_effect in H;
               destruct H as (_ & _ & _ & Hem' & _)
           end.
  all: constructor; autorewrite with pipeline; rewrite ?g_returned_g_err; setters;
    rewrite ?Hg0.
  all: try done.
  all: try (intros _; by right).
  all: try (intros _; by left).
  all: try (intros Hc; destruct (Hctx Hc) as [Hg | Hm]; [done | by right]).
  all: intros e' [= <-]; unfold root_cause; rewrite ?Hem'.
  all: first [ left; by eauto | right; by eauto ].
Qed.

Lemma reachable_Cause s : reachable s -> Cause s.
Proof.
  induction 1 as [|s l s' Hs IH Hstep]; [apply Cause_init|].
  eapply Cause_step; [| | |exact IH|exact Hstep];
    [by apply reachable_Inv | by apply reachable_Files | by apply reachable_Batching].
Qed.

(** The source fails only with the errgroup holding an error. *)
Definition source_failed (s : State) : Prop :=
  match source s with
  | SReturned (Some _) => g_err s <> None
  | _ => True
  end.

Lemma source_failed_step s l s' :
  source_failed s -> step l s = Some s' -> source_failed s'.
Proof.
  unfold source_failed. intros Hf Hstep.
  pose proof (step_mono _ _ _ Hstep) as (_ & _ & _ & _ & Hmono).
  revert Hmono. unfold_step Hstep.
  destruct l; step_cases Hstep.
  all: try match goal with final : bool |- _ => destruct final end.
  all: unfold batcher_returns in *; autorewrite with pipeline; setters.
  all: try done.
  all: try (intros _; apply g_returned_Some_g_err).
  all: intros Hmono;
    try match goal with H : source _ = _ |- _ => rewrite H in * end;
    try done.
  all: destruct (source s) as [| |[failure|]]; try done.
  all: destruct (g_err s) as [first|] eqn:Hg; [|done].
  all: by rewrite (Hmono first eq_refl).
Qed.

Lemma reachable_source_failed s : reachable s -> source_failed s.
Proof. induction 1; [done | by eapply source_failed_step]. Qed.

(** What holds when [run] has returned nil. *)
Lemma returned_nil s :
  reachable s -> main s = MReturned None ->
  g_err s = None
  /\ source s = SReturned None
  /\ forallb is_WReturned (workers s) = true
  /\ batcher_pc s = BReturned None.
Proof.
  intros Hs Hm.
  pose proof (reachable_Returns _ Hs) as [_ _ _ _ Hmain].
  rewrite Hm in Hmain. destruct Hmain as [Hg Hall].
  assert (Hnone : g_err s = None) by (by destruct (g_err s)).
  pose proof (reachable_source_failed _ Hs) as Hsrc.
  pose proof (reachable_batcher_failed _ Hs) as Hbat.
  unfold source_failed in Hsrc. unfold batcher_failed in Hbat.
  unfold all_returned in Hall.
  apply andb_true_iff in Hall as [Hall Hb]. apply andb_true_iff in Hall as [Hsr Hws].
  split; [done|]. split; [|split; [done|]].
  - by destruct (source s) as [| |[e|]].
  - by destruct (batcher_pc s) as [| | | |[e|]].
Qed.

(** X7. In every state of every run the reporter has printed the
    messages in the order in which they were sent, all of them but at
    most the one it has received and not yet printed; the files that were
    reported are among the arguments, none more often than it is given;
    and the batch messages are the sizes of the first accepted batches,
    in order. *)
Theorem reporter_prints_in_sending_order (s : State) :
  reachable s ->
  sent (world s) = printed s ++ in_flight (reporter s)
  /\ submseteq (omap file_of (sent (world s))) args
  /\ prefix (omap photos_of (sent (world s))) (map length (accepted (world s))).
Proof.
  intros Hs. split; [by apply reachable_reported|]. split.
  - pose proof (reachable_Files _ Hs) as [Hsent _].
    pose proof (reachable_source_inv _ Hs) as (rest & Hargs & _).
    etrans; [|etrans; [exact Hsent|]].
    + by apply submseteq_inserts_r.
    + rewrite <- Hargs. by apply submseteq_inserts_r.
  - pose proof (reachable_announcing _ Hs) as Han. unfold announcing in Han.
    destruct (batcher_pc s) as [| | | |[e|]]; try done;
      rewrite Han; by apply prefix_app_r.
Qed.

(** X8. When [run] returns nil, every argument was sent to a worker and
    opened; the [uploaded] messages name exactly the arguments, each as
    often as it is given; the batch messages are the sizes of the
    accepted batches, in order; and the uploads returned as many tokens
    as there are arguments, all of which are in accepted batches. *)
Theorem successful_run_handles_every_file (s : State) :
  reachable s -> main s = MReturned None ->
  emitted (world s) = args
  /\ (forall filename, In filename args -> In filename (opened (world s)))
  /\ Permutation args (omap file_of (sent (world s)))
  /\ omap photos_of (sent (world s)) = map length (accepted (world s))
  /\ length (uploaded (world s)) = length args
  /\ length (concat (accepted (world s))) = length args.
Proof.
  intros Hs Hm.
  destruct (returned_nil _ Hs Hm) as (Hg & Hsrc & Hws & Hbat).
  pose proof (reachable_source_inv _ Hs) as (rest & Hargs & Hsource).
  rewrite Hsrc in Hsource. destruct Hsource as [-> _]. rewrite app_nil_r in Hargs.
  pose proof (reachable_Files _ Hs) as [_ Hall].
  pose proof (reachable_Tokens _ Hs) as [_ Htok].
  pose proof (reachable_Opens _ Hs) as [_ Hopen _ _].
  pose proof (reachable_announcing _ Hs) as Han. unfold announcing in Han.
  pose proof (reachable_conserved _ Hs Hg) as Hcons.
  pose proof (reachable_Batching _ Hs) as [Hrec _ Hacc].
  pose proof (reachable_Returns _ Hs) as [_ _ Hb _ _].
  rewrite Hbat in Han, Hrec, Hacc, Hb. simpl in Han, Hrec. destruct Hb as [_ Hbuf].
  rewrite app_nil_r in Han, Hrec.
  specialize (Hall Hg). specialize (Htok Hg).
  rewrite (gathered_returned working_of _ (fun _ => eq_refl) Hws), app_nil_r in Hall.
  rewrite (gathered_returned uploading_of _ (fun _ => eq_refl) Hws) in Htok, Hopen.
  rewrite (held_returned _ Hws), Hbuf, Hrec, !app_nil_r, <- Hacc in Hcons.
  rewrite Hargs in *. simpl in Htok. rewrite Nat.add_0_r in Htok.
  repeat split; try done.
  - intros filename Hin. destruct (Hopen filename Hin) as [H | []]. done.
  - by rewrite <- (Permutation_length Hcons).
Qed.

(** X9. In every state of every run only arguments have been opened;
    the files are opened at most [retries + 1] times for each file given
    to a worker, at most one request is sent for each open, at most one
    token is obtained for each file given to a worker, and at most one
    file is given to a worker for each argument. *)
Theorem only_the_arguments_are_opened (s : State) :
  reachable s ->
  (forall filename, In filename (opened (world s)) -> In filename args)
  /\ length (opened (world s)) <= S (retries env) * length (emitted (world s))
  /\ length (posted (world s)) <= length (opened (world s))
  /\ length (uploaded (world s)) <= length (emitted (world s))
  /\ length (emitted (world s)) <= length args.
Proof.
  intros Hs.
  pose proof (reachable_Opens _ Hs) as [Hem _ Hbound Hpo].
  pose proof (reachable_Tokens _ Hs) as [Htok _].
  pose proof (reachable_source_inv _ Hs) as (rest & Hargs & _).
  repeat split; try done; try lia.
  - intros filename Hin. rewrite <- Hargs. apply in_app_iff. left. by apply Hem.
  - rewrite <- Hargs, length_app. lia.
Qed.

(** X10. In every state of every run the context is cancelled only once
    the errgroup holds an error or [run] has returned; and the first
    error of the errgroup, which [run] returns, has one of two origins:
    it is the failure of the upload of one of the arguments, annotated
    with its name, or the answer of the remote service to the request
    for a batch. *)
Theorem first_error_is_a_root_cause (s : State) :
  reachable s ->
  (ctx_done s = true -> g_err s <> None \/ is_MReturned (main s) = true)
  /\ forall e,
      g_err s = Some e ->
      (exists filename cause,
          e = ErrorUploading filename cause /\ In filename args /\ upload_failure cause)
      \/ (exists n batch, BatchCreate_Do env n (request_of batch) = Some e).
Proof.
  intros Hs.
  pose proof (reachable_Cause _ Hs) as [Hctx Herr].
  pose proof (reachable_Inv _ Hs) as [_ _ _ _ Hmsg _].
  pose proof (reachable_source_inv _ Hs) as (rest & Hargs & _).
  split.
  - intros Hc. destruct (Hctx Hc) as [Hg | Hm]; [by left|]. right. by apply Hmsg.
  - intros e He. eapply root_cause_mono; [|by apply Herr].
    intros filename Hin. rewrite <- Hargs. apply in_app_iff. by left.
Qed.

(** *** A run without workers *)

(** With no worker and a file to send, nothing ever happens to the
    source. *)
Definition waiting (s : State) : Prop :=
  workers s = [] /\ g_err s = None /\ ctx_done s = false
  /\ is_MReturned (main s) = false
  /\ (source s = SNotStarted \/ source s = SRange args)
  /\ uploadTokens s = []
  /\ pending (batcher_pc s) = []
  /\ match batcher_pc s with
     | BSendMessage _ _ | BReturned (Some _) => False
     | _ => True
     end.

Lemma waiting_step s l s' :
  uploadConcurrency = 0 -> args <> [] ->
  waiting s -> step l s = Some s' -> waiting s'.
Proof.
  unfold waiting.
  intros Hzero Hargs (Hws & Hg & Hctx & Hm & Hsrc & Htok & Hpend & Hbat) Hstep.
  unfold_step Hstep. rewrite Hws, Hctx, Htok in Hstep.
  destruct l; simpl in Hstep; try done; step_cases Hstep.
  all: try match goal with final : bool |- _ => destruct final end.
  all: unfold batcher_returns in *; autorewrite with pipeline; setters.
  all: try match goal with H : batcher_pc _ = _ |- _ => rewrite H in * end.
  all: simpl in *; prep; subst.
  all: try (destruct Hsrc; congruence).
  all: try match goal with
           | H : all_returned _ = true |- _ =>
             apply all_returned_source in H; destruct Hsrc as [Hs | Hs];
               rewrite Hs in H; discriminate H
           end.
  all: try lia.
  all: try (destruct batch; [|done]; simpl in *; try lia).
  all: repeat split; try done; auto.
Qed.

Lemma reachable_waiting s :
  uploadConcurrency = 0 -> args <> [] -> reachable s -> waiting s.
Proof.
  intros Hzero Hargs. induction 1 as [|s l s' Hs IH Hstep].
  - unfold waiting. simpl. repeat split; auto.
  - by eapply waiting_step.
Qed.

End Steps.

(** C5. A run without files: in every state of every run no file has been
    opened, no upload request and no commit call has been made, and no
    goroutine has failed; [run] can only return nil; as long as it has not
    returned some goroutine can take a step, and no schedule is longer
    than [measure]; so the run comes to its end and succeeds.  In general
    a final flush that finds the batch in progress empty makes no commit
    call and returns nil. *)
Theorem empty_run_succeeds env (uploadConcurrency MaxTokens : nat) (w : World) :
  (forall s,
      reachable env [] uploadConcurrency s ->
      opened (world s) = [] /\ posted (world s) = []
      /\ created (world s) = [] /\ commits (world s) = []
      /\ g_err s = None
      /\ (forall err, main s = MReturned err -> err = None)
      /\ (is_MReturned (main s) = false ->
          exists l, is_Some (step env [] uploadConcurrency l s))
      /\ (forall schedule s',
             exec env [] uploadConcurrency schedule s = Some s' ->
             length schedule <= measure [] uploadConcurrency s))
  /\ (exists schedule s',
         exec env [] uploadConcurrency schedule init = Some s'
         /\ main s' = MReturned None)
  /\ uploadBatch env MaxTokens [] w = (None, w)
  /\ batcher env MaxTokens [] w = (None, observed [StreamClosed] w).
Proof.
  assert (Hret : forall s err,
             reachable env [] uploadConcurrency s -> main s = MReturned err -> err = None).
  { intros s err Hs Hm.
    pose proof (reachable_Quiet env [] uploadConcurrency s eq_refl Hs) as [_ _ _ _ Hg _ _ _ _].
    pose proof (reachable_Returns env [] uploadConcurrency s Hs) as [_ _ _ _ Hmain].
    rewrite Hm, Hg in Hmain. by destruct Hmain. }
  split; [|split; [|split; reflexivity]].
  - intros s Hs.
    pose proof (reachable_Quiet env [] uploadConcurrency s eq_refl Hs)
      as [Ho Hp Hc Hcm Hg _ _ _ _].
    repeat (split; [done|]). split; [|split].
    + intros err. by apply Hret.
    + apply progress; [by right | done].
    + intros schedule s' Hexec.
      pose proof (exec_measure env [] uploadConcurrency schedule s s' Hs Hexec). lia.
  - destruct (run_returns env [] uploadConcurrency init) as (schedule & s' & Hexec & Hm);
      [by right | apply reachable_init |].
    exists schedule, s'. split; [done|].
    destruct (main s') as [| | | | | |err] eqn:Hmain; try done.
    f_equal. apply (Hret s'); [|done].
    eapply exec_reachable; [apply reachable_init | exact Hexec].
Qed.

(** An environment in which no file can be opened; [retry.Do] makes three
    attempts. *)
Definition env_unreadable : Env :=
  mkEnv (fun _ filename => ("", Some (External "no such file or directory")))
        (fun p => p) (fun _ _ => None)
        (fun _ _ => (mkResponse 200 ("token", None), None))
        (fun _ _ => None) 2 (fun _ => CaseSend).

(** An environment in which only the first call of [os.Open] fails. *)
Definition env_flaky : Env :=
  mkEnv (fun k filename =>
           match k with
           | 0 => ("", Some (External "too many open files"))
           | _ => ("bytes", None)
           end)
        (fun p => p) (fun _ _ => None)
        (fun _ _ => (mkResponse 200 ("token", None), None))
        (fun _ _ => None) 2 (fun _ => CaseSend).

(** C3 fails as stated: a failure of [os.Open] is retried.  With three
    attempts a file that cannot be opened is opened three times before the
    worker gives up, and a file whose first [os.Open] fails is uploaded
    all the same, with no error at all. *)
Lemma open_failure_is_retried :
  opened (snd (upload_with_retry env_unreadable "missing.jpg" empty_world))
  = ["missing.jpg"; "missing.jpg"; "missing.jpg"]%string
  /\ fst (upload_with_retry env_unreadable "missing.jpg" empty_world)
     = (""%string,
        Some (ErrorUploading "missing.jpg" (External "no such file or directory")))
  /\ opened (snd (upload_with_retry env_flaky "a.jpg" empty_world))
     = ["a.jpg"; "a.jpg"]%string
  /\ fst (upload_with_retry env_flaky "a.jpg" empty_world) = ("token"%string, None).
Proof. repeat split. Qed.

(** One worker about to upload a file that cannot be opened. *)
Definition unreadable_start : State :=
  default init
          (exec env_unreadable ["missing.jpg"%string] 1
                [LMain; LMain; LMain; LMain; LMain; LMain; LSourceSend 0] init).

Lemma unreadable_start_reachable :
  reachable env_unreadable ["missing.jpg"%string] 1 unreadable_start.
Proof.
  apply (exec_reachable env_unreadable ["missing.jpg"%string] 1
           [LMain; LMain; LMain; LMain; LMain; LMain; LSourceSend 0] init);
    [apply reachable_init | vm_compute; reflexivity].
Qed.

Lemma failed_open_is_retried_then_aborts_witness :
  exists s' e,
    step env_unreadable ["missing.jpg"%string] 1 (LWorkerUpload 0) unreadable_start = Some s'
    /\ snd (os_Open env_unreadable
              (length (opened (world unreadable_start)) + retries env_unreadable)
              "missing.jpg") = Some e
    /\ opened (world s')
       = opened (world unreadable_start)
                ++ repeat "missing.jpg"%string (S (retries env_unreadable))
    /\ posted (world s') = posted (world unreadable_start)
    /\ workers s' !! 0 = Some (WReturned (Some (ErrorUploading "missing.jpg" e)))
    /\ ctx_done s' = true
    /\ g_err s' = Some (default (ErrorUploading "missing.jpg" e) (g_err unreadable_start))
    /\ (forall schedule s'' err,
           exec env_unreadable ["missing.jpg"%string] 1 schedule s' = Some s'' ->
           main s'' = MReturned err ->
           err = Some (FailedToUploadPhotos
                         (default (ErrorUploading "missing.jpg" e) (g_err unreadable_start))))
    /\ (exists schedule s'',
           exec env_unreadable ["missing.jpg"%string] 1 schedule s' = Some s''
           /\ is_MReturned (main s'') = true).
Proof.
  apply (failed_open_is_retried_then_aborts env_unreadable ["missing.jpg"%string] 1
           unreadable_start 0 "missing.jpg").
  - apply unreadable_start_reachable.
  - vm_compute. reflexivity.
  - intros k. simpl. discriminate.
Defined.

(** The run of [unreadable_start] after the upload has failed and the
    source has taken its [<-ctx.Done()] case. *)
Definition cancelled_source : State :=
  default init
          (exec env_unreadable ["missing.jpg"; "b.jpg"]%string 1
                [LMain; LMain; LMain; LMain; LMain; LMain; LSourceSend 0;
                 LWorkerUpload 0; LSourceDone] init).

Lemma cancelled_source_reachable :
  reachable env_unreadable ["missing.jpg"; "b.jpg"]%string 1 cancelled_source.
Proof.
  apply (exec_reachable env_unreadable ["missing.jpg"; "b.jpg"]%string 1
           [LMain; LMain; LMain; LMain; LMain; LMain; LSourceSend 0;
            LWorkerUpload 0; LSourceDone] init);
    [apply reachable_init | vm_compute; reflexivity].
Qed.

Example cancelled_source_state :
  source cancelled_source = SReturned (Some Canceled)
  /\ emitted (world cancelled_source) = ["missing.jpg"%string]
  /\ filenames_closed cancelled_source = true.
Proof. repeat split. Qed.

(** A run with one file and one worker, to its end. *)
Definition one_file_schedule : list Label :=
  [LMain; LMain; LMain; LMain; LMain; LMain;
   LSourceSend 0; LSourceReturn; LWorkerUpload 0; LWorkerSendToken 0;
   LWorkerSendMessage 0; LReporterPrint; LWorkerClosed 0; LCloser; LCloser;
   LBatcherReceive; LBatcherClosed; LBatcherFlush; LBatcherSendMessage;
   LReporterPrint; LMain].

Definition one_file_end : State :=
  default (init) (exec env_ok ["a.jpg"%string] 1 one_file_schedule init).

Lemma one_file_end_reachable : reachable env_ok ["a.jpg"%string] 1 one_file_end.
Proof.
  apply (exec_reachable env_ok ["a.jpg"%string] 1 one_file_schedule init);
    [apply reachable_init | vm_compute; reflexivity].
Qed.

Lemma tokens_closed_after_workers_returned_witness :
  wg one_file_end = running (workers one_file_end)
  /\ (closer one_file_end = CClose \/ closer one_file_end = CDone -> wg one_file_end = 0)
  /\ (uploadTokens_closed one_file_end = true ->
      length (workers one_file_end) = 1
      /\ Forall (fun pc => is_WReturned pc = true) (workers one_file_end))
  /\ (forall i filename uploadToken,
         workers one_file_end !! i = Some (WSendToken filename uploadToken) ->
         uploadTokens_closed one_file_end = false)
  /\ panicked one_file_end = false.
Proof.
  apply (tokens_closed_after_workers_returned env_ok ["a.jpg"%string] 1 one_file_end).
  apply one_file_end_reachable.
Defined.


(** With two workers, one of them waiting for a filename while the other
    has failed: the context is cancelled, and both cases of the select of
    line 84 can fire. *)
Definition source_at_select : State :=
  default init
          (exec env_unreadable ["missing.jpg"; "b.jpg"]%string 2
                [LMain; LMain; LMain; LMain; LMain; LMain; LMain; LSourceSend 0;
                 LWorkerUpload 0] init).


Example select_may_take_either_case :
  ctx_done source_at_select = true
  /\ source source_at_select = SRange ["b.jpg"%string]
  /\ is_Some (step env_unreadable ["missing.jpg"; "b.jpg"]%string 2
                   LSourceDone source_at_select)
  /\ is_Some (step env_unreadable ["missing.jpg"; "b.jpg"]%string 2
                   (LSourceSend 1) source_at_select).
Proof. repeat split; vm_compute; eauto. Qed.




Lemma successful_run_commits_the_uploads_witness :
  Permutation (uploaded (world one_file_end)) (concat (accepted (world one_file_end)))
  /\ accepted (world one_file_end) = commits (world one_file_end)
  /\ well_batched MaxUploadTokensPerCreateMediaItemsCall (commits (world one_file_end))
  /\ received (world one_file_end) = concat (commits (world one_file_end))
  /\ uploadTokens one_file_end = []
  /\ g_err one_file_end = None.
Proof.
  apply (successful_run_commits_the_uploads env_ok ["a.jpg"%string] 1 one_file_end).
  - apply one_file_end_reachable.
  - vm_compute. reflexivity.
Defined.

Lemma every_run_is_finite_witness :
  length one_file_schedule <= 2 * 1 + 10 * length ["a.jpg"%string] + 15.
Proof.
  apply (every_run_is_finite env_ok ["a.jpg"%string] 1 one_file_schedule one_file_end).
  vm_compute. reflexivity.
Defined.

Lemma run_is_never_stuck_witness :
  (is_MReturned (main unreadable_start) = false ->
   exists l, is_Some (step env_unreadable ["missing.jpg"%string] 1 l unreadable_start))
  /\ (exists schedule s',
         exec env_unreadable ["missing.jpg"%string] 1 schedule unreadable_start = Some s'
         /\ is_MReturned (main s') = true).
Proof.
  apply (run_is_never_stuck env_unreadable ["missing.jpg"%string] 1 unreadable_start).
  - lia.
  - apply unreadable_start_reachable.
Defined.

(** The run of [unreadable_start] to its end. *)
Definition unreadable_end : State :=
  default init
          (exec env_unreadable ["missing.jpg"%string] 1
                [LWorkerUpload 0; LSourceReturn; LCloser; LCloser; LBatcherClosed;
                 LBatcherFlush; LMain] unreadable_start).

Lemma unreadable_end_reachable :
  reachable env_unreadable ["missing.jpg"%string] 1 unreadable_end.
Proof.
  apply (exec_reachable env_unreadable ["missing.jpg"%string] 1
           [LWorkerUpload 0; LSourceReturn; LCloser; LCloser; LBatcherClosed;
            LBatcherFlush; LMain] unreadable_start);
    [apply unreadable_start_reachable | vm_compute; reflexivity].
Qed.

Lemma run_returns_the_first_error_witness :
  Some (FailedToUploadPhotos
          (ErrorUploading "missing.jpg" (External "no such file or directory")))
  = option_map FailedToUploadPhotos (g_err unreadable_end)
  /\ all_returned unreadable_end = true
  /\ panicked unreadable_end = false.
Proof.
  apply (run_returns_the_first_error env_unreadable ["missing.jpg"%string] 1 unreadable_end).
  - apply unreadable_end_reachable.
  - vm_compute. reflexivity.
Defined.

(** Fifty files and one worker: each file is uploaded and its token
    received by the batcher, which then flushes. *)
Definition one_file_round : list Label :=
  [LSourceSend 0; LWorkerUpload 0; LWorkerSendToken 0; LWorkerSendMessage 0;
   LReporterPrint; LBatcherReceive].

Definition fifty_files_schedule : list Label :=
  [LMain; LMain; LMain; LMain; LMain; LMain]
    ++ concat (repeat one_file_round 50) ++ [LBatcherFlush].

Definition fifty_files_flushed : State :=
  default init (exec env_ok (repeat "a.jpg"%string 50) 1 fifty_files_schedule init).

(** The commit of a full batch is made while the worker is still running
    and neither [filenames] nor [uploadTokens] is closed. *)
Example full_batch_is_committed_before_any_close :
  commits (world fifty_files_flushed) = [repeat "token"%string 50]
  /\ workers fifty_files_flushed = [WRange]
  /\ source fifty_files_flushed = SRange []
  /\ filenames_closed fifty_files_flushed = false
  /\ uploadTokens_closed fifty_files_flushed = false.
Proof. vm_compute. repeat split. Qed.


(** X11. Without a worker and with a file to upload, [run] never
    returns: the source waits for ever at the select of line 84, since
    no worker receives and nothing cancels the context; the run can
    reach a state in which no goroutine can take a step.  This is what
    the check of lines 43-45 excludes. *)
Theorem without_workers_run_never_returns env (args : list string) :
  args <> [] ->
  (forall s, reachable env args 0 s -> is_MReturned (main s) = false)
  /\ exists schedule s,
      exec env args 0 schedule init = Some s
      /\ forall l, step env args 0 l s = None.
Proof.
  intros Hargs. split.
  - intros s Hs. by apply (reachable_waiting env args 0 s eq_refl Hargs Hs).
  - destruct args as [|filename rest]; [done|].
    exists [LMain; LMain; LMain; LMain; LMain; LCloser; LCloser; LBatcherClosed;
            LBatcherFlush].
    eexists. split; [vm_compute; reflexivity|].
    intros l. destruct l; vm_compute; reflexivity.
Qed.

Lemma without_workers_run_never_returns_witness :
  (forall s, reachable env_ok ["a.jpg"%string] 0 s -> is_MReturned (main s) = false)
  /\ exists schedule s,
      exec env_ok ["a.jpg"%string] 0 schedule init = Some s
      /\ forall l, step env_ok ["a.jpg"%string] 0 l s = None.
Proof. apply (without_workers_run_never_returns env_ok ["a.jpg"%string]). done. Defined.

Lemma committed_tokens_were_uploaded_witness :
  submseteq (concat (commits (world one_file_end))) (uploaded (world one_file_end))
  /\ submseteq (concat (accepted (world one_file_end))) (uploaded (world one_file_end))
  /\ exists failed,
      commits (world one_file_end) = accepted (world one_file_end) ++ failed
      /\ length failed <= 1
      /\ (failed <> [] -> exists e, batcher_pc one_file_end = BReturned (Some e)).
Proof.
  apply (committed_tokens_were_uploaded env_ok ["a.jpg"%string] 1 one_file_end).
  apply one_file_end_reachable.
Defined.

Lemma remote_requests_stay_within_the_limit_witness :
  Forall (fun call =>
            0 < length (NewMediaItems (fst call)) <= MaxUploadTokensPerCreateMediaItemsCall
            /\ In (map token_of (NewMediaItems (fst call))) (commits (world one_file_end))
            /\ exists n, snd call = BatchCreate_Do env_ok n (fst call))
         (created (world one_file_end))
  /\ length (created (world one_file_end))
     <= S (retries env_ok) * length (commits (world one_file_end))
  /\ forall batch e,
      In (Commit batch (Some e)) (batcher_trace (world one_file_end)) ->
      length batch <= MaxUploadTokensPerCreateMediaItemsCall
      /\ exists n, BatchCreate_Do env_ok n (request_of batch) = Some e.
Proof.
  apply (remote_requests_stay_within_the_limit env_ok ["a.jpg"%string] 1 one_file_end).
  apply one_file_end_reachable.
Defined.

(** The run of one file in which [run] returns right after the batcher
    has handed its message to the reporter. *)
Definition one_file_unprinted_schedule : list Label :=
  [LMain; LMain; LMain; LMain; LMain; LMain;
   LSourceSend 0; LSourceReturn; LWorkerUpload 0; LWorkerSendToken 0;
   LWorkerSendMessage 0; LReporterPrint; LWorkerClosed 0; LCloser; LCloser;
   LBatcherReceive; LBatcherClosed; LBatcherFlush; LBatcherSendMessage;
   LMain].

Definition one_file_unprinted : State :=
  default init (exec env_ok ["a.jpg"%string] 1 one_file_unprinted_schedule init).

Lemma one_file_unprinted_reachable :
  reachable env_ok ["a.jpg"%string] 1 one_file_unprinted.
Proof.
  apply (exec_reachable env_ok ["a.jpg"%string] 1 one_file_unprinted_schedule init);
    [apply reachable_init | vm_compute; reflexivity].
Qed.

(** The reporter is not a goroutine of the errgroup: [run] can return,
    and the program exit, with the last message received and not yet
    printed. *)
Example last_message_may_stay_unprinted :
  main one_file_unprinted = MReturned None
  /\ sent (world one_file_unprinted) = [Uploaded "a.jpg"; UploadedBatch 1]
  /\ printed one_file_unprinted = [Uploaded "a.jpg"]
  /\ reporter one_file_unprinted = RPrint (UploadedBatch 1).
Proof. vm_compute. repeat split. Qed.

Lemma reporter_prints_in_sending_order_witness :
  sent (world one_file_unprinted)
  = printed one_file_unprinted ++ in_flight (reporter one_file_unprinted)
  /\ submseteq (omap file_of (sent (world one_file_unprinted))) ["a.jpg"%string]
  /\ prefix (omap photos_of (sent (world one_file_unprinted)))
            (map length (accepted (world one_file_unprinted))).
Proof.
  apply (reporter_prints_in_sending_order env_ok ["a.jpg"%string] 1 one_file_unprinted).
  apply one_file_unprinted_reachable.
Defined.

Lemma successful_run_handles_every_file_witness :
  emitted (world one_file_end) = ["a.jpg"%string]
  /\ (forall filename,
         In filename ["a.jpg"%string] -> In filename (opened (world one_file_end)))
  /\ Permutation ["a.jpg"%string] (omap file_of (sent (world one_file_end)))
  /\ omap photos_of (sent (world one_file_end))
     = map length (accepted (world one_file_end))
  /\ length (uploaded (world one_file_end)) = length ["a.jpg"%string]
  /\ length (concat (accepted (world one_file_end))) = length ["a.jpg"%string].
Proof.
  apply (successful_run_handles_every_file env_ok ["a.jpg"%string] 1 one_file_end).
  - apply one_file_end_reachable.
  - vm_compute. reflexivity.
Defined.

Lemma only_the_arguments_are_opened_witness :
  (forall filename,
      In filename (opened (world unreadable_end)) -> In filename ["missing.jpg"%string])
  /\ length (opened (world unreadable_end))
     <= S (retries env_unreadable) * length (emitted (world unreadable_end))
  /\ length (posted (world unreadable_end)) <= length (opened (world unreadable_end))
  /\ length (uploaded (world unreadable_end)) <= length (emitted (world unreadable_end))
  /\ length (emitted (world unreadable_end)) <= length ["missing.jpg"%string].
Proof.
  apply (only_the_arguments_are_opened env_unreadable ["missing.jpg"%string] 1
           unreadable_end).
  apply unreadable_end_reachable.
Defined.

Lemma first_error_is_a_root_cause_witness :
  (ctx_done unreadable_end = true ->
   g_err unreadable_end <> None \/ is_MReturned (main unreadable_end) = true)
  /\ forall e,
      g_err unreadable_end = Some e ->
      (exists filename cause,
          e = ErrorUploading filename cause
          /\ In filename ["missing.jpg"%string]
          /\ upload_failure env_unreadable cause)
      \/ (exists n batch, BatchCreate_Do env_unreadable n (request_of batch) = Some e).
Proof.
  apply (first_error_is_a_root_cause env_unreadable ["missing.jpg"%string] 1
           unreadable_end).
  apply unreadable_end_reachable.
Defined.

End Pipeline.

(** ** Before the pipeline: [main], the flags and the OAuth token
       (lines 22-72 and 184-221) *)

Module Startup.

(** The flags after [flag.Parse()] (lines 32-37) and [flag.Args()]. *)
Record Flags : Type := mkFlags {
  credentialsFile : string;
  tokenFile : string;
  uploadConcurrency : Z;
  Args : list string
}.

(** [*oauth2.Token] and [*oauth2.Config], as opaque values; a nil token
    is [None]. *)
Definition Token : Type := string.
Definition Config : Type := string.

(** The bits given to [os.OpenFile]. *)
Inductive OpenFlag : Type := O_RDWR | O_CREATE.

(** What [run] returns. *)
Inductive RunError : Type :=
| New (text : string)                       (* errors.New(text) *)
| Wrap (cause : error) (message : string)   (* errors.Wrap(cause, message) *)
| FromPipeline (err : error).               (* line 179, as [Pipeline] has it *)

(** The calls the program makes before the pipeline starts, each with
    the answer it got. *)
Inductive Call : Type :=
| ReadFile (filename : string) (answer : string * option error)
    (* ioutil.ReadFile *)
| ConfigFromJSON (jsonKey : string) (answer : Config * option error)
    (* google.ConfigFromJSON(jsonKey, photoslibrary.PhotoslibraryScope) *)
| Open (name : string) (err : option error)
    (* os.Open *)
| OpenFile (name : string) (flag : list OpenFlag) (perm : Z) (err : option error)
    (* os.OpenFile *)
| Close (name : string)
    (* the deferred f.Close() *)
| Decode (name : string) (answer : Token * option error)
    (* json.NewDecoder(f).Decode(token) *)
| Encode (name : string) (token : option Token) (err : option error)
    (* json.NewEncoder(f).Encode(token) *)
| AuthCodeURL (config : Config) (url : string)
    (* config.AuthCodeURL("state", oauth2.AccessTypeOffline) *)
| Printf (format : string) (operands : list string)
| Scan (answer : string * option error)
    (* fmt.Scan(&authCode) *)
| Exchange (config : Config) (authCode : string) (answer : option Token * option error)
    (* config.Exchange(ctx, authCode) *)
| Client (config : Config) (token : option Token)
    (* oauthConfig.Client(ctx, token) *)
| NewService (err : option error)
    (* photoslibrary.New(client) *)
| Fprintf_Stderr (format : string) (argv0 : string) (err : RunError)
| Exit (code : Z).
    (* os.Exit *)

(** The answers of the surroundings. *)
Record Surroundings : Type := mkSurroundings {
  ioutil_ReadFile : string -> string * option error;
  google_ConfigFromJSON : string -> Config * option error;
  os_Open : string -> option error;
  json_Decode : string -> Token * option error;
  os_IsNotExist : error -> bool;
  config_AuthCodeURL : Config -> string;
  fmt_Scan : string * option error;
  config_Exchange : Config -> string -> option Token * option error;
  os_OpenFile : string -> option error;
  json_Encode : string -> option Token -> option error;
  photoslibrary_New : Config -> option Token -> bool * option error
    (* whether the service is not nil, and the error *)
}.

(** State passing over the log of calls, oldest first. *)
Definition T (A : Type) : Type := list Call -> A * list Call.

Definition unit_ {A} (a : A) : T A := fun log => (a, log).

Definition then_ {A B} (m : T A) (k : A -> T B) : T B :=
  fun log => let (a, log') := m log in k a log'.

Notation "x <~ m ;; k" := (then_ m (fun x => k))
  (at level 100, m at next level, right associativity).

Definition call {A} (c : Call) (answer : A) : T A := fun log => (answer, log ++ [c]).

(** [gphotos.Uploader] (uploader.go:18-22). *)
Record Uploader : Type := mkUploader {
  client : Config * option Token;   (* the OAuth client, by what it was made from *)
  service : bool                    (* whether [service] is not nil *)
}.

Section Program.

Variable sur : Surroundings.

(** [os.IsNotExist(err)]; it is false of a nil error. *)
Definition IsNotExist (err : option error) : bool :=
  match err with
  | Some e => os_IsNotExist sur e
  | None => false
  end.

(** [func readTokenFromFile(tokenFile string)] (lines 184-198), which
    returns a token and an error. *)
Definition readTokenFromFile (tokenFile : string) : T (option Token * option error) :=
  let err := os_Open sur tokenFile in
  _ <~ call (Open tokenFile err) tt ;;
  match err with
  | Some err => unit_ (None, Some err)
  | None =>
    let '(token, err) := json_Decode sur tokenFile in
    _ <~ call (Decode tokenFile (token, err)) tt ;;
    match err with
    | Some err =>
      _ <~ call (Close tokenFile) tt ;;
      unit_ (None, Some err)
    | None =>
      _ <~ call (Close tokenFile) tt ;;
      (* return token, err: the err of os.Open, which is nil here *)
      unit_ (Some token, None)
    end
  end.

(** [func fetchToken(ctx context.Context, config *oauth2.Config)]
    (lines 200-211), which returns a token and an error. *)
Definition fetchToken (config : Config) : T (option Token * option error) :=
  let url := config_AuthCodeURL sur config in
  _ <~ call (AuthCodeURL config url) tt ;;
  _ <~ call (Printf "Go to the following URL, then paste the authorization token: %v\n\n"
                    [url]) tt ;;
  _ <~ call (Printf "Auth code: " []) tt ;;
  let '(authCode, err) := fmt_Scan sur in
  _ <~ call (Scan (authCode, err)) tt ;;
  match err with
  | Some err => unit_ (None, Some err)
  | None =>
    let answer := config_Exchange sur config authCode in
    call (Exchange config authCode answer) answer
  end.

(** [func saveTokenToFile(tokenFile string, token *oauth2.Token) error]
    (lines 213-221); the mode 0600 is 384. *)
Definition saveTokenToFile (tokenFile : string) (token : option Token) : T (option error) :=
  let err := os_OpenFile sur tokenFile in
  _ <~ call (OpenFile tokenFile [O_RDWR; O_CREATE] 384 err) tt ;;
  match err with
  | Some err => unit_ (Some err)
  | None =>
    let err := json_Encode sur tokenFile token in
    _ <~ call (Encode tokenFile token err) tt ;;
    _ <~ call (Close tokenFile) tt ;;
    unit_ err
  end.

(** [func NewUploader(client *http.Client) *Uploader] (uploader.go:24-32):
    the error of [photoslibrary.New] is dropped. *)
Definition NewUploader (oauthClient : Config * option Token) : T Uploader :=
  let '(service, err) := photoslibrary_New sur (fst oauthClient) (snd oauthClient) in
  _ <~ call (NewService err) tt ;;
  unit_ (mkUploader oauthClient service).

(** Where [run] stands after line 72: it has returned an error, or it
    starts the pipeline of lines 74-181 with this uploader, these
    arguments and this many workers. *)
Inductive Outcome : Type :=
| Returned (err : RunError)
| Started (u : Uploader) (args : list string) (workers : nat).

(** Lines 57-65: the token is read from the file, or fetched when the
    file does not exist. *)
Definition token_of_file_or_fetched (tokenFile : string) (oauthConfig : Config) :
  T (RunError + option Token) :=
  r <~ readTokenFromFile tokenFile ;;
  let '(token, err) := r in
  if IsNotExist err then
    r <~ fetchToken oauthConfig ;;
    let '(token, err) := r in
    match err with
    | Some err => unit_ (inl (Wrap err "failed to fetch token"))
    | None => unit_ (inr token)
    end
  else
    match err with
    | Some err => unit_ (inl (Wrap err "failed to load token from file"))
    | None => unit_ (inr token)
    end.

(** [func run() error], lines 29-72. *)
Definition run (flags : Flags) : T Outcome :=
  if bool_decide (credentialsFile flags = ""%string) then
    unit_ (Returned (New "missing required flag: credentials-file"))
  else if bool_decide (tokenFile flags = ""%string) then
    unit_ (Returned (New "missing required flag: token-file"))
  else if (uploadConcurrency flags <=? 0)%Z then
    unit_ (Returned (New "upload-concurrency must be greater than 0"))
  else
    let '(credentialJSON, err) := ioutil_ReadFile sur (credentialsFile flags) in
    _ <~ call (ReadFile (credentialsFile flags) (credentialJSON, err)) tt ;;
    match err with
    | Some err => unit_ (Returned (Wrap err "failed to read credentials"))
    | None =>
      let '(oauthConfig, err) := google_ConfigFromJSON sur credentialJSON in
      _ <~ call (ConfigFromJSON credentialJSON (oauthConfig, err)) tt ;;
      match err with
      | Some err => unit_ (Returned (Wrap err "failed to parse credentials"))
      | None =>
        r <~ token_of_file_or_fetched (tokenFile flags) oauthConfig ;;
        match r with
        | inl err => unit_ (Returned err)
        | inr token =>
          err <~ saveTokenToFile (tokenFile flags) token ;;
          match err with
          | Some err => unit_ (Returned (Wrap err "failed to save token to file"))
          | None =>
            _ <~ call (Client oauthConfig token) tt ;;
            u <~ NewUploader (oauthConfig, token) ;;
            unit_ (Started u (Args flags) (Z.to_nat (uploadConcurrency flags)))
          end
        end
      end
    end.

(** [func main()] (lines 22-27), given what [run] returned. *)
Definition main (argv0 : string) (result : option RunError) : T unit :=
  match result with
  | Some err =>
    _ <~ call (Fprintf_Stderr "%s: %s\n" argv0 err) tt ;;
    call (Exit 255) tt
  | None => unit_ tt
  end.

End Program.

(** Calls that ask the user for an authorization code or redeem it. *)
Definition is_prompt (c : Call) : bool :=
  match c with
  | AuthCodeURL _ _ | Printf _ _ | Scan _ | Exchange _ _ _ => true
  | _ => false
  end.

(** Calls that write the token file. *)
Definition is_write (c : Call) : bool :=
  match c with
  | OpenFile _ _ _ _ | Encode _ _ _ => true
  | _ => false
  end.

(** The files open after [log], innermost first, starting from [open];
    [None] if a file is closed, decoded or encoded while it is not the
    innermost open file. *)
Fixpoint open_after (log : list Call) (open : list string) : option (list string) :=
  match log with
  | [] => Some open
  | c :: log =>
    match c with
    | Open name None | OpenFile name _ _ None => open_after log (name :: open)
    | Close name =>
      match open with
      | top :: rest => if bool_decide (top = name) then open_after log rest else None
      | [] => None
      end
    | Decode name _ | Encode name _ _ =>
      match open with
      | top :: _ => if bool_decide (top = name) then open_after log open else None
      | [] => None
      end
    | _ => open_after log open
    end
  end.

(** Reading the token file has failed with [e]: at [os.Open] or at the
    decoding. *)
Definition read_failed (tokenFile : string) (log : list Call) (e : error) : Prop :=
  In (Open tokenFile (Some e)) log
  \/ exists token, In (Decode tokenFile (token, Some e)) log.

Section Properties.

Variable sur : Surroundings.

Ltac run_step :=
  match goal with
  | |- context [bool_decide ?P] => destruct (bool_decide_reflect P)
  | |- context [(?x <=? ?y)%Z] => destruct (Z.leb_spec x y)
  | |- context [match ?x with _ => _ end] =>
    lazymatch x with
    | context [match _ with _ => _ end] => fail
    | _ => destruct x eqn:?
    end
  end.

Ltac run_cases :=
  unfold run, token_of_file_or_fetched, readTokenFromFile, fetchToken, saveTokenToFile,
    NewUploader, main, then_, call, unit_, IsNotExist;
  repeat (run_step; simpl).

(** X12. [run] checks the three flags in the order credentials-file,
    token-file, upload-concurrency, and returns the error of the first
    one that is wrong without having made any call; [main] then prints
    that error and exits with status 255.  Whenever [run] has made a
    call, all three flags are good; and when it starts the pipeline, it
    does so with the given arguments and with [uploadConcurrency]
    workers, at least one. *)
Theorem run_checks_the_flags_before_any_call (flags : Flags) (log : list Call)
        (argv0 : string) :
  (credentialsFile flags = ""%string ->
   run sur flags log = (Returned (New "missing required flag: credentials-file"), log))
  /\ (credentialsFile flags <> ""%string -> tokenFile flags = ""%string ->
      run sur flags log = (Returned (New "missing required flag: token-file"), log))
  /\ (credentialsFile flags <> ""%string -> tokenFile flags <> ""%string ->
      (uploadConcurrency flags <= 0)%Z ->
      run sur flags log = (Returned (New "upload-concurrency must be greater than 0"), log))
  /\ (snd (run sur flags log) <> log ->
      credentialsFile flags <> ""%string /\ tokenFile flags <> ""%string
      /\ (0 < uploadConcurrency flags)%Z)
  /\ (forall u args workers,
         fst (run sur flags log) = Started u args workers ->
         args = Args flags /\ 0 < workers /\ Z.of_nat workers = uploadConcurrency flags)
  /\ (forall err,
         fst (run sur flags log) = Returned err ->
         snd (main argv0 (Some err) (snd (run sur flags log)))
         = snd (run sur flags log) ++ [Fprintf_Stderr "%s: %s\n" argv0 err; Exit 255]).
Proof.
  split; [|split; [|split; [|split; [|split]]]].
  - intros H. unfold run. by rewrite bool_decide_eq_true_2.
  - intros H1 H2. unfold run.
    by rewrite bool_decide_eq_false_2, bool_decide_eq_true_2.
  - intros H1 H2 H3. unfold run.
    rewrite !bool_decide_eq_false_2 by done.
    apply Z.leb_le in H3. by rewrite H3.
  - run_cases; intros; try done; repeat split; try done; lia.
  - intros u args workers. run_cases; intros; simplify_eq; repeat split; lia.
  - intros err _. unfold main, then_, call. simpl. by rewrite <- app_assoc.
Qed.

Ltac In_cases :=
  repeat match goal with
         | H : In _ (_ ++ _) |- _ => apply in_app_iff in H
         | H : In _ (_ :: _) |- _ => destruct H as [H | H]
         | H : In _ [] |- _ => destruct H
         | H : False |- _ => destruct H
         | H : _ \/ _ |- _ => destruct H
         end;
  simplify_eq.

Ltac In_solve := simpl; first [ by left | right; In_solve ].

(** X13. What [run] does about the token, read off the calls of one run.
    The user is asked for an authorization code only after the token
    file could not be read with an error that [os.IsNotExist] accepts.
    When reading fails with any other error, [run] returns it wrapped and
    neither asks the user nor writes the token file, so a file that
    exists but cannot be read or decoded is never overwritten.  Only the
    token file is written, and only with a token that was decoded from
    it or returned by the exchange in this same run; and when the
    pipeline starts, the OAuth client was made from the token that has
    just been saved without an error. *)
Theorem token_is_read_or_fetched_then_saved (flags : Flags) :
  (existsb is_prompt (snd (run sur flags [])) = true ->
   exists e,
     read_failed (tokenFile flags) (snd (run sur flags [])) e
     /\ os_IsNotExist sur e = true)
  /\ (forall e,
         read_failed (tokenFile flags) (snd (run sur flags [])) e ->
         os_IsNotExist sur e = false ->
         existsb is_prompt (snd (run sur flags [])) = false
         /\ existsb is_write (snd (run sur flags [])) = false
         /\ fst (run sur flags []) = Returned (Wrap e "failed to load token from file"))
  /\ (forall name token err,
         In (Encode name token err) (snd (run sur flags [])) ->
         name = tokenFile flags
         /\ ((exists t, token = Some t /\ In (Decode name (t, None)) (snd (run sur flags [])))
             \/ (exists config authCode,
                    In (Exchange config authCode (token, None)) (snd (run sur flags [])))))
  /\ (forall name flag perm err,
         In (OpenFile name flag perm err) (snd (run sur flags [])) ->
         name = tokenFile flags /\ flag = [O_RDWR; O_CREATE] /\ perm = 384%Z)
  /\ (forall u args workers,
         fst (run sur flags []) = Started u args workers ->
         exists config token,
           client u = (config, token)
           /\ In (Encode (tokenFile flags) token None) (snd (run sur flags []))
           /\ In (Client config token) (snd (run sur flags []))).
Proof.
  unfold read_failed. split; [|split; [|split; [|split]]].
  - run_cases; try done; intros _; eexists; (split; [|eassumption]);
      first [ left; In_solve | right; eexists; In_solve ].
  - intros e. run_cases; intros Hf Hne; destruct Hf as [Hf | [badToken Hf]];
      In_cases; try done; congruence.
  - intros name token err. run_cases; intros Hin; In_cases;
      (split; [done|]);
      first [ left; eexists; split; [reflexivity | In_solve]
            | right; eexists _, _; In_solve ].
  - intros name flag perm err. run_cases; intros Hin; In_cases; done.
  - intros u args workers. run_cases; intros Hst; simplify_eq; simpl;
      eexists _, _; (split; [reflexivity|]); split; In_solve.
Qed.

(** X14. Whatever the surroundings answer, every file that [run] opens
    before the pipeline is closed again before [run] goes on or returns,
    nothing is closed that is not open, and the token file is decoded or
    encoded only while it is open. *)
Theorem run_closes_what_it_opens (flags : Flags) :
  open_after (snd (run sur flags [])) [] = Some [].
Proof.
  run_cases; rewrite ?bool_decide_eq_true_2 by done; done.
Qed.

(** X15. When [run] starts the pipeline it has at least one worker, so
    that, whatever the surroundings of the pipeline answer, no state of
    the pipeline is stuck before [run] returns and from every state some
    schedule leads to the return. *)
Theorem started_pipeline_can_always_return (flags : Flags) (env : Env)
        (u : Uploader) (args : list string) (workers : nat) (s : Pipeline.State) :
  fst (run sur flags []) = Started u args workers ->
  Pipeline.reachable env args workers s ->
  (Pipeline.is_MReturned (Pipeline.main s) = false ->
   exists l, is_Some (Pipeline.step env args workers l s))
  /\ (exists schedule s',
         Pipeline.exec env args workers schedule s = Some s'
         /\ Pipeline.is_MReturned (Pipeline.main s') = true).
Proof.
  intros Hrun Hs.
  assert (Hpos : 0 < workers).
  { revert Hrun. run_cases; intros; simplify_eq; lia. }
  split.
  - apply Pipeline.progress; [by left | done].
  - apply Pipeline.run_returns; [by left | done].
Qed.

End Properties.

(** A first run: the token file does not exist yet, and the user types
    an authorization code that is accepted. *)
Definition first_run : Surroundings :=
  mkSurroundings
    (fun _ => ("credentials", None))
    (fun _ => ("config", None))
    (fun _ => Some (External "no such file or directory"))
    (fun _ => ("", None))
    (fun e => bool_decide (e = External "no such file or directory"))
    (fun _ => "https://accounts.example/auth")
    ("4/code", None)
    (fun _ _ => (Some "token", None))
    (fun _ => None)
    (fun _ _ => None)
    (fun _ _ => (true, None))%string.

Definition ten_workers : Flags :=
  mkFlags "client.json" "token.json" 10 ["a.jpg"; "b.jpg"]%string.

Example calls_of_a_first_run :
  run first_run ten_workers []
  = (Started (mkUploader ("config", Some "token") true) ["a.jpg"; "b.jpg"] 10,
     [ReadFile "client.json" ("credentials", None);
      ConfigFromJSON "credentials" ("config", None);
      Open "token.json" (Some (External "no such file or directory"));
      AuthCodeURL "config" "https://accounts.example/auth";
      Printf "Go to the following URL, then paste the authorization token: %v\n\n"
             ["https://accounts.example/auth"];
      Printf "Auth code: " [];
      Scan ("4/code", None);
      Exchange "config" "4/code" (Some "token", None);
      OpenFile "token.json" [O_RDWR; O_CREATE] 384 None;
      Encode "token.json" (Some "token") None;
      Close "token.json";
      Client "config" (Some "token");
      NewService None])%string.
Proof. reflexivity. Qed.

Lemma started_pipeline_can_always_return_witness :
  (Pipeline.is_MReturned (Pipeline.main Pipeline.init) = false ->
   exists l, is_Some (Pipeline.step env_ok ["a.jpg"; "b.jpg"]%string 10 l Pipeline.init))
  /\ (exists schedule s',
         Pipeline.exec env_ok ["a.jpg"; "b.jpg"]%string 10 schedule Pipeline.init = Some s'
         /\ Pipeline.is_MReturned (Pipeline.main s') = true).
Proof.
  apply (started_pipeline_can_always_return
           first_run ten_workers env_ok
           (mkUploader ("config", Some "token") true)%string
           ["a.jpg"; "b.jpg"]%string 10 Pipeline.init).
  - reflexivity.
  - apply Pipeline.reachable_init.
Defined.

End Startup.
